(** * The symbol cache of the datapack language server

    A shallow embedding of the cache store (the [ClientCache] module of the
    sources) and the proofs of its specification.

    Data model.  A JavaScript object used as a string-keyed record is an
    association list in [Object.keys] order ([Obj]): array-index keys first,
    in ascending order, then the other keys in insertion order.  A key is an
    own property exactly when it maps to a defined value.  A [CacheUnit] is
    a record of its four optional fields; numbers that hold offsets are
    integers ([Z]).

    Property reads.  The functions of this first part read own properties.
    That is the read of the source wherever the key comes from [Object.keys]
    of the object read, or is one of the cache types.  [combineCache] reads
    [ansCategory[id]] for an identifier of the override, which the base
    category need not own: for an identifier that names a member of
    [Object.prototype] the read finds that member.  Module [Host] models
    this read in full; [safe_merge] tells when it reads own properties only,
    and there [Host.combineCache] is the [combineCache] of this part
    ([Host_combineCache_plain]).

    Position objects are the only objects the code shares between two caches
    ([arr.push(pos)] in [combineCache]) and writes through such a shared
    reference, so the functions that depend on it ([combineCache],
    [getCacheForID]) work on caches of references ([loc]) into a [Store] of
    position objects.  The containers (cache, category, unit, array) of two
    caches handed to one call are taken to be distinct objects, and are
    values here.  For [getCacheForID], whose result must share nothing with
    the cache it is made from, module [Heap] gives every object an address:
    the cache object, the categories, the units, the arrays, the positions
    and the rules and scopes inside them; there the function writes objects
    in place as the source does.  The functions that only read or rebuild
    positions work on caches of position values.

    [IdentityNode], [IndexMapping], [remapTextRange] and the language service
    are declared outside these sources and are parameters; [RegExp] and
    [rfdc] belong to the host and to a package, and are modelled. *)

From Stdlib Require Import ZArith NArith Ascii String List Lia Bool.
From stdpp Require Import base option list strings.

Local Open Scope Z_scope.

(** ** JavaScript objects as ordered association lists *)

(** [Object.keys] lists the array-index keys first, in ascending numeric
    order, then the other string keys in insertion order. *)
Class PropertyKey (K : Type) := array_index : K -> option N.

Definition digit (c : ascii) : option N :=
  let n := N_of_ascii c in
  if ((48 <=? n) && (n <=? 57))%N then Some (n - 48)%N else None.

Fixpoint digits_value (acc : N) (s : string) : option N :=
  match s with
  | EmptyString => Some acc
  | String c s' =>
      match digit c with
      | Some d => digits_value (10 * acc + d)%N s'
      | None => None
      end
  end.

(** A canonical numeric string below 2^32 - 1. *)
Definition string_array_index (s : string) : option N :=
  match s with
  | EmptyString => None
  | String c EmptyString => digit c
  | String c _ =>
      if Ascii.eqb c "0" then None
      else match digits_value 0 s with
           | Some v => if (v <? 2 ^ 32 - 1)%N then Some v else None
           | None => None
           end
  end.

#[global] Instance string_key : PropertyKey string := string_array_index.

Abbreviation Obj K V := (list (K * V)).

Section Obj.
Context {K V : Type} `{EqDecision K} `{PropertyKey K}.
Implicit Type o : Obj K V.

(** [Object.keys(o)] *)
Definition keys o : list K := map fst o.

(** [o[k]] *)
Fixpoint get (k : K) o : option V :=
  match o with
  | [] => None
  | (k', v) :: o' => if decide (k' = k) then Some v else get k o'
  end.

(** [delete o[k]] *)
Fixpoint delete_key (k : K) o : Obj K V :=
  match o with
  | [] => []
  | (k', v) :: o' =>
      if decide (k' = k) then delete_key k o' else (k', v) :: delete_key k o'
  end.

(** [o[k] = v] where [k] is an own key: the key keeps its place. *)
Fixpoint replace_key (k : K) (v : V) o : Obj K V :=
  match o with
  | [] => []
  | (k', v') :: o' =>
      if decide (k' = k) then (k, v) :: o' else (k', v') :: replace_key k v o'
  end.

(** [o[k] = v] where [k] is a new array index [n]: it goes before the first
    key that is a larger index or no index. *)
Fixpoint insert_index (n : N) (k : K) (v : V) o : Obj K V :=
  match o with
  | [] => [(k, v)]
  | (k', v') :: o' =>
      match array_index k' with
      | Some n' =>
          if (n' <? n)%N then (k', v') :: insert_index n k v o'
          else (k, v) :: o
      | None => (k, v) :: o
      end
  end.

(** [o[k] = v] *)
Definition put (k : K) (v : V) o : Obj K V :=
  match get k o with
  | Some _ => replace_key k v o
  | None =>
      match array_index k with
      | Some n => insert_index n k v o
      | None => o ++ [(k, v)]
      end
  end.

(** [for (const k of Object.keys(o)) { const v = o[k]; ... }] where the body
    changes [v] in place and may end with [delete o[k]]: [body k v] is the
    value left under [k], or [None] when the key is deleted.  The keys are
    the snapshot taken before the loop; the object is read as it is when the
    key is reached. *)
Fixpoint forKeys (body : K -> V -> option V) (ks : list K) o : Obj K V :=
  match ks with
  | [] => o
  | k :: ks' =>
      match get k o with
      | Some v =>
          match body k v with
          | Some v' => forKeys body ks' (replace_key k v' o)
          | None => forKeys body ks' (delete_key k o)
          end
      | None => forKeys body ks' o
      end
  end.

(** The pairs [(k, o[k])] for [k] of [Object.keys(o)], for loops that only
    read. *)
Definition entries o : list (K * V) :=
  omap (fun k => match get k o with Some v => Some (k, v) | None => None end)
       (keys o).
End Obj.

(** ** Cache schema *)

Inductive TagFileType :=
  | tag_block | tag_entity_type | tag_fluid | tag_function | tag_item.

Inductive WorldgenFileType :=
  | worldgen_biome | worldgen_configured_carver | worldgen_configured_decorator
  | worldgen_configured_feature | worldgen_configured_structure_feature
  | worldgen_configured_surface_builder | worldgen_processor_list
  | worldgen_template_pool.

Inductive FileType :=
  | advancement | dimension | dimension_type | function | loot_table
  | predicate | recipe
  | tag_file (t : TagFileType)
  | worldgen_file (t : WorldgenFileType).

Inductive AliasType := alias_entity | alias_uuid | alias_vector.

Inductive MiscType :=
  | bossbar | entity | objective | score_holder | storage | tag | team | color
  | alias (t : AliasType).

Inductive CacheType :=
  | file_type (t : FileType)
  | misc_type (t : MiscType).

#[global] Instance TagFileType_eq_dec : EqDecision TagFileType.
Proof. solve_decision. Defined.
#[global] Instance WorldgenFileType_eq_dec : EqDecision WorldgenFileType.
Proof. solve_decision. Defined.
#[global] Instance FileType_eq_dec : EqDecision FileType.
Proof. solve_decision. Defined.
#[global] Instance AliasType_eq_dec : EqDecision AliasType.
Proof. solve_decision. Defined.
#[global] Instance MiscType_eq_dec : EqDecision MiscType.
Proof. solve_decision. Defined.
#[global] Instance CacheType_eq_dec : EqDecision CacheType.
Proof. solve_decision. Defined.

(** No cache type is spelled like a number. *)
#[global] Instance CacheType_key : PropertyKey CacheType := fun _ => None.

Inductive CacheUnitPositionType := Dcl | Def | Ref.

Definition CacheUnitPositionTypes : list CacheUnitPositionType := [Dcl; Def; Ref].

#[global] Instance CacheUnitPositionType_eq_dec : EqDecision CacheUnitPositionType.
Proof. solve_decision. Defined.

(** [FileType | '*'] *)
Inductive FileTypeOrAny := AnyType | OfType (t : FileType).

#[global] Instance FileTypeOrAny_eq_dec : EqDecision FileTypeOrAny.
Proof. solve_decision. Defined.

Record CacheVisibility := { pattern : string; type : FileTypeOrAny }.

(** [TextRange]: the fields [start] and [end]. *)
Record TextRange := { range_start : Z; range_end : Z }.

(** [CachePosition extends TextRange]; [end_] is the field [end]. *)
Record CachePosition := {
  start : Z;
  end_ : Z;
  uri : option string;
  visibility : option (list CacheVisibility);
  scope : option TextRange;
  startLine : option Z;
  startChar : option Z;
  endLine : option Z;
  endChar : option Z
}.

#[global] Instance CachePosition_inhabited : Inhabited CachePosition :=
  populate {| start := 0; end_ := 0; uri := None; visibility := None;
              scope := None; startLine := None; startChar := None;
              endLine := None; endChar := None |}.

(** A unit over positions of type [P]: position values, or references. *)
Record CacheUnit (P : Type) := {
  doc : option string;
  dcl : option (list P);
  def : option (list P);
  ref : option (list P)
}.
Arguments doc {P}.
Arguments dcl {P}.
Arguments def {P}.
Arguments ref {P}.
Arguments Build_CacheUnit {P}.

Abbreviation CacheCategory P := (Obj string (CacheUnit P)).
Abbreviation ClientCache P := (Obj CacheType (CacheCategory P)).

(** [{}] *)
Definition emptyUnit {P} : CacheUnit P :=
  {| doc := None; dcl := None; def := None; ref := None |}.

(** [unit[t]] *)
Definition unit_get {P} (t : CacheUnitPositionType) (unit : CacheUnit P)
  : option (list P) :=
  match t with Dcl => dcl unit | Def => def unit | Ref => ref unit end.

(** [unit[t] = v] *)
Definition unit_set {P} (t : CacheUnitPositionType) (v : option (list P))
  (unit : CacheUnit P) : CacheUnit P :=
  match t with
  | Dcl => {| doc := doc unit; dcl := v; def := def unit; ref := ref unit |}
  | Def => {| doc := doc unit; dcl := dcl unit; def := v; ref := ref unit |}
  | Ref => {| doc := doc unit; dcl := dcl unit; def := def unit; ref := v |}
  end.

(** [unit[t] ?? []] *)
Definition unit_positions {P} (t : CacheUnitPositionType) (unit : CacheUnit P)
  : list P :=
  default [] (unit_get t unit).

(** [unit[t]?.length] as a condition *)
Definition has_length {P} (t : CacheUnitPositionType) (unit : CacheUnit P) : bool :=
  match unit_get t unit with
  | Some (_ :: _) => true
  | _ => false
  end.

(** [unit.doc] as a condition: a string is truthy when it is not empty. *)
Definition has_doc {P} (unit : CacheUnit P) : bool :=
  match doc unit with
  | Some (String _ _) => true
  | _ => false
  end.

(** ** The store of position objects *)

Abbreviation loc := nat.
Abbreviation Store := (list CachePosition).

(** The object a reference points to. *)
Definition deref (st : Store) (l : loc) : CachePosition := st !!! l.

Definition deref_unit (st : Store) (unit : CacheUnit loc) : CacheUnit CachePosition :=
  {| doc := doc unit;
     dcl := map (deref st) <$> dcl unit;
     def := map (deref st) <$> def unit;
     ref := map (deref st) <$> ref unit |}.

Definition deref_category (st : Store) (c : CacheCategory loc)
  : CacheCategory CachePosition :=
  map (fun e => (e.1, deref_unit st e.2)) c.

(** The cache as it reads through the store. *)
Definition deref_cache (st : Store) (c : ClientCache loc)
  : ClientCache CachePosition :=
  map (fun e => (e.1, deref_category st e.2)) c.

Definition unit_locs {P} (unit : CacheUnit P) : list P :=
  unit_positions Dcl unit ++ unit_positions Def unit ++ unit_positions Ref unit.

Definition category_locs {P} (c : CacheCategory P) : list P :=
  concat (map (fun e => unit_locs e.2) c).

(** Every position of a cache; for a cache of references, every position
    object it refers to. *)
Definition cache_locs {P} (c : ClientCache P) : list P :=
  concat (map (fun e => category_locs e.2) c).

(** Own keys are distinct, at both levels. *)
Definition wf_cache {P} (c : ClientCache P) : Prop :=
  NoDup (keys c) /\ Forall (fun e => NoDup (keys e.2)) c.

(** ** Strings and regular expressions

    A string is the list of its UTF-16 code units; the model covers the code
    units below 256 ([ascii]).  [RegExp] is the host's engine, not code of
    the repository: it is modelled for the syntax that [testID] can generate
    from a pattern whose literal characters are ordinary characters or dots,
    and reported as [None] for everything else. *)

Definition chars (s : string) : list ascii := list_ascii_of_string s.

Fixpoint starts_with (needle s : list ascii) : bool :=
  match needle, s with
  | [], _ => true
  | a :: needle', c :: s' => Ascii.eqb a c && starts_with needle' s'
  | _ :: _, [] => false
  end.

(** [s.replace(/needle/g, by)] for a literal, non-empty [needle]: the matches
    are taken leftmost first and do not overlap; [skip] counts the characters
    of the current match still to pass over. *)
Fixpoint replace_from (needle by_ : list ascii) (skip : nat) (s : list ascii)
  : list ascii :=
  match s with
  | [] => []
  | c :: s' =>
      match skip with
      | S k => replace_from needle by_ k s'
      | O =>
          if starts_with needle s
          then by_ ++ replace_from needle by_ (length needle - 1) s'
          else c :: replace_from needle by_ 0 s'
      end
  end.

Definition replace_all (needle by_ : string) (s : list ascii) : list ascii :=
  replace_from (chars needle) (chars by_) 0 s.

Inductive Atom :=
  | Lit (c : ascii)     (* an ordinary character *)
  | AnyChar             (* [.] *)
  | NotColonSlash.      (* [[^:/]] *)

Inductive Term :=
  | AssertStart         (* [^] *)
  | AssertEnd           (* [$] *)
  | One (a : Atom)
  | ZeroOrMore (a : Atom).  (* [a{0,}] *)

Inductive Token := TAtom (a : Atom) | TStart | TEnd | TRepeat.

(** The syntax characters of a regular expression. *)
Definition syntax_character (c : ascii) : bool :=
  existsb (Ascii.eqb c) (chars "^$\.*+?()[]{}|").

Fixpoint tokenize (s : list ascii) : option (list Token) :=
  match s with
  | [] => Some []
  | c :: s1 =>
      if Ascii.eqb c "^" then cons TStart <$> tokenize s1
      else if Ascii.eqb c "$" then cons TEnd <$> tokenize s1
      else if Ascii.eqb c "." then cons (TAtom AnyChar) <$> tokenize s1
      else if Ascii.eqb c "[" then
        match s1 with
        | c1 :: c2 :: c3 :: c4 :: s5 =>
            if Ascii.eqb c1 "^" && Ascii.eqb c2 ":" && Ascii.eqb c3 "/"
               && Ascii.eqb c4 "]"
            then cons (TAtom NotColonSlash) <$> tokenize s5
            else None
        | _ => None
        end
      else if Ascii.eqb c "{" then
        match s1 with
        | c1 :: c2 :: c3 :: s4 =>
            if Ascii.eqb c1 "0" && Ascii.eqb c2 "," && Ascii.eqb c3 "}"
            then cons TRepeat <$> tokenize s4
            else None
        | _ => None
        end
      else if syntax_character c then None
      else cons (TAtom (Lit c)) <$> tokenize s1
  end.

Fixpoint assemble (ts : list Token) : option (list Term) :=
  match ts with
  | [] => Some []
  | TAtom a :: TRepeat :: ts' => cons (ZeroOrMore a) <$> assemble ts'
  | TAtom a :: ts' => cons (One a) <$> assemble ts'
  | TStart :: ts' => cons AssertStart <$> assemble ts'
  | TEnd :: ts' => cons AssertEnd <$> assemble ts'
  | TRepeat :: _ => None
  end.

(** [new RegExp(source)], no flags: [None] outside the modelled syntax. *)
Definition RegExp (source : list ascii) : option (list Term) :=
  tokenize source ≫= assemble.

Definition line_terminator (c : ascii) : bool :=
  Ascii.eqb c "010" || Ascii.eqb c "013".

Definition atom_matches (a : Atom) (c : ascii) : bool :=
  match a with
  | Lit c' => Ascii.eqb c' c
  | AnyChar => negb (line_terminator c)
  | NotColonSlash => negb (Ascii.eqb c ":" || Ascii.eqb c "/")
  end.

(** A match of [r] that begins where [s] begins; [at_start] tells whether that
    is the beginning of the input. *)
Fixpoint match_here (r : list Term) (at_start : bool) (s : list ascii) : bool :=
  match r with
  | [] => true
  | AssertStart :: r' => at_start && match_here r' at_start s
  | AssertEnd :: r' =>
      match s with [] => match_here r' at_start s | _ :: _ => false end
  | One a :: r' =>
      match s with
      | c :: s' => atom_matches a c && match_here r' false s'
      | [] => false
      end
  | ZeroOrMore a :: r' =>
      (fix repeat (at_start : bool) (s : list ascii) : bool :=
         match_here r' at_start s
         || match s with
            | c :: s' => atom_matches a c && repeat false s'
            | [] => false
            end) at_start s
  end.

Fixpoint search (r : list Term) (at_start : bool) (s : list ascii) : bool :=
  match_here r at_start s
  || match s with
     | _ :: s' => search r false s'
     | [] => false
     end.

(** [regex.test(s)] *)
Definition regex_test (r : list Term) (s : string) : bool :=
  search r true (chars s).

(** ** Outcomes

    What a call that may log, recurse without end, or reach an unmodelled
    regular expression does. *)

(** A line written by [console.error]. *)
Inductive LogEntry :=
  | NoIDResult (definitionUri : option string) (forType : FileType) (forID : string).

Inductive Res (A : Type) :=
  | Ok (a : A) (log : list LogEntry)  (* returns [a], having logged [log] *)
  | Unmodelled                        (* a pattern outside the modelled syntax *)
  | OutOfFuel.                        (* the recursion is deeper than the fuel *)
Arguments Ok {A}.
Arguments Unmodelled {A}.
Arguments OutOfFuel {A}.

#[global] Instance Res_ret : MRet Res := fun A a => Ok a [].

#[global] Instance Res_bind : MBind Res := fun A B (f : A -> Res B) m =>
  match m with
  | Ok a log =>
      match f a with
      | Ok b log' => Ok b (log ++ log')
      | Unmodelled => Unmodelled
      | OutOfFuel => OutOfFuel
      end
  | Unmodelled => Unmodelled
  | OutOfFuel => OutOfFuel
  end.

(** [arr.some(f)] *)
Fixpoint some {A} (f : A -> Res bool) (arr : list A) : Res bool :=
  match arr with
  | [] => mret false
  | x :: arr' => b ← f x; if b : bool then mret true else some f arr'
  end.

(** [arr.filter(f)] *)
Fixpoint filterRes {A} (f : A -> Res bool) (arr : list A) : Res (list A) :=
  match arr with
  | [] => mret []
  | x :: arr' =>
      b ← f x;
      rest ← filterRes f arr';
      mret (if b : bool then x :: rest else rest)
  end.

(** ** Visibility *)

(** [IdentityNode] is declared outside these sources; the cache uses its
    string form, its namespace and the default namespace. *)
Class IdentityOps (IdentityNode : Type) := {
  toString : IdentityNode -> string;
  getNamespace : IdentityNode -> string;
  DefaultNamespace : string
}.

Inductive VisibilityTier := private | internal | public.

(** [CacheVisibility | CacheVisibility[]] *)
Inductive VisibilityArg :=
  | OneRule (v : CacheVisibility)
  | Rules (vs : list CacheVisibility).

(** [config.env.defaultVisibility]: a tier, or an object. *)
Inductive DefaultVisibility :=
  | Tier (t : VisibilityTier)
  | Structured (v : VisibilityArg).

Record Config := { defaultVisibility : DefaultVisibility }.

(** The parts of [DatapackLanguageService] the cache uses: the shared cache
    [service.cacheFile.cache], and [getId], the lookup
    [service.getId(service.parseUri(uri))] of the category and identity a
    document defines. *)
Record DatapackLanguageService (IdentityNode : Type) := {
  cache : ClientCache loc;
  getId : option string -> option (FileType * IdentityNode)
}.
Arguments cache {IdentityNode}.
Arguments getId {IdentityNode}.

Section Visibility.
Context {IdentityNode : Type} `{IdentityOps IdentityNode}.

Definition getCacheVisibilities (visibility : VisibilityTier)
  (definitionType : FileType) (definitionID : IdentityNode) : list CacheVisibility :=
  match visibility with
  | private =>
      [ {| type := OfType definitionType; pattern := toString definitionID |} ]
  | internal =>
      let namespace := getNamespace definitionID in
      {| type := AnyType; pattern := namespace +:+ ":**" |}
      :: (if decide (namespace <> DefaultNamespace)
          then [ {| type := AnyType; pattern := DefaultNamespace +:+ ":**" |} ]
          else [])
  | public =>
      [ {| type := AnyType; pattern := "**" |} ]
  end.

(** The source of the regular expression [testID] builds from a pattern. *)
Definition regex_source (pattern : string) : list ascii :=
  chars "^"
  ++ replace_all "*" "[^:/]{0,}"
       (replace_all "**" ".{0,}"
          (replace_all "**/" ".{0,}"
             (replace_all "?" "[^:/]" (chars pattern))))
  ++ chars "$".

(** [testID] on one rule (the part after the array case). *)
Definition testRule (visibility : CacheVisibility) (forType : FileType)
  (forID : IdentityNode) : Res bool :=
  if decide (type visibility <> AnyType /\ type visibility <> OfType forType)
  then mret false
  else match RegExp (regex_source (pattern visibility)) with
       | Some regex => mret (regex_test regex (toString forID))
       | None => Unmodelled
       end.

(** The recursion of [testID] is not bounded by its arguments (an empty array
    as default policy calls itself again), so it runs on [fuel]. *)
Fixpoint testID (fuel : nat) (service : DatapackLanguageService IdentityNode)
  (visibility : VisibilityArg) (forType : FileType) (forID : IdentityNode)
  (definitionUri : option string) (config : Config) : Res bool :=
  match fuel with
  | O => OutOfFuel
  | S fuel' =>
      match visibility with
      | Rules ((_ :: _) as vs) =>
          some (fun v => testID fuel' service (OneRule v) forType forID
                           definitionUri config) vs
      | Rules [] =>
          match defaultVisibility config with
          | Structured defaultConfig =>
              testID fuel' service defaultConfig forType forID definitionUri config
          | Tier defaultConfig =>
              match getId service definitionUri with
              | None =>
                  Ok true [NoIDResult definitionUri forType (toString forID)]
              | Some (category, id) =>
                  testID fuel' service
                    (Rules (getCacheVisibilities defaultConfig category id))
                    forType forID definitionUri config
              end
          end
      | OneRule v => testRule v forType forID
      end
  end.
End Visibility.

(** ** Cache operations *)

(** [forKeys] for a body that calls [testID]. *)
Fixpoint forKeysRes {K V} `{EqDecision K} (body : K -> V -> Res (option V))
  (ks : list K) (o : Obj K V) : Res (Obj K V) :=
  match ks with
  | [] => mret o
  | k :: ks' =>
      match get k o with
      | Some v =>
          r ← body k v;
          match r with
          | Some v' => forKeysRes body ks' (replace_key k v' o)
          | None => forKeysRes body ks' (delete_key k o)
          end
      | None => forKeysRes body ks' o
      end
  end.

(** A [for] loop whose body may [return]: the first value returned. *)
Fixpoint first_return {A B} (body : A -> option B) (l : list A) : option B :=
  match l with
  | [] => None
  | x :: l' =>
      match body x with
      | Some r => Some r
      | None => first_return body l'
      end
  end.

Definition getSafeCategory {P} (cache : option (ClientCache P)) (type : CacheType)
  : CacheCategory P :=
  default [] (get type (default [] cache)).

Record OffsetResult := {
  result_type : CacheType;
  result_id : string;
  result_start : Z;
  result_end : Z
}.

Definition getCacheFromOffset (cache : ClientCache CachePosition) (offset : Z)
  : option OffsetResult :=
  first_return (fun '(type, category) =>
    first_return (fun '(id, unit) =>
      first_return (fun t =>
        first_return (fun ele =>
          if (start ele <=? offset) && (offset <=? end_ ele)
          then Some {| result_type := type; result_id := id;
                       result_start := start ele; result_end := end_ ele |}
          else None)
          (unit_positions t unit))
        CacheUnitPositionTypes)
      (entries category))
    (entries cache).

Section Remap.
(** [IndexMapping] and [remapTextRange] are declared outside these sources. *)
Context {IndexMapping : Type}.
Variable remapTextRange : CachePosition -> IndexMapping -> CachePosition.

Definition remapUnit (mapping : IndexMapping) (unit : CacheUnit CachePosition)
  : CacheUnit CachePosition :=
  fold_left (fun unit t =>
    match unit_get t unit with
    | Some arr =>
        unit_set t (Some (map (fun ele => remapTextRange ele mapping) arr)) unit
    | None => unit
    end) CacheUnitPositionTypes unit.

Definition remapCachePosition (cache : ClientCache CachePosition)
  (mapping : IndexMapping) : ClientCache CachePosition :=
  forKeys (fun type category =>
    Some (forKeys (fun id unit => Some (remapUnit mapping unit))
            (keys category) category))
    (keys cache) cache.
End Remap.

Definition trimCache {P} (cache : ClientCache P) : ClientCache P :=
  forKeys (fun type category =>
    let category' :=
      forKeys (fun id unit =>
        if negb (has_length Dcl unit) && negb (has_length Def unit)
           && negb (has_length Ref unit)
        then None else Some unit)
        (keys category) category in
    if decide (length (keys category') = 0%nat) then None else Some category')
    (keys cache) cache.

(** [Position] of the language server protocol. *)
Record Position := { line : Z; character : Z }.

(** The third argument of [combineCache]; [addition_uri] is
    [addition.uri.toString()]. *)
Record Addition := {
  addition_uri : string;
  getPosition : Z -> Position
}.

(** What the assignments of [addPos] leave in [pos]. *)
Definition stamp (addition : Addition) (pos : CachePosition) : CachePosition :=
  let startPos := getPosition addition (start pos) in
  let endPos := getPosition addition (end_ pos) in
  {| start := start pos; end_ := end_ pos;
     uri := Some (addition_uri addition);
     visibility := visibility pos; scope := scope pos;
     startLine := Some (line startPos); startChar := Some (character startPos);
     endLine := Some (line endPos); endChar := Some (character endPos) |}.

Definition addPos (addition : option Addition) (pos : loc) (arr : list loc)
  (st : Store) : list loc * Store :=
  let st' :=
    match addition with
    | Some a => <[pos := stamp a (deref st pos)]> st
    | None => st
    end in
  (arr ++ [pos], st').

(** [initUnit] links the category and the unit into [ans] and returns the
    unit.  The read [ansCategory[id]] is the read of an own property here:
    the unit the category has under [id], or nothing.  [Host.initUnit] is
    the read through [Object.prototype]; the two agree when [id] names no
    member of it or the category owns [id]. *)
Definition initUnit (ans : ClientCache loc) (type : CacheType) (id : string)
  : ClientCache loc * CacheUnit loc :=
  let ansCategory := getSafeCategory (Some ans) type in
  let ansUnit := default emptyUnit (get id ansCategory) in
  (put type (put id ansUnit ansCategory) ans, ansUnit).

(** The loops of [combineCache] over the position kinds of one unit, and the
    assignment of its documentation. *)
Definition mergeUnit (addition : option Addition) (overrideUnit ansUnit : CacheUnit loc)
  (st : Store) : CacheUnit loc * Store :=
  let '(ansUnit, st) :=
    fold_left (fun '(ansUnit, st) type =>
      fold_left (fun '(ansUnit, st) overridePos =>
        let arr := default [] (unit_get type ansUnit) in
        let '(arr, st) := addPos addition overridePos arr st in
        (unit_set type (Some arr) ansUnit, st))
        (unit_positions type overrideUnit) (ansUnit, st))
      CacheUnitPositionTypes (ansUnit, st) in
  (if has_doc overrideUnit
   then {| doc := doc overrideUnit; dcl := dcl ansUnit; def := def ansUnit;
           ref := ref ansUnit |}
   else ansUnit, st).

(** Whether a unit of the override takes part in the merge. *)
Definition participates {P} (overrideUnit : CacheUnit P) : bool :=
  has_length Dcl overrideUnit || has_length Def overrideUnit
  || has_length Ref overrideUnit || has_doc overrideUnit.

(** [ansUnit] is the object linked under [ans[type][id]]: what the loops did
    to it is written back under its keys. *)
Definition combineUnit (addition : option Addition) (type : CacheType) (id : string)
  (overrideUnit : CacheUnit loc) (ans : ClientCache loc) (st : Store)
  : ClientCache loc * Store :=
  if participates overrideUnit then
    let '(ans, ansUnit) := initUnit ans type id in
    let '(ansUnit, st) := mergeUnit addition overrideUnit ansUnit st in
    (put type (put id ansUnit (getSafeCategory (Some ans) type)) ans, st)
  else (ans, st).

Definition combineCache (base override : ClientCache loc)
  (addition : option Addition) (st : Store) : ClientCache loc * Store :=
  fold_left (fun '(ans, st) '(type, overrideCategory) =>
    fold_left (fun '(ans, st) '(id, overrideUnit) =>
      combineUnit addition type id overrideUnit ans st)
      (entries overrideCategory) (ans, st))
    (entries override) (base, st).

(** [rfdc] is the deep-clone package: every object of the clone is a new
    object.  [mapS] clones the elements of a list one after the other. *)
Fixpoint mapS {A B} (f : A -> Store -> B * Store) (l : list A) (st : Store)
  : list B * Store :=
  match l with
  | [] => ([], st)
  | x :: l' =>
      let '(y, st) := f x st in
      let '(l'', st) := mapS f l' st in
      (y :: l'', st)
  end.

Definition clonePosition (l : loc) (st : Store) : loc * Store :=
  (length st, st ++ [deref st l]).

Definition cloneArray (arr : option (list loc)) (st : Store)
  : option (list loc) * Store :=
  match arr with
  | Some arr => let '(arr, st) := mapS clonePosition arr st in (Some arr, st)
  | None => (None, st)
  end.

Definition cloneUnit (unit : CacheUnit loc) (st : Store) : CacheUnit loc * Store :=
  let '(dcl', st) := cloneArray (dcl unit) st in
  let '(def', st) := cloneArray (def unit) st in
  let '(ref', st) := cloneArray (ref unit) st in
  ({| doc := doc unit; dcl := dcl'; def := def'; ref := ref' |}, st).

Definition cloneCategory (category : CacheCategory loc) (st : Store)
  : CacheCategory loc * Store :=
  mapS (fun '(id, unit) st =>
          let '(unit, st) := cloneUnit unit st in ((id, unit), st)) category st.

Definition rfdc (cache : ClientCache loc) (st : Store) : ClientCache loc * Store :=
  mapS (fun '(type, category) st =>
          let '(category, st) := cloneCategory category st in
          ((type, category), st)) cache st.

Section Query.
Context {IdentityNode : Type} `{IdentityOps IdentityNode}.
Variable fuel : nat.
Variable service : DatapackLanguageService IdentityNode.
Variable forType : FileType.
Variable forID : IdentityNode.
Variable config : Config.

(** The test [trimPositions] filters with,
    [p => testID(service, p.visibility, forType, forID, p.uri, config)]; an
    absent [visibility] is the default argument [[]] of [testID]. *)
Definition visible (p : CachePosition) : Res bool :=
  testID fuel service (Rules (default [] (visibility p))) forType forID (uri p)
    config.

Definition trimPositions (st : Store) (unit : CacheUnit loc)
  (t : CacheUnitPositionType) : Res (CacheUnit loc) :=
  match unit_get t unit with
  | Some arr =>
      arr' ← filterRes (fun l => visible (deref st l)) arr;
      mret (unit_set t (Some arr') unit)
  | None => mret (unit_set t None unit)
  end.

Definition getCacheForID (st : Store) : Res (ClientCache loc * Store) :=
  let '(ans, st) := rfdc (cache service) st in
  ans ← forKeysRes (fun type category =>
      category ← forKeysRes (fun id unit =>
          unit ← trimPositions st unit Dcl;
          unit ← trimPositions st unit Def;
          mret (if negb (has_length Dcl unit) && negb (has_length Def unit)
                then None else Some unit))
        (keys category) category;
      mret (if decide (length (keys category) = 0%nat) then None else Some category))
    (keys ans) ans;
  mret (ans, st).
End Query.

(** ** Reference definitions

    What the operations compute on a cache with distinct keys, written as
    list functions; the proofs relate the loops above to them. *)

#[global] Instance wf_cache_dec {P} (c : ClientCache P) : Decision (wf_cache c).
Proof. unfold wf_cache. apply _. Defined.

(** A unit [trimCache] deletes: no position of any kind. *)
Definition garbage {P} (unit : CacheUnit P) : bool :=
  negb (has_length Dcl unit) && negb (has_length Def unit)
  && negb (has_length Ref unit).

Definition trimCategory {P} (category : CacheCategory P) : CacheCategory P :=
  filter (fun e => garbage e.2 = false) category.

Definition trimmed {P} (c : ClientCache P) : ClientCache P :=
  omap (fun e => match trimCategory e.2 with
                 | [] => None
                 | category' => Some (e.1, category')
                 end) c.

(** An object with every value replaced by its image, keys in place. *)
Definition map_values {K V W} (f : V -> W) (o : Obj K V) : Obj K W :=
  map (fun e => (e.1, f e.2)) o.

(** The positions of a cache in the order of the scan: all types, then all
    identifiers, then the three kinds, then the positions of the kind. *)
Definition scan_order (cache : ClientCache CachePosition)
  : list (CacheType * string * CachePosition) :=
  e ← cache;
  u ← e.2;
  t ← CacheUnitPositionTypes;
  ele ← unit_positions t u.2;
  [(e.1, u.1, ele)].

(** The range of a position contains the offset, both ends included. *)
Definition contains (offset : Z) (ele : CachePosition) : Prop :=
  start ele <= offset /\ offset <= end_ ele.

Definition report (x : CacheType * string * CachePosition) : OffsetResult :=
  {| result_type := x.1.1; result_id := x.1.2;
     result_start := start x.2; result_end := end_ x.2 |}.

(** What the innermost loop of [getCacheFromOffset] does with a position. *)
Definition hit (offset : Z) (x : CacheType * string * CachePosition)
  : option OffsetResult :=
  if (start x.2 <=? offset) && (offset <=? end_ x.2) then Some (report x) else None.

(** [cache[type][id]], the empty unit when the type or the identifier is
    absent. *)
Definition unit_at {P} (c : ClientCache P) (type : CacheType) (id : string)
  : CacheUnit P :=
  default emptyUnit (get id (getSafeCategory (Some c) type)).

(** [cache[type]?.[id]]: the unit under an identifier, if there is one. *)
Definition unit_of {P} (c : ClientCache P) (type : CacheType) (id : string)
  : option (CacheUnit P) :=
  get type c ≫= get id.

(** The sequence of one kind under one identifier. *)
Definition positions_at {P} (c : ClientCache P) (type : CacheType) (id : string)
  (t : CacheUnitPositionType) : list P :=
  unit_positions t (unit_at c type id).

(** The store after the position objects [ls] went through [addPos], in
    order. *)
Definition stamp_all (addition : option Addition) (ls : list loc) (st : Store)
  : Store :=
  match addition with
  | Some a => fold_left (fun st l => <[l := stamp a (deref st l)]> st) ls st
  | None => st
  end.

(** A unit with every position replaced by its image. *)
Definition map_unit {P Q} (f : P -> Q) (unit : CacheUnit P) : CacheUnit Q :=
  {| doc := doc unit; dcl := map f <$> dcl unit; def := map f <$> def unit;
     ref := map f <$> ref unit |}.

(** What the loop of [combineCache] over one kind leaves in the unit. *)
Definition append_kind {P} (t : CacheUnitPositionType) (ps : list P)
  (unit : CacheUnit P) : CacheUnit P :=
  match ps with
  | [] => unit
  | _ :: _ => unit_set t (Some (unit_positions t unit ++ ps)) unit
  end.

(** A cache with every position replaced by its image. *)
Definition map_cache {P Q} (f : P -> Q) (c : ClientCache P) : ClientCache Q :=
  map_values (map_values (map_unit f)) c.

(** A view of a container of references does not change when the store
    grows, as long as the references are live. *)
Definition stable {X C} (locs : X -> list loc) (view : Store -> X -> C) : Prop :=
  forall st added x,
    Forall (fun l => (l < length st)%nat) (locs x) ->
    view (st ++ added) x = view st x.

(** [f] clones: it only allocates, the clone refers to new objects only, and
    the clone reads as the original did. *)
Definition clones {A B C} (locsA : A -> list loc) (locsB : B -> list loc)
  (viewA : Store -> A -> C) (viewB : Store -> B -> C)
  (f : A -> Store -> B * Store) : Prop :=
  forall x st,
    (exists added, (f x st).2 = st ++ added)
    /\ Forall (fun l => (length st <= l < length (f x st).2)%nat) (locsB (f x st).1)
    /\ (Forall (fun l => (l < length st)%nat) (locsA x) ->
        viewB (f x st).2 (f x st).1 = viewA st x).

(** A call returns (it neither runs out of fuel nor meets an unmodelled
    pattern). *)
Definition returns {A} (r : Res A) : Prop :=
  match r with Ok _ _ => True | _ => False end.

#[global] Instance returns_dec {A} (r : Res A) : Decision (returns r).
Proof. destruct r; simpl; apply _. Defined.

(** The test of a filter that returned. *)
Definition accepted {A} (f : A -> Res bool) (x : A) : bool :=
  match f x with Ok true _ => true | _ => false end.

(** The view [getCacheForID] computes, for a test [pass] of positions: the
    declarations and definitions that pass, the units that keep one of them
    (with their references and documentation as they are), the categories
    that keep a unit. *)
Definition viewUnit {P} (pass : P -> bool) (unit : CacheUnit P) : CacheUnit P :=
  {| doc := doc unit; dcl := List.filter pass <$> dcl unit;
     def := List.filter pass <$> def unit; ref := ref unit |}.

Definition keepUnit {P} (unit : CacheUnit P) : option (CacheUnit P) :=
  if negb (has_length Dcl unit) && negb (has_length Def unit) then None
  else Some unit.

Definition viewCategory {P} (pass : P -> bool) (category : CacheCategory P)
  : CacheCategory P :=
  omap (fun e => (fun unit => (e.1, unit)) <$> keepUnit (viewUnit pass e.2))
       category.

Definition keepCategory {P} (category : CacheCategory P) : option (CacheCategory P) :=
  if decide (length (keys category) = 0%nat) then None else Some category.

Definition viewCache {P} (pass : P -> bool) (c : ClientCache P) : ClientCache P :=
  omap (fun e => (fun category => (e.1, category))
                   <$> keepCategory (viewCategory pass e.2)) c.

(** The positions [getCacheForID] tests. *)
Definition tested_positions {P} (c : ClientCache P) : list P :=
  e ← c; u ← e.2; unit_positions Dcl u.2 ++ unit_positions Def u.2.

(** The test of [getCacheForID] on a reference: the test on the object it
    points to, when the test returned. *)
Definition passes {IdentityNode} `{IdentityOps IdentityNode} (fuel : nat)
  (service : DatapackLanguageService IdentityNode) (forType : FileType)
  (forID : IdentityNode) (config : Config) (st : Store) (l : loc) : bool :=
  accepted (visible fuel service forType forID config) (deref st l).

(** A pattern whose regular expression is in the modelled syntax. *)
Definition supported (v : CacheVisibility) : Prop :=
  is_Some (RegExp (regex_source (pattern v))).

(** A string without syntax characters of regular expressions (and so
    without [?] and [*]). *)
Definition plain (s : string) : Prop :=
  Forall (fun c => syntax_character c = false) (chars s).

(** The patterns the default policy brings in for a document. *)
Definition default_supported {IdentityNode} `{IdentityOps IdentityNode}
  (service : DatapackLanguageService IdentityNode) (definitionUri : option string)
  (config : Config) : Prop :=
  match defaultVisibility config with
  | Structured (OneRule v) => supported v
  | Structured (Rules vs) => vs <> [] /\ Forall supported vs
  | Tier tier =>
      match getId service definitionUri with
      | Some (category, id) => Forall supported (getCacheVisibilities tier category id)
      | None => True
      end
  end.

(** ** Sample inputs *)

(** An implementation of the identity interface for the concrete instances
    below: a namespace, absent when the identity was written without one,
    and a path. *)
Record SampleIdentity := { namespace : option string; path : string }.

#[global] Instance SampleIdentity_ops : IdentityOps SampleIdentity := {|
  toString id := default "minecraft" (namespace id) +:+ ":" +:+ path id;
  getNamespace id := default "minecraft" (namespace id);
  DefaultNamespace := "minecraft"
|}.

Definition sample_id (ns p : string) : SampleIdentity :=
  {| namespace := Some ns; path := p |}.

(** A service with an empty cache that resolves no document. *)
Definition blank_service : DatapackLanguageService SampleIdentity :=
  {| cache := []; getId := fun _ => None |}.

Definition public_config : Config := {| defaultVisibility := Tier public |}.

Definition position (s e : Z) : CachePosition :=
  {| start := s; end_ := e; uri := None; visibility := None; scope := None;
     startLine := None; startChar := None; endLine := None; endChar := None |}.

(** A cache of position values: a function with a declaration and a
    reference, a function with documentation only, and an objective without
    positions. *)
Definition sample_cache : ClientCache CachePosition :=
  [ (file_type function,
      [ ("a:x", {| doc := Some "doc of x"; dcl := Some [position 0 3];
                   def := None; ref := Some [position 10 13] |});
        ("a:y", {| doc := Some "doc of y"; dcl := Some []; def := None;
                   ref := None |}) ]);
    (misc_type objective, [ ("obj", emptyUnit) ]) ].

(** A sample index mapping: a shift of every offset. *)
Definition shiftTextRange (ele : CachePosition) (delta : Z) : CachePosition :=
  {| start := start ele + delta; end_ := end_ ele + delta; uri := uri ele;
     visibility := visibility ele; scope := scope ele;
     startLine := startLine ele; startChar := startChar ele;
     endLine := endLine ele; endChar := endChar ele |}.

(** A store of three position objects, and caches of references into it: the
    base holds object 0, the override holds objects 1 and 2. *)
Definition sample_store : Store := [position 0 3; position 20 23; position 30 33].

Definition sample_base : ClientCache loc :=
  [ (file_type function,
      [ ("a:x", {| doc := Some "old"; dcl := Some [0%nat]; def := None;
                   ref := None |}) ]) ].

Definition sample_override_unit : CacheUnit loc :=
  {| doc := None; dcl := Some [1%nat]; def := None; ref := Some [2%nat] |}.

Definition sample_override : ClientCache loc :=
  [ (file_type function, [ ("a:x", sample_override_unit) ]) ].

Definition sample_addition : Addition :=
  {| addition_uri := "file:///data/a/functions/x.mcfunction";
     getPosition := fun offset => {| line := 0; character := offset |} |}.

(** A shared cache in the sense of the end-to-end example of the
    specification: the function [a:x], declared private in its own document
    and referenced once, and the function [a:y], only referenced. *)
Definition private_declaration : CachePosition :=
  {| start := 0; end_ := 3; uri := Some "file:///data/a/functions/x.mcfunction";
     visibility := Some [ {| pattern := "a:x"; type := OfType function |} ];
     scope := None; startLine := Some 0; startChar := Some 0;
     endLine := Some 0; endChar := Some 3 |}.

Definition shared_store : Store :=
  [private_declaration; position 10 13; position 30 33].

Definition shared_cache : ClientCache loc :=
  [ (file_type function,
      [ ("a:x", {| doc := Some "doc of x"; dcl := Some [0%nat]; def := None;
                   ref := Some [1%nat] |});
        ("a:y", {| doc := None; dcl := None; def := None;
                   ref := Some [2%nat] |}) ]) ].

Definition sample_service : DatapackLanguageService SampleIdentity :=
  {| cache := shared_cache;
     getId := fun _ => Some (function, sample_id "a" "x") |}.

(** ** The type registry on strings

    At run time a cache type is a string; the classification predicates
    compare it with the literals of the type declarations. *)

Definition TagFileType_name (t : TagFileType) : string :=
  match t with
  | tag_block => "tag/block"
  | tag_entity_type => "tag/entity_type"
  | tag_fluid => "tag/fluid"
  | tag_function => "tag/function"
  | tag_item => "tag/item"
  end.

Definition WorldgenFileType_name (t : WorldgenFileType) : string :=
  match t with
  | worldgen_biome => "worldgen/biome"
  | worldgen_configured_carver => "worldgen/configured_carver"
  | worldgen_configured_decorator => "worldgen/configured_decorator"
  | worldgen_configured_feature => "worldgen/configured_feature"
  | worldgen_configured_structure_feature => "worldgen/configured_structure_feature"
  | worldgen_configured_surface_builder => "worldgen/configured_surface_builder"
  | worldgen_processor_list => "worldgen/processor_list"
  | worldgen_template_pool => "worldgen/template_pool"
  end.

Definition FileType_name (t : FileType) : string :=
  match t with
  | advancement => "advancement"
  | dimension => "dimension"
  | dimension_type => "dimension_type"
  | function => "function"
  | loot_table => "loot_table"
  | predicate => "predicate"
  | recipe => "recipe"
  | tag_file t => TagFileType_name t
  | worldgen_file t => WorldgenFileType_name t
  end.

Definition AliasType_name (t : AliasType) : string :=
  match t with
  | alias_entity => "alias/entity"
  | alias_uuid => "alias/uuid"
  | alias_vector => "alias/vector"
  end.

Definition MiscType_name (t : MiscType) : string :=
  match t with
  | bossbar => "bossbar"
  | entity => "entity"
  | objective => "objective"
  | score_holder => "score_holder"
  | storage => "storage"
  | tag => "tag"
  | team => "team"
  | color => "color"
  | alias t => AliasType_name t
  end.

(** The key a cache type is in the cache object. *)
Definition CacheType_name (t : CacheType) : string :=
  match t with
  | file_type t => FileType_name t
  | misc_type t => MiscType_name t
  end.

Definition FileTypes : list string :=
  [ "advancement"; "dimension"; "dimension_type"; "function"; "loot_table";
    "predicate"; "recipe"; "tag/block"; "tag/entity_type"; "tag/fluid";
    "tag/function"; "tag/item"; "worldgen/biome"; "worldgen/configured_carver";
    "worldgen/configured_decorator"; "worldgen/configured_feature";
    "worldgen/configured_structure_feature";
    "worldgen/configured_surface_builder"; "worldgen/processor_list";
    "worldgen/template_pool" ].

Definition DeclarableCacheTypes : list string :=
  FileTypes
  ++ [ "bossbar"; "entity"; "objective"; "score_holder"; "storage"; "tag";
       "team" ].

(** [CacheUnitPositionTypes.includes(value)] on the strings of the kinds. *)
Definition isCacheUnitPositionType (value : string) : bool :=
  existsb (String.eqb value) ["dcl"; "def"; "ref"].

(** [category.slice(0, -1)] *)
Definition drop_last (s : string) : string :=
  string_of_list_ascii (removelast (chars s)).

Definition getFileTypeFromCategory (category : string) : string :=
  if String.eqb category "dimension" || String.eqb category "dimension_type"
  then category
  else drop_last category.

Definition isTagFileType (type : string) : bool :=
  String.eqb type "tag/block"
  || String.eqb type "tag/entity_type"
  || String.eqb type "tag/fluid"
  || String.eqb type "tag/function"
  || String.eqb type "tag/item".

Definition isWorldgenRegistryFileType (type : string) : bool :=
  String.eqb type "worldgen/biome"
  || String.eqb type "worldgen/configured_carver"
  || String.eqb type "worldgen/configured_decorator"
  || String.eqb type "worldgen/configured_feature"
  || String.eqb type "worldgen/configured_structure_feature"
  || String.eqb type "worldgen/configured_surface_builder"
  || String.eqb type "worldgen/processor_list"
  || String.eqb type "worldgen/template_pool".

Definition isFileType (type : string) : bool :=
  String.eqb type "advancement"
  || String.eqb type "dimension"
  || String.eqb type "dimension_type"
  || String.eqb type "function"
  || String.eqb type "loot_table"
  || String.eqb type "predicate"
  || String.eqb type "recipe"
  || isTagFileType type
  || isWorldgenRegistryFileType type.

Definition isAliasType (type : string) : bool :=
  String.eqb type "alias/entity"
  || String.eqb type "alias/uuid"
  || String.eqb type "alias/vector".

Definition isMiscType (type : string) : bool :=
  String.eqb type "bossbar"
  || String.eqb type "entity"
  || String.eqb type "objective"
  || String.eqb type "score_holder"
  || String.eqb type "storage"
  || String.eqb type "tag"
  || String.eqb type "team"
  || String.eqb type "color"
  || isAliasType type.

Definition isInternalType (type : string) : bool :=
  isAliasType type || String.eqb type "color".

Definition isCacheType (value : string) : bool :=
  isFileType value || isMiscType value.

Definition isNamespacedType (type : string) : bool :=
  String.eqb type "bossbar" || String.eqb type "storage" || isFileType type.

(** ** More cache operations *)

(** [ele => ele.uri !== uri.toString()]: [uri_] is [uri.toString()]; a
    position without document differs from every document. *)
Definition other_document (uri_ : string) (ele : CachePosition) : bool :=
  negb (bool_decide (uri ele = Some uri_)).

(** The loop of [removeCachePosition] over the kinds of one unit. *)
Definition removeUnitPosition (uri_ : string) (unit : CacheUnit CachePosition)
  : CacheUnit CachePosition :=
  fold_left (fun unit t =>
    match unit_get t unit with
    | Some arr => unit_set t (Some (List.filter (other_document uri_) arr)) unit
    | None => unit
    end) CacheUnitPositionTypes unit.

Definition removeCachePosition (cache : ClientCache CachePosition) (uri_ : string)
  : ClientCache CachePosition :=
  forKeys (fun type category =>
    Some (forKeys (fun id unit => Some (removeUnitPosition uri_ unit))
            (keys category) category))
    (keys cache) cache.

(** [delete category[id]] on the category of the cache; when the cache has no
    such category, the deletion is made on a new object that is dropped. *)
Definition removeCacheUnit {P} (cache : ClientCache P) (type : CacheType) (id : string)
  : ClientCache P :=
  match get type cache with
  | Some category => replace_key type (delete_key id category) cache
  | None => cache
  end.

(** [setUpUnit]: the cache as the call leaves it (a new one when the argument
    is [undefined]), and the unit returned. *)
Definition setUpUnit {P IdentityNode} `{IdentityOps IdentityNode}
  (cache : option (ClientCache P)) (type : CacheType) (id : IdentityNode)
  (defaultValue : CacheUnit P) : ClientCache P * CacheUnit P :=
  let stringID := toString id in
  let cache := default [] cache in
  let category := default [] (get type cache) in
  let unit := default defaultValue (get stringID category) in
  (put type (put stringID unit category) cache, unit).

(** [ParserSuggestion] as [getCompletions] fills it; [documentation] is the
    value of the markdown content. *)
Record ParserSuggestion := {
  label : string;
  suggestion_start : Z;
  suggestion_end : Z;
  documentation : option string
}.

Definition getCompletions {P} (cache : ClientCache P) (type : CacheType)
  (start_ end__ : Z) : list ParserSuggestion :=
  map (fun '(id, unit) =>
         {| label := id; suggestion_start := start_; suggestion_end := end__;
            documentation := if has_doc unit then doc unit else None |})
      (entries (getSafeCategory (Some cache) type)).

(** ** More reference definitions *)

Definition all_cache_types : list CacheType :=
  map file_type
    ([advancement; dimension; dimension_type; function; loot_table; predicate;
      recipe]
     ++ map tag_file [tag_block; tag_entity_type; tag_fluid; tag_function; tag_item]
     ++ map worldgen_file
          [worldgen_biome; worldgen_configured_carver;
           worldgen_configured_decorator; worldgen_configured_feature;
           worldgen_configured_structure_feature;
           worldgen_configured_surface_builder; worldgen_processor_list;
           worldgen_template_pool])
  ++ map misc_type
       ([bossbar; entity; objective; score_holder; storage; tag; team; color]
        ++ map alias [alias_entity; alias_uuid; alias_vector]).

(** The string has no line terminator. *)
Definition single_line (s : string) : bool :=
  forallb (fun c => negb (line_terminator c)) (chars s).

(** The string is [namespace], a colon, and a rest without line
    terminator. *)
Definition in_namespace (namespace_ : string) (s : string) : bool :=
  starts_with (chars namespace_ ++ [":"%char]) (chars s)
  && forallb (fun c => negb (line_terminator c))
       (drop (length (chars namespace_) + 1) (chars s)).

(** The unit [combineCache] leaves in the base for a unit of the override
    that takes part: the positions of each kind appended, the documentation
    replaced when the override has one. *)
Definition mergedUnit {P} (overrideUnit ansUnit : CacheUnit P) : CacheUnit P :=
  let unit :=
    append_kind Ref (unit_positions Ref overrideUnit)
      (append_kind Def (unit_positions Def overrideUnit)
         (append_kind Dcl (unit_positions Dcl overrideUnit) ansUnit)) in
  if has_doc overrideUnit
  then {| doc := doc overrideUnit; dcl := dcl unit; def := def unit; ref := ref unit |}
  else unit.

(** What the merge of one unit of the override leaves under an identifier. *)
Definition merge_into {P} (overrideUnit : option (CacheUnit P))
  (baseUnit : option (CacheUnit P)) : option (CacheUnit P) :=
  match overrideUnit with
  | Some overrideUnit =>
      if participates overrideUnit
      then Some (mergedUnit overrideUnit (default emptyUnit baseUnit))
      else baseUnit
  | None => baseUnit
  end.

(** A unit has a declaration or a definition that passes a test. *)
Definition offers {P} (pass : P -> bool) (unit : CacheUnit P) : bool :=
  existsb pass (unit_positions Dcl unit) || existsb pass (unit_positions Def unit).

(** The suggestion [getCompletions] makes for one unit. *)
Definition suggest {P} (start_ end__ : Z) (e : string * CacheUnit P)
  : ParserSuggestion :=
  {| label := e.1; suggestion_start := start_; suggestion_end := end__;
     documentation := if has_doc e.2 then doc e.2 else None |}.

(** A cache of position values from two documents: [a:x] is declared in the
    first and referenced from both, [a:y] is declared and referenced in the
    second only. *)
Definition position_in (document : string) (s e : Z) : CachePosition :=
  {| start := s; end_ := e; uri := Some document; visibility := None;
     scope := None; startLine := None; startChar := None; endLine := None;
     endChar := None |}.

Definition documents_cache : ClientCache CachePosition :=
  [ (file_type function,
      [ ("a:x", {| doc := Some "doc of x";
                   dcl := Some [position_in "file:///x" 0 3]; def := None;
                   ref := Some [position_in "file:///x" 10 13;
                                position_in "file:///y" 5 8] |});
        ("a:y", {| doc := None; dcl := Some [position_in "file:///y" 0 3];
                   def := None; ref := Some [position_in "file:///y" 20 23] |}) ]) ].

(** A cache of references with one function, and an identity that is not in
    it. *)
Definition small_cache : ClientCache loc :=
  [ (file_type function,
      [ ("a:x", {| doc := Some "doc of x"; dcl := Some [0%nat]; def := None;
                   ref := None |}) ]) ].

(** An override with a unit that has positions, a unit that has nothing, and
    a unit that has documentation only. *)
Definition mixed_override : ClientCache loc :=
  [ (file_type function,
      [ ("a:x", sample_override_unit);
        ("a:y", emptyUnit);
        ("a:z", {| doc := Some "new"; dcl := None; def := None; ref := None |}) ]) ].

(** An override in which no unit has a position or documentation: empty
    sequences and an empty documentation string do not count. *)
Definition idle_override : ClientCache loc :=
  [ (file_type function,
      [ ("a:x", emptyUnit);
        ("a:y", {| doc := Some EmptyString; dcl := Some []; def := None;
                   ref := Some [] |}) ]);
    (misc_type objective, []) ].

(** ** Property reads that reach [Object.prototype]

    A category is a plain object, so a read [category[id]] of a key the
    category does not own finds the member of [Object.prototype] of that
    name, if there is one.  [initUnit] above reads own keys; this section
    models the read of [combineCache.initUnit] in full.  The members are
    the host's: eleven functions, and the accessor [__proto__], whose read
    gives [Object.prototype] itself. *)
Definition Object_prototype_functions : list string :=
  [ "constructor"; "__defineGetter__"; "__defineSetter__"; "hasOwnProperty";
    "__lookupGetter__"; "__lookupSetter__"; "isPrototypeOf";
    "propertyIsEnumerable"; "toString"; "valueOf"; "toLocaleString" ].

(** [id in {}]: the name of a member every plain object inherits. *)
Definition inherited (id : string) : bool :=
  bool_decide (id ∈ Object_prototype_functions) || String.eqb id "__proto__".

(** A loop of a body that may leave the model. *)
Fixpoint foldRes {A S} (body : S -> A -> Res S) (l : list A) (s : S) : Res S :=
  match l with
  | [] => mret s
  | x :: l' => s' ← body s x; foldRes body l' s'
  end.

Module Host.

(** What a category holds under an identifier: a unit object of its own, or
    one of the functions of the host, which every category that reads the
    name shares. *)
Inductive Slot :=
  | Plain (unit : CacheUnit loc)
  | Member (name : string).

Abbreviation Category := (Obj string Slot).
Abbreviation Cache := (Obj CacheType Category).

(** The properties [doc], [dcl], [def] and [ref] that merges have put on the
    functions of the host, under the name of the member; a function has none
    of them until a merge writes one. *)
Abbreviation Functions := (Obj string (CacheUnit loc)).

(** The unit a slot reads as. *)
Definition read (host : Functions) (slot : Slot) : CacheUnit loc :=
  match slot with
  | Plain unit => unit
  | Member name => default emptyUnit (get name host)
  end.

(** [cache[type]?.[id]] *)
Definition unit_of (host : Functions) (c : Cache) (type : CacheType) (id : string)
  : option (CacheUnit loc) :=
  read host <$> (get type c ≫= get id).

Definition positions_at (host : Functions) (c : Cache) (type : CacheType)
  (id : string) (t : CacheUnitPositionType) : list loc :=
  unit_positions t (default emptyUnit (unit_of host c type id)).

(** A cache of unit objects of its own. *)
Definition plain (c : ClientCache loc) : Cache :=
  map_values (map_values Plain) c.

(** [ansCategory[id] = ansCategory[id] || {}]: an own unit is kept; a name
    of a function of the host reads that function, which is truthy, and the
    assignment makes it an own key of the category; [__proto__] reads
    [Object.prototype], and what the merge then writes on it is inherited by
    every object, which the model does not follow. *)
Definition initUnit (ans : Cache) (type : CacheType) (id : string)
  : Res (Cache * Slot) :=
  let ansCategory := default [] (get type ans) in
  match get id ansCategory with
  | Some slot => mret (put type (put id slot ansCategory) ans, slot)
  | None =>
      if bool_decide (id ∈ Object_prototype_functions)
      then mret (put type (put id (Member id) ansCategory) ans, Member id)
      else if String.eqb id "__proto__" then Unmodelled
      else mret (put type (put id (Plain emptyUnit) ansCategory) ans,
                 Plain emptyUnit)
  end.

(** The body of the loops of [combineCache] for one unit of the override:
    the positions and the documentation go to the object [initUnit] gave,
    the unit under the identifier or the function of the host. *)
Definition combineUnit (addition : option Addition) (type : CacheType) (id : string)
  (overrideUnit : CacheUnit loc) (s : Cache * Store * Functions)
  : Res (Cache * Store * Functions) :=
  let '(ans, st, host) := s in
  if participates overrideUnit then
    r ← initUnit ans type id;
    let '(ans, slot) := r in
    let '(ansUnit, st) := mergeUnit addition overrideUnit (read host slot) st in
    mret (match slot with
          | Plain _ =>
              (put type (put id (Plain ansUnit) (default [] (get type ans))) ans,
               st, host)
          | Member name => (ans, st, put name ansUnit host)
          end)
  else mret s.

Definition combineCache (host : Functions) (base : Cache)
  (override : ClientCache loc) (addition : option Addition) (st : Store)
  : Res (Cache * Store * Functions) :=
  foldRes (fun s '(type, overrideCategory) =>
    foldRes (fun s '(id, overrideUnit) =>
      combineUnit addition type id overrideUnit s)
      (entries overrideCategory) s)
    (entries override) (base, st, host).

End Host.

(** The merges on which [initUnit] reads own keys only: every unit of the
    override that takes part has an identifier that is no name of a member
    of [Object.prototype], or that the base has a unit for. *)
Definition safe_merge (base override : ClientCache loc) : Prop :=
  Forall (fun e =>
    Forall (fun u =>
      participates u.2 = true ->
      inherited u.1 = false \/ is_Some (unit_of base e.1 u.1)) e.2) override.

#[global] Instance safe_merge_dec base override : Decision (safe_merge base override).
Proof. unfold safe_merge. apply _. Defined.

(** Two objectives of a datapack may be named [constructor]: an override
    with a declaration under that name in two categories, over the store
    [sample_store]. *)
Definition constructor_override : ClientCache loc :=
  [ (misc_type objective,
      [ ("constructor", {| doc := None; dcl := Some [1%nat]; def := None;
                           ref := None |}) ]);
    (misc_type team,
      [ ("constructor", {| doc := None; dcl := Some [2%nat]; def := None;
                           ref := None |}) ]) ].

Definition constructor_first : ClientCache loc :=
  [ (misc_type objective,
      [ ("constructor", {| doc := Some "first"; dcl := Some [1%nat]; def := None;
                           ref := None |}) ]) ].

Definition constructor_second : ClientCache loc :=
  [ (misc_type objective,
      [ ("constructor", {| doc := None; dcl := Some [2%nat]; def := None;
                           ref := None |}) ]) ].

(** ** The cache as a graph of objects

    For the frame of [getCacheForID] every object counts: the cache object,
    its categories, their units, the arrays of positions, the positions, and
    the arrays of rules, the rules and the scopes inside them.  [Heap] holds
    the objects by kind; a reference is an index into the objects of its
    kind, and the values above are what such a graph reads as. *)
Module Heap.

Inductive Sort :=
  | Caches | Categories | Units | Arrays | Positions | RuleArrays | RuleObjects
  | Scopes.

#[global] Instance Sort_eq_dec : EqDecision Sort.
Proof. solve_decision. Defined.

(** An object is named by its kind and its index. *)
Abbreviation Addr := (Sort * nat)%type.

(** A unit object: the documentation string and the references of its
    arrays. *)
Record UnitObject := {
  unit_doc : option string;
  unit_dcl : option nat;
  unit_def : option nat;
  unit_ref : option nat
}.

(** A position object: its numbers and its address, and the references of
    its array of rules and of its scope. *)
Record PositionObject := {
  position_start : Z;
  position_end : Z;
  position_uri : option string;
  position_visibility : option nat;
  position_scope : option nat;
  position_startLine : option Z;
  position_startChar : option Z;
  position_endLine : option Z;
  position_endChar : option Z
}.

#[global] Instance UnitObject_inhabited : Inhabited UnitObject :=
  populate {| unit_doc := None; unit_dcl := None; unit_def := None;
              unit_ref := None |}.

#[global] Instance PositionObject_inhabited : Inhabited PositionObject :=
  populate {| position_start := 0; position_end := 0; position_uri := None;
              position_visibility := None; position_scope := None;
              position_startLine := None; position_startChar := None;
              position_endLine := None; position_endChar := None |}.

#[global] Instance CacheVisibility_inhabited : Inhabited CacheVisibility :=
  populate {| pattern := EmptyString; type := AnyType |}.

#[global] Instance TextRange_inhabited : Inhabited TextRange :=
  populate {| range_start := 0; range_end := 0 |}.

Record Heap := {
  caches : list (Obj CacheType nat);
  categories : list (Obj string nat);
  units : list UnitObject;
  arrays : list (list nat);
  positions : list PositionObject;
  rule_arrays : list (list nat);
  rules : list CacheVisibility;
  scopes : list TextRange
}.

Definition empty : Heap :=
  {| caches := []; categories := []; units := []; arrays := []; positions := [];
     rule_arrays := []; rules := []; scopes := [] |}.

Definition with_caches (l : list (Obj CacheType nat)) (hp : Heap) : Heap :=
  {| caches := l; categories := categories hp; units := units hp;
     arrays := arrays hp; positions := positions hp;
     rule_arrays := rule_arrays hp; rules := rules hp; scopes := scopes hp |}.

Definition with_categories (l : list (Obj string nat)) (hp : Heap) : Heap :=
  {| caches := caches hp; categories := l; units := units hp;
     arrays := arrays hp; positions := positions hp;
     rule_arrays := rule_arrays hp; rules := rules hp; scopes := scopes hp |}.

Definition with_units (l : list UnitObject) (hp : Heap) : Heap :=
  {| caches := caches hp; categories := categories hp; units := l;
     arrays := arrays hp; positions := positions hp;
     rule_arrays := rule_arrays hp; rules := rules hp; scopes := scopes hp |}.

Definition with_arrays (l : list (list nat)) (hp : Heap) : Heap :=
  {| caches := caches hp; categories := categories hp; units := units hp;
     arrays := l; positions := positions hp;
     rule_arrays := rule_arrays hp; rules := rules hp; scopes := scopes hp |}.

Definition with_positions (l : list PositionObject) (hp : Heap) : Heap :=
  {| caches := caches hp; categories := categories hp; units := units hp;
     arrays := arrays hp; positions := l;
     rule_arrays := rule_arrays hp; rules := rules hp; scopes := scopes hp |}.

Definition with_rule_arrays (l : list (list nat)) (hp : Heap) : Heap :=
  {| caches := caches hp; categories := categories hp; units := units hp;
     arrays := arrays hp; positions := positions hp;
     rule_arrays := l; rules := rules hp; scopes := scopes hp |}.

Definition with_rules (l : list CacheVisibility) (hp : Heap) : Heap :=
  {| caches := caches hp; categories := categories hp; units := units hp;
     arrays := arrays hp; positions := positions hp;
     rule_arrays := rule_arrays hp; rules := l; scopes := scopes hp |}.

Definition with_scopes (l : list TextRange) (hp : Heap) : Heap :=
  {| caches := caches hp; categories := categories hp; units := units hp;
     arrays := arrays hp; positions := positions hp;
     rule_arrays := rule_arrays hp; rules := rules hp; scopes := l |}.

(** The content of an object of any kind. *)
Inductive Object :=
  | CacheObject (o : Obj CacheType nat)
  | CategoryObject (o : Obj string nat)
  | UnitContent (o : UnitObject)
  | ArrayObject (l : list nat)
  | PositionContent (o : PositionObject)
  | RuleArrayObject (l : list nat)
  | RuleObject (v : CacheVisibility)
  | ScopeObject (r : TextRange).

(** The number of objects of a kind. *)
Definition size (s : Sort) (hp : Heap) : nat :=
  match s with
  | Caches => length (caches hp)
  | Categories => length (categories hp)
  | Units => length (units hp)
  | Arrays => length (arrays hp)
  | Positions => length (positions hp)
  | RuleArrays => length (rule_arrays hp)
  | RuleObjects => length (rules hp)
  | Scopes => length (scopes hp)
  end.

(** The object at an address, if there is one. *)
Definition object_at (hp : Heap) (a : Addr) : option Object :=
  match a.1 with
  | Caches => CacheObject <$> caches hp !! a.2
  | Categories => CategoryObject <$> categories hp !! a.2
  | Units => UnitContent <$> units hp !! a.2
  | Arrays => ArrayObject <$> arrays hp !! a.2
  | Positions => PositionContent <$> positions hp !! a.2
  | RuleArrays => RuleArrayObject <$> rule_arrays hp !! a.2
  | RuleObjects => RuleObject <$> rules hp !! a.2
  | Scopes => ScopeObject <$> scopes hp !! a.2
  end.

(** *** What a graph reads as *)

Definition decode_rules (hp : Heap) (r : nat) : list CacheVisibility :=
  map (fun v => rules hp !!! v) (rule_arrays hp !!! r).

Definition decode_position (hp : Heap) (p : nat) : CachePosition :=
  let o := positions hp !!! p in
  {| start := position_start o; end_ := position_end o; uri := position_uri o;
     visibility := decode_rules hp <$> position_visibility o;
     scope := (fun s => scopes hp !!! s) <$> position_scope o;
     startLine := position_startLine o; startChar := position_startChar o;
     endLine := position_endLine o; endChar := position_endChar o |}.

Definition decode_array (hp : Heap) (a : nat) : list CachePosition :=
  map (decode_position hp) (arrays hp !!! a).

Definition decode_unit (hp : Heap) (u : nat) : CacheUnit CachePosition :=
  let o := units hp !!! u in
  {| doc := unit_doc o;
     dcl := decode_array hp <$> unit_dcl o;
     def := decode_array hp <$> unit_def o;
     ref := decode_array hp <$> unit_ref o |}.

Definition decode_category (hp : Heap) (c : nat) : CacheCategory CachePosition :=
  map_values (decode_unit hp) (categories hp !!! c).

Definition decode_cache (hp : Heap) (r : nat) : ClientCache CachePosition :=
  map_values (decode_category hp) (caches hp !!! r).

(** *** The objects of a graph *)

Definition reach_rules (hp : Heap) (r : nat) : list Addr :=
  (RuleArrays, r) :: map (pair RuleObjects) (rule_arrays hp !!! r).

Definition reach_position (hp : Heap) (p : nat) : list Addr :=
  let o := positions hp !!! p in
  (Positions, p)
  :: (option_list (position_visibility o) ≫= reach_rules hp)
  ++ map (pair Scopes) (option_list (position_scope o)).

Definition reach_array (hp : Heap) (a : nat) : list Addr :=
  (Arrays, a) :: (arrays hp !!! a ≫= reach_position hp).

Definition unit_arrays (o : UnitObject) : list nat :=
  option_list (unit_dcl o) ++ option_list (unit_def o) ++ option_list (unit_ref o).

Definition reach_unit (hp : Heap) (u : nat) : list Addr :=
  (Units, u) :: (unit_arrays (units hp !!! u) ≫= reach_array hp).

Definition reach_category (hp : Heap) (c : nat) : list Addr :=
  (Categories, c) :: ((categories hp !!! c).*2 ≫= reach_unit hp).

(** Every object of the cache at [r]: the cache object and all it leads
    to. *)
Definition reach_cache (hp : Heap) (r : nat) : list Addr :=
  (Caches, r) :: ((caches hp !!! r).*2 ≫= reach_category hp).

(** An address of the heap. *)
Definition live (hp : Heap) (a : Addr) : Prop := (a.2 < size a.1 hp)%nat.

(** *** [rfdc]

    The package makes a new object for every object of what it is given, so
    the copy is built from what the cache reads as.  Each [alloc] adds the
    objects of one value and returns the reference of its root. *)

Fixpoint allocs {A} (alloc : A -> Heap -> nat * Heap) (l : list A) (hp : Heap)
  : list nat * Heap :=
  match l with
  | [] => ([], hp)
  | x :: l' =>
      let '(r, hp) := alloc x hp in
      let '(rs, hp) := allocs alloc l' hp in
      (r :: rs, hp)
  end.

Definition alloc_option {A} (alloc : A -> Heap -> nat * Heap) (o : option A)
  (hp : Heap) : option nat * Heap :=
  match o with
  | Some x => let '(r, hp) := alloc x hp in (Some r, hp)
  | None => (None, hp)
  end.

Definition alloc_rule (v : CacheVisibility) (hp : Heap) : nat * Heap :=
  (length (rules hp), with_rules (rules hp ++ [v]) hp).

Definition alloc_rules (vs : list CacheVisibility) (hp : Heap) : nat * Heap :=
  let '(rs, hp) := allocs alloc_rule vs hp in
  (length (rule_arrays hp), with_rule_arrays (rule_arrays hp ++ [rs]) hp).

Definition alloc_scope (r : TextRange) (hp : Heap) : nat * Heap :=
  (length (scopes hp), with_scopes (scopes hp ++ [r]) hp).

Definition alloc_position (p : CachePosition) (hp : Heap) : nat * Heap :=
  let '(v, hp) := alloc_option alloc_rules (visibility p) hp in
  let '(s, hp) := alloc_option alloc_scope (scope p) hp in
  (length (positions hp),
   with_positions
     (positions hp
      ++ [ {| position_start := start p; position_end := end_ p;
              position_uri := uri p; position_visibility := v;
              position_scope := s; position_startLine := startLine p;
              position_startChar := startChar p;
              position_endLine := endLine p; position_endChar := endChar p |} ])
     hp).

Definition alloc_array (ps : list CachePosition) (hp : Heap) : nat * Heap :=
  let '(l, hp) := allocs alloc_position ps hp in
  (length (arrays hp), with_arrays (arrays hp ++ [l]) hp).

Definition alloc_unit (unit : CacheUnit CachePosition) (hp : Heap) : nat * Heap :=
  let '(d, hp) := alloc_option alloc_array (dcl unit) hp in
  let '(f, hp) := alloc_option alloc_array (def unit) hp in
  let '(r, hp) := alloc_option alloc_array (ref unit) hp in
  (length (units hp),
   with_units
     (units hp
      ++ [ {| unit_doc := doc unit; unit_dcl := d; unit_def := f; unit_ref := r |} ])
     hp).

Definition alloc_category (category : CacheCategory CachePosition) (hp : Heap)
  : nat * Heap :=
  let '(us, hp) := allocs alloc_unit category.*2 hp in
  (length (categories hp),
   with_categories (categories hp ++ [zip category.*1 us]) hp).

Definition alloc_cache (c : ClientCache CachePosition) (hp : Heap) : nat * Heap :=
  let '(cs, hp) := allocs alloc_category c.*2 hp in
  (length (caches hp), with_caches (caches hp ++ [zip c.*1 cs]) hp).

Definition rfdc (root : nat) (hp : Heap) : nat * Heap :=
  alloc_cache (decode_cache hp root) hp.

(** *** [getCacheForID] *)

Definition unit_get (t : CacheUnitPositionType) (unit : UnitObject) : option nat :=
  match t with
  | Dcl => unit_dcl unit
  | Def => unit_def unit
  | Ref => unit_ref unit
  end.

Definition unit_set (t : CacheUnitPositionType) (v : option nat) (unit : UnitObject)
  : UnitObject :=
  match t with
  | Dcl => {| unit_doc := unit_doc unit; unit_dcl := v; unit_def := unit_def unit;
              unit_ref := unit_ref unit |}
  | Def => {| unit_doc := unit_doc unit; unit_dcl := unit_dcl unit; unit_def := v;
              unit_ref := unit_ref unit |}
  | Ref => {| unit_doc := unit_doc unit; unit_dcl := unit_dcl unit;
              unit_def := unit_def unit; unit_ref := v |}
  end.

(** [unit[t]?.length] as a condition *)
Definition has_length (hp : Heap) (t : CacheUnitPositionType) (unit : UnitObject)
  : bool :=
  match unit_get t unit with
  | Some a => match arrays hp !!! a with _ :: _ => true | [] => false end
  | None => false
  end.

Section Query.
Context {IdentityNode : Type} `{IdentityOps IdentityNode}.
Variable fuel : nat.
Variable service : DatapackLanguageService IdentityNode.
Variable forType : FileType.
Variable forID : IdentityNode.
Variable config : Config.

(** [unit[t] = unit[t]?.filter(p => testID(...))] on the unit object [u]:
    [filter] makes a new array, and the assignment writes the unit.  A unit
    without the array is assigned [undefined], and reads as before. *)
Definition trimPositions (u : nat) (t : CacheUnitPositionType) (hp : Heap)
  : Res Heap :=
  let unit := units hp !!! u in
  match unit_get t unit with
  | Some arr =>
      arr' ← filterRes
                (fun p => visible fuel service forType forID config
                            (decode_position hp p))
                (arrays hp !!! arr);
      mret (with_units
              (<[u := unit_set t (Some (length (arrays hp))) unit]> (units hp))
              (with_arrays (arrays hp ++ [arr']) hp))
  | None => mret hp
  end.

(** The loop over the identifiers of the category object [c]. *)
Fixpoint trimUnits (c : nat) (ids : list string) (hp : Heap) : Res Heap :=
  match ids with
  | [] => mret hp
  | id :: ids' =>
      match get id (categories hp !!! c) with
      | Some u =>
          hp ← trimPositions u Dcl hp;
          hp ← trimPositions u Def hp;
          let unit := units hp !!! u in
          trimUnits c ids'
            (if negb (has_length hp Dcl unit) && negb (has_length hp Def unit)
             then with_categories
                    (<[c := delete_key id (categories hp !!! c)]> (categories hp))
                    hp
             else hp)
      | None => trimUnits c ids' hp
      end
  end.

(** The loop over the types of the cache object [ans]. *)
Fixpoint trimCategories (ans : nat) (types : list CacheType) (hp : Heap) : Res Heap :=
  match types with
  | [] => mret hp
  | type :: types' =>
      match get type (caches hp !!! ans) with
      | Some c =>
          hp ← trimUnits c (keys (categories hp !!! c)) hp;
          trimCategories ans types'
            (if decide (length (keys (categories hp !!! c)) = 0%nat)
             then with_caches
                    (<[ans := delete_key type (caches hp !!! ans)]> (caches hp))
                    hp
             else hp)
      | None => trimCategories ans types' hp
      end
  end.

(** [root] is the cache object [service.cacheFile.cache]. *)
Definition getCacheForID (root : nat) (hp : Heap) : Res (nat * Heap) :=
  let '(ans, hp) := rfdc root hp in
  hp ← trimCategories ans (keys (caches hp !!! ans)) hp;
  mret (ans, hp).
End Query.

End Heap.

(** The shared cache of [sample_service] as a graph of objects. *)
Definition shared_heap : nat * Heap.Heap :=
  Heap.alloc_cache (deref_cache shared_store shared_cache) Heap.empty.

(** *** Frames

    What the proofs about the heap are stated with. *)

(** Two heaps hold the same objects at the addresses [F]. *)
Definition agree (F : list Heap.Addr) (hp hp' : Heap.Heap) : Prop :=
  forall a, a ∈ F -> Heap.object_at hp' a = Heap.object_at hp a.

(** What a graph reads as, and its objects, depend on its objects only. *)
Definition framed {A} (decode : Heap.Heap -> nat -> A)
  (reach : Heap.Heap -> nat -> list Heap.Addr) : Prop :=
  forall hp hp' r,
    agree (reach hp r) hp hp' ->
    reach hp' r = reach hp r /\ decode hp' r = decode hp r.

(** [hp'] has every object of [hp], as it is. *)
Definition extends (hp hp' : Heap.Heap) : Prop :=
  (forall s, (Heap.size s hp <= Heap.size s hp')%nat)
  /\ forall a, Heap.live hp a -> Heap.object_at hp' a = Heap.object_at hp a.

(** The objects [F] of [hp'] are not objects of [hp]. *)
Definition created (hp hp' : Heap.Heap) (F : list Heap.Addr) : Prop :=
  Forall (fun a => (Heap.size a.1 hp <= a.2 < Heap.size a.1 hp')%nat) F.

(** [alloc] makes new objects for a value: the objects that existed stay,
    the graph it returns is made of new objects, each once, and reads as
    the value. *)
Definition allocates {A} (alloc : A -> Heap.Heap -> nat * Heap.Heap)
  (decode : Heap.Heap -> nat -> A) (reach : Heap.Heap -> nat -> list Heap.Addr)
  : Prop :=
  forall v hp,
    extends hp (alloc v hp).2
    /\ created hp (alloc v hp).2 (reach (alloc v hp).2 (alloc v hp).1)
    /\ NoDup (reach (alloc v hp).2 (alloc v hp).1)
    /\ decode (alloc v hp).2 (alloc v hp).1 = v.

(** [hp'] has every object of [hp], as it is but for the objects [W]. *)
Definition changes (W : list Heap.Addr) (hp hp' : Heap.Heap) : Prop :=
  (forall s, (Heap.size s hp <= Heap.size s hp')%nat)
  /\ forall b, Heap.live hp b -> b ∉ W -> Heap.object_at hp' b = Heap.object_at hp b.

(** An array made between [hp] and [hp']. *)
Definition new_array (hp hp' : Heap.Heap) (x : Heap.Addr) : Prop :=
  x.1 = Heap.Arrays
  /\ (length (Heap.arrays hp) <= x.2 < length (Heap.arrays hp'))%nat.

(** The kinds of the objects under an array of positions. *)
Definition below_arrays (s : Heap.Sort) : Prop :=
  s = Heap.Positions \/ s = Heap.RuleArrays \/ s = Heap.RuleObjects
  \/ s = Heap.Scopes.

(** The objects one pass over the category [c] may write. *)
Definition category_writes (hp : Heap.Heap) (c : nat) : list Heap.Addr :=
  (Heap.Categories, c) :: map (pair Heap.Units) (Heap.categories hp !!! c).*2.

(** * Proofs *)

(** A closed, decidable side condition, by evaluation. *)
Ltac by_evaluation := by apply (bool_decide_unpack _).

(** ** Objects *)

Lemma omap_ext_Forall {A B} (f g : A -> option B) (l : list A) :
  Forall (fun x => f x = g x) l -> omap f l = omap g l.
Proof.
  induction 1 as [|x l Hx _ IH]; csimpl; [done |]. by rewrite Hx, IH.
Qed.

Section ObjFacts.
Context {K V : Type} `{EqDecision K} `{PropertyKey K}.
Implicit Types (o d : Obj K V) (k : K) (v : V).

Lemma keys_app d o : keys (d ++ o) = keys d ++ keys o.
Proof. apply map_app. Qed.

Lemma elem_of_keys k o : k ∈ keys o <-> exists v, (k, v) ∈ o.
Proof.
  unfold keys. rewrite list_elem_of_In, in_map_iff. split.
  - intros [[k' v] [Hk Hin]]. simpl in Hk. subst. exists v.
    by apply list_elem_of_In.
  - intros [v Hin]. exists (k, v). split; [done | by apply list_elem_of_In].
Qed.

Lemma get_None k o : get k o = None <-> k ∉ keys o.
Proof.
  induction o as [|[k' v'] o IH]; simpl.
  - split; [intros _; apply not_elem_of_nil | done].
  - rewrite not_elem_of_cons. destruct (decide (k' = k)) as [->|Hne].
    + split; [done | intros [? _]; done].
    + rewrite IH. split; [by intros ?; split | by intros [_ ?]].
Qed.

Lemma get_Some_elem k v o : get k o = Some v -> (k, v) ∈ o.
Proof.
  induction o as [|[k' v'] o IH]; simpl; [done |].
  destruct (decide (k' = k)) as [->|Hne].
  - intros [= ->]. apply list_elem_of_here.
  - intros Hg. apply list_elem_of_further. auto.
Qed.

Lemma get_elem_NoDup k v o : NoDup (keys o) -> (k, v) ∈ o -> get k o = Some v.
Proof.
  induction o as [|[k' v'] o IH]; simpl; intros Hnd Hin.
  - by apply elem_of_nil in Hin.
  - apply NoDup_cons in Hnd as [Hk' Hnd].
    apply elem_of_cons in Hin as [[= <- <-]|Hin].
    + by rewrite decide_True.
    + rewrite decide_False; [auto |].
      intros ->. apply Hk'. apply elem_of_keys. eauto.
Qed.

Lemma get_app_notin k d o : k ∉ keys d -> get k (d ++ o) = get k o.
Proof.
  induction d as [|[k' v'] d IH]; simpl; [done |].
  rewrite not_elem_of_cons. intros [Hne Hd].
  rewrite decide_False by done. auto.
Qed.

Lemma replace_key_app_notin k v d o :
  k ∉ keys d -> replace_key k v (d ++ o) = d ++ replace_key k v o.
Proof.
  induction d as [|[k' v'] d IH]; simpl; [done |].
  rewrite not_elem_of_cons. intros [Hne Hd].
  rewrite decide_False by done. f_equal. auto.
Qed.

Lemma delete_key_notin k o : k ∉ keys o -> delete_key k o = o.
Proof.
  induction o as [|[k' v'] o IH]; simpl; [done |].
  rewrite not_elem_of_cons. intros [Hne Ho].
  rewrite decide_False by done. f_equal. auto.
Qed.

Lemma delete_key_app k d o :
  delete_key k (d ++ o) = delete_key k d ++ delete_key k o.
Proof.
  induction d as [|[k' v'] d IH]; simpl; [done |].
  destruct (decide (k' = k)); simpl; by rewrite IH.
Qed.

Lemma keys_replace_key k v o : keys (replace_key k v o) = keys o.
Proof.
  induction o as [|[k' v'] o IH]; simpl; [done |].
  destruct (decide (k' = k)) as [->|]; simpl; [done | by rewrite IH].
Qed.

Lemma get_replace_key k k' v o :
  get k' (replace_key k v o) =
  if decide (k = k') then (fun _ => v) <$> get k o else get k' o.
Proof.
  induction o as [|[k0 v0] o IH]; simpl.
  - by destruct (decide (k = k')).
  - destruct (decide (k0 = k)) as [->|Hne]; simpl.
    + destruct (decide (k = k')); [done |]. done.
    + destruct (decide (k0 = k')) as [->|Hne'].
      * by rewrite decide_False.
      * rewrite IH. done.
Qed.

Lemma get_insert_index n k k' v o :
  get k o = None ->
  get k' (insert_index n k v o) = if decide (k = k') then Some v else get k' o.
Proof.
  induction o as [|[k0 v0] o IH]; simpl.
  - intros _. by destruct (decide (k = k')).
  - destruct (decide (k0 = k)) as [->|Hne]; [done |]. intros Hg.
    destruct (array_index k0) as [n'|]; [destruct (n' <? n)%N|]; simpl;
      rewrite ?IH by done; repeat case_decide; congruence.
Qed.

Lemma get_app k d o :
  get k (d ++ o) = match get k d with Some v => Some v | None => get k o end.
Proof.
  induction d as [|[k' v'] d IH]; simpl; [done |].
  by destruct (decide (k' = k)).
Qed.

(** Reading after writing. *)
Lemma get_put k k' v o :
  get k' (put k v o) = if decide (k = k') then Some v else get k' o.
Proof.
  unfold put. destruct (get k o) as [w|] eqn:Hg.
  - rewrite get_replace_key, Hg. done.
  - destruct (array_index k).
    + by rewrite get_insert_index.
    + rewrite get_app. simpl. destruct (decide (k = k')) as [<-|].
      * by rewrite Hg.
      * by destruct (get k' o).
Qed.

(** What distinct keys give at the entry a loop has reached: the key is new
    to the entries before and after it, and both ways of going on keep the
    keys distinct. *)
Lemma NoDup_keys_middle d k v o :
  NoDup (keys (d ++ (k, v) :: o)) ->
  (k ∉ keys d) /\ (k ∉ keys o) /\ NoDup (keys (d ++ o))
  /\ forall v', NoDup (keys ((d ++ [(k, v')]) ++ o)).
Proof.
  rewrite !keys_app. simpl. intros Hnd.
  pose proof Hnd as (Hd & Hdo & [Hko Ho]%NoDup_cons)%NoDup_app.
  split_and!; [| done | |].
  - intros Hk. apply (Hdo k Hk). left.
  - apply NoDup_app. split_and!; [done | | done].
    intros x Hx Hxo. apply (Hdo x Hx). by right.
  - intros v'. rewrite !keys_app. simpl. by rewrite <- app_assoc.
Qed.

(** A loop over the own keys of an object with distinct keys visits every
    entry once, in order. *)
Lemma forKeys_app (body : K -> V -> option V) d o :
  NoDup (keys (d ++ o)) ->
  forKeys body (keys o) (d ++ o) =
  d ++ omap (fun e => (fun v' => (e.1, v')) <$> body e.1 e.2) o.
Proof.
  revert d. induction o as [|[k v] o IH]; intros d Hnd; simpl; [done |].
  destruct (NoDup_keys_middle d k v o Hnd) as (Hkd & Hko & Hdel & Hrep).
  rewrite get_app_notin by done. simpl. rewrite decide_True by done.
  destruct (body k v) as [v'|]; simpl.
  - rewrite replace_key_app_notin by done. simpl. rewrite decide_True by done.
    rewrite (cons_middle (k, v') d o), app_assoc, IH by done.
    by rewrite <- app_assoc.
  - rewrite delete_key_app, (delete_key_notin k d) by done. simpl.
    rewrite decide_True by done. rewrite delete_key_notin by done.
    by apply IH.
Qed.

Lemma forKeys_NoDup (body : K -> V -> option V) o :
  NoDup (keys o) ->
  forKeys body (keys o) o =
  omap (fun e => (fun v' => (e.1, v')) <$> body e.1 e.2) o.
Proof. intros Hnd. by apply (forKeys_app body []). Qed.

Lemma entries_app d o :
  NoDup (keys (d ++ o)) ->
  omap (fun k => match get k (d ++ o) with Some v => Some (k, v) | None => None end)
       (keys o) = o.
Proof.
  revert d. induction o as [|[k v] o IH]; intros d Hnd; simpl; [done |].
  destruct (NoDup_keys_middle d k v o Hnd) as (Hkd & _ & _ & Hrep).
  rewrite get_app_notin by done. simpl. rewrite decide_True by done.
  f_equal. rewrite (cons_middle (k, v) d o), app_assoc. by apply IH.
Qed.

(** The entries a read-only loop sees are the entries of the object. *)
Lemma entries_NoDup o : NoDup (keys o) -> entries o = o.
Proof. intros Hnd. by apply (entries_app []). Qed.

End ObjFacts.

(** ** [trimCache] *)

Section Trim.
Context {P : Type}.
Implicit Types (unit : CacheUnit P) (category : CacheCategory P) (c : ClientCache P).

Lemma has_length_false t unit : has_length t unit = false <-> unit_positions t unit = [].
Proof.
  unfold has_length, unit_positions.
  destruct (unit_get t unit) as [[|]|]; simpl; split; congruence.
Qed.

Lemma garbage_true unit :
  garbage unit = true <->
  unit_positions Dcl unit = [] /\ unit_positions Def unit = []
  /\ unit_positions Ref unit = [].
Proof.
  unfold garbage. rewrite !andb_true_iff, !negb_true_iff, !has_length_false.
  tauto.
Qed.

Lemma trimCategory_forKeys category :
  NoDup (keys category) ->
  forKeys (fun id unit =>
    if negb (has_length Dcl unit) && negb (has_length Def unit)
       && negb (has_length Ref unit)
    then None else Some unit) (keys category) category = trimCategory category.
Proof.
  intros Hnd. rewrite forKeys_NoDup by done. clear Hnd. unfold trimCategory.
  induction category as [|[id unit] category IH]; [done |].
  simpl. fold (garbage unit). destruct (garbage unit) eqn:Hg; simpl.
  - rewrite filter_cons_False; [done | simpl; congruence].
  - rewrite filter_cons_True by done. by f_equal.
Qed.

Lemma trimCache_trimmed c : wf_cache c -> trimCache c = trimmed c.
Proof.
  intros [Hnd Hcats]. unfold trimCache. rewrite forKeys_NoDup by done.
  unfold trimmed. apply omap_ext_Forall.
  eapply Forall_impl; [exact Hcats |]. intros [type category] Hcat. simpl in *.
  rewrite trimCategory_forKeys by done.
  by destruct (trimCategory category).
Qed.

Lemma keys_trimCategory_sub category : keys (trimCategory category) ⊆ keys category.
Proof.
  intros id. rewrite !elem_of_keys. intros [unit Hin].
  apply list_elem_of_filter in Hin as [_ Hin]. eauto.
Qed.

Lemma NoDup_keys_filter {K V} (Q : K * V -> Prop) `{forall e, Decision (Q e)}
  (o : Obj K V) : NoDup (keys o) -> NoDup (keys (filter Q o)).
Proof.
  induction o as [|[k v] o IH]; simpl; [done |].
  intros Hnd. apply NoDup_cons in Hnd as [Hk Hnd].
  rewrite filter_cons. destruct (decide (Q (k, v))); simpl; [|auto].
  apply NoDup_cons. split; [|auto].
  intros Hin. apply Hk. apply elem_of_keys in Hin as [v' Hin].
  apply list_elem_of_filter in Hin as [_ Hin]. apply elem_of_keys. eauto.
Qed.

Lemma trimmed_elem type category c :
  (type, category) ∈ trimmed c ->
  exists category0, (type, category0) ∈ c /\ category = trimCategory category0
    /\ category <> [].
Proof.
  unfold trimmed. rewrite list_elem_of_omap. intros [[type0 category0] [Hin Heq]].
  simpl in Heq. destruct (trimCategory category0) eqn:Ht; [done |].
  injection Heq as <- <-. exists category0. by rewrite Ht.
Qed.

Lemma wf_trimmed c : wf_cache c -> wf_cache (trimmed c).
Proof.
  intros [Hnd Hcats]. split.
  - clear Hcats. induction c as [|[type category] c IH]; simpl; [constructor |].
    apply NoDup_cons in Hnd as [Hk Hnd].
    destruct (trimCategory category) eqn:Ht; simpl; [auto |].
    apply NoDup_cons. split; [|auto].
    intros Hin. apply Hk. apply elem_of_keys in Hin as [v Hin].
    apply trimmed_elem in Hin as (category0 & Hin & _). apply elem_of_keys. eauto.
  - apply Forall_forall. intros [type category] Hin.
    apply trimmed_elem in Hin as (category0 & Hin & -> & _).
    apply NoDup_keys_filter.
    rewrite Forall_forall in Hcats. apply (Hcats (type, category0) Hin).
Qed.

Lemma trimCategory_idempotent category :
  trimCategory (trimCategory category) = trimCategory category.
Proof.
  unfold trimCategory. rewrite list_filter_filter.
  apply list_filter_iff. tauto.
Qed.

Lemma trimmed_idempotent c : trimmed (trimmed c) = trimmed c.
Proof.
  induction c as [|[type category] c IH]; [done |]. simpl.
  destruct (trimCategory category) eqn:Ht; [done |]. simpl.
  rewrite <- Ht, trimCategory_idempotent, Ht. by rewrite IH.
Qed.

(** C4: [trimCache] is idempotent, and it leaves no unit whose three
    sequences are all empty (whatever its documentation) and no empty
    category. *)
Theorem trimCache_idempotent_clean c :
  wf_cache c ->
  trimCache (trimCache c) = trimCache c
  /\ (forall type category id unit,
        get type (trimCache c) = Some category ->
        get id category = Some unit ->
        ~ (unit_positions Dcl unit = [] /\ unit_positions Def unit = []
           /\ unit_positions Ref unit = []))
  /\ (forall type category,
        get type (trimCache c) = Some category -> keys category <> []).
Proof.
  intros Hwf. rewrite (trimCache_trimmed c Hwf).
  rewrite (trimCache_trimmed _ (wf_trimmed c Hwf)).
  split; [apply trimmed_idempotent |]. split.
  - intros type category id unit Hcat Hunit Hempty.
    apply get_Some_elem, trimmed_elem in Hcat as (category0 & _ & -> & _).
    apply get_Some_elem, list_elem_of_filter in Hunit as [Hkeep _].
    apply garbage_true in Hempty. simpl in Hkeep. congruence.
  - intros type category Hcat.
    apply get_Some_elem, trimmed_elem in Hcat as (category0 & _ & _ & Hne).
    by destruct category.
Qed.
End Trim.

Lemma trimCache_idempotent_clean_witness :
  wf_cache sample_cache
  /\ trimCache (trimCache sample_cache) = trimCache sample_cache
  /\ trimCache sample_cache
     = [ (file_type function,
           [ ("a:x", {| doc := Some "doc of x"; dcl := Some [position 0 3];
                        def := None; ref := Some [position 10 13] |}) ]) ].
Proof.
  split; [by_evaluation |]. split; [|reflexivity].
  apply (trimCache_idempotent_clean sample_cache).
  by_evaluation.
Defined.

(** ** [remapCachePosition] *)

Lemma keys_map_values {K V W} (f : V -> W) (o : Obj K V) :
  keys (map_values f o) = keys o.
Proof. unfold keys, map_values. rewrite map_map. done. Qed.

Lemma get_map_values {K V W} `{EqDecision K} (f : V -> W) (k : K) (o : Obj K V) :
  get k (map_values f o) = f <$> get k o.
Proof.
  induction o as [|[k' v] o IH]; simpl; [done |].
  by destruct (decide (k' = k)).
Qed.

Lemma forKeys_map_values {K V} `{EqDecision K} (f : K -> V -> V) (o : Obj K V) :
  NoDup (keys o) ->
  forKeys (fun k v => Some (f k v)) (keys o) o = map (fun e => (e.1, f e.1 e.2)) o.
Proof.
  intros Hnd. rewrite forKeys_NoDup by done. clear Hnd.
  induction o as [|[k v] o IH]; [done |]. csimpl in *. by rewrite IH.
Qed.

Section RemapFacts.
Context {IndexMapping : Type}.
Variable remapTextRange : CachePosition -> IndexMapping -> CachePosition.
Variable mapping : IndexMapping.

Lemma remapUnit_get t unit :
  unit_get t (remapUnit remapTextRange mapping unit) =
  map (fun ele => remapTextRange ele mapping) <$> unit_get t unit.
Proof. by destruct unit as [d [a|] [b|] [c|]], t. Qed.

Lemma remapUnit_doc unit : doc (remapUnit remapTextRange mapping unit) = doc unit.
Proof. by destruct unit as [d [a|] [b|] [c|]]. Qed.

Lemma remapCachePosition_map_values c :
  wf_cache c ->
  remapCachePosition remapTextRange c mapping =
  map_values (map_values (remapUnit remapTextRange mapping)) c.
Proof.
  intros [Hnd Hcats]. unfold remapCachePosition.
  rewrite forKeys_map_values by done. unfold map_values at 1.
  apply map_ext_Forall. eapply Forall_impl; [exact Hcats |].
  intros [type category] Hcat. simpl in *. f_equal.
  by rewrite forKeys_map_values.
Qed.

(** C10: [remapCachePosition] keeps the types, the identifiers of every
    category and every documentation string, and replaces every position, in
    place and in order, by its remapped range; so every sequence keeps its
    length. *)
Theorem remapCachePosition_frame c :
  wf_cache c ->
  keys (remapCachePosition remapTextRange c mapping) = keys c
  /\ forall type category,
       get type c = Some category ->
       exists category',
         get type (remapCachePosition remapTextRange c mapping) = Some category'
         /\ keys category' = keys category
         /\ forall id unit,
              get id category = Some unit ->
              exists unit',
                get id category' = Some unit'
                /\ doc unit' = doc unit
                /\ forall t,
                     unit_get t unit' =
                       map (fun ele => remapTextRange ele mapping) <$> unit_get t unit
                     /\ length (unit_positions t unit')
                        = length (unit_positions t unit).
Proof.
  intros Hwf. rewrite remapCachePosition_map_values by done.
  split; [apply keys_map_values |].
  intros type category Hcat. eexists. split; [|split].
  - rewrite get_map_values, Hcat. done.
  - apply keys_map_values.
  - intros id unit Hunit. eexists. split; [|split].
    + rewrite get_map_values, Hunit. done.
    + apply remapUnit_doc.
    + intros t. split; [apply remapUnit_get |].
      unfold unit_positions. rewrite remapUnit_get.
      destruct (unit_get t unit); simpl; [apply length_map | done].
Qed.
End RemapFacts.

Lemma remapCachePosition_frame_witness :
  wf_cache sample_cache
  /\ keys (remapCachePosition shiftTextRange sample_cache 5) = keys sample_cache.
Proof.
  split; [by_evaluation |].
  apply (remapCachePosition_frame shiftTextRange 5 sample_cache).
  by_evaluation.
Defined.

(** ** [getCacheFromOffset] *)

Lemma first_return_app {A B} (f : A -> option B) l1 l2 :
  first_return f (l1 ++ l2) =
  match first_return f l1 with Some r => Some r | None => first_return f l2 end.
Proof.
  induction l1 as [|x l1 IH]; simpl; [done |]. by destruct (f x).
Qed.

Lemma first_return_bind {A B C} (f : B -> option C) (g : A -> list B) l :
  first_return f (l ≫= g) = first_return (fun x => first_return f (g x)) l.
Proof.
  induction l as [|x l IH]; [done |].
  rewrite bind_cons, first_return_app. simpl. by rewrite IH.
Qed.

Lemma first_return_ext_Forall {A B} (f g : A -> option B) l :
  Forall (fun x => f x = g x) l -> first_return f l = first_return g l.
Proof.
  induction 1 as [|x l Hx _ IH]; simpl; [done |]. by rewrite Hx, IH.
Qed.

Lemma first_return_ext {A B} (f g : A -> option B) l :
  (forall x, f x = g x) -> first_return f l = first_return g l.
Proof. intros Hfg. apply first_return_ext_Forall, Forall_forall. auto. Qed.

(** The value a loop returns comes from the first element whose body
    returns. *)
Lemma first_return_first {A B} (f : A -> option B) l :
  match first_return f l with
  | Some r => exists before x after,
      l = before ++ x :: after /\ f x = Some r
      /\ Forall (fun y => f y = None) before
  | None => Forall (fun y => f y = None) l
  end.
Proof.
  induction l as [|x l IH]; simpl; [constructor |].
  destruct (f x) as [r|] eqn:Hx.
  - exists [], x, l. by repeat split.
  - destruct (first_return f l) as [r|].
    + destruct IH as (before & y & after & -> & Hy & Hbefore).
      exists (x :: before), y, after. repeat split; [done | by constructor].
    + by constructor.
Qed.

Lemma hit_Some offset x r : hit offset x = Some r -> r = report x /\ contains offset x.2.
Proof.
  unfold hit, contains. destruct (_ && _) eqn:Hb; [|done].
  apply andb_true_iff in Hb as [?%Z.leb_le ?%Z.leb_le]. by intros [= <-].
Qed.

Lemma hit_None offset x : hit offset x = None -> ~ contains offset x.2.
Proof.
  unfold hit, contains. destruct (_ && _) eqn:Hb; [done |].
  apply andb_false_iff in Hb as [?%Z.leb_gt | ?%Z.leb_gt]; lia.
Qed.

Lemma getCacheFromOffset_scan cache offset :
  wf_cache cache ->
  getCacheFromOffset cache offset = first_return (hit offset) (scan_order cache).
Proof.
  intros [Hnd Hcats]. unfold getCacheFromOffset, scan_order.
  rewrite entries_NoDup by done. rewrite first_return_bind.
  apply first_return_ext_Forall. eapply Forall_impl; [exact Hcats |].
  intros [type category] Hcat. simpl in Hcat. rewrite entries_NoDup by done.
  rewrite first_return_bind. apply first_return_ext. intros [id unit].
  rewrite first_return_bind. apply first_return_ext. intros t.
  rewrite first_return_bind. apply first_return_ext. intros ele.
  simpl. unfold hit, report. simpl. by destruct (_ && _).
Qed.

(** C8: [getCacheFromOffset] returns the identifier of the first position, in
    the order types, identifiers, kinds, positions, whose range contains the
    offset with both ends included, and nothing when there is none.  Being a
    function of the cache and the offset, the answer is determined by them. *)
Theorem getCacheFromOffset_first cache offset :
  wf_cache cache ->
  match getCacheFromOffset cache offset with
  | Some r =>
      exists before type id ele after,
        scan_order cache = before ++ (type, id, ele) :: after
        /\ r = {| result_type := type; result_id := id;
                  result_start := start ele; result_end := end_ ele |}
        /\ contains offset ele
        /\ Forall (fun x => ~ contains offset x.2) before
  | None => Forall (fun x => ~ contains offset x.2) (scan_order cache)
  end.
Proof.
  intros Hwf. rewrite getCacheFromOffset_scan by done.
  pose proof (first_return_first (hit offset) (scan_order cache)) as Hfirst.
  destruct (first_return (hit offset) (scan_order cache)) as [r|].
  - destruct Hfirst as (before & [[type id] ele] & after & Hscan & Hhit & Hbefore).
    apply hit_Some in Hhit as [-> Hin].
    exists before, type, id, ele, after. repeat split; try done; try apply Hin.
    eapply Forall_impl; [exact Hbefore |]. intros x. apply hit_None.
  - eapply Forall_impl; [exact Hfirst |]. intros x. apply hit_None.
Qed.

Lemma getCacheFromOffset_first_witness :
  wf_cache sample_cache
  /\ match getCacheFromOffset sample_cache 13 with
     | Some r =>
         exists before type id ele after,
           scan_order sample_cache = before ++ (type, id, ele) :: after
           /\ r = {| result_type := type; result_id := id;
                     result_start := start ele; result_end := end_ ele |}
           /\ contains 13 ele
           /\ Forall (fun x => ~ contains 13 x.2) before
     | None => Forall (fun x => ~ contains 13 x.2) (scan_order sample_cache)
     end.
Proof.
  split; [by_evaluation |].
  apply (getCacheFromOffset_first sample_cache 13).
  by_evaluation.
Defined.

Example getCacheFromOffset_sample :
  getCacheFromOffset sample_cache 13
  = Some {| result_type := file_type function; result_id := "a:x";
            result_start := 10; result_end := 13 |}
  /\ getCacheFromOffset sample_cache 4 = None.
Proof. split; reflexivity. Qed.

(** ** Loops that call [testID] *)

Lemma bind_Ok {A B} (m : Res A) (f : A -> Res B) b log :
  m ≫= f = Ok b log ->
  exists a log1 log2, m = Ok a log1 /\ f a = Ok b log2 /\ log = log1 ++ log2.
Proof.
  destruct m as [a log1| |]; simpl; [|done..].
  unfold mbind, Res_bind. destruct (f a) as [b' log2| |] eqn:Hf; [|done..].
  intros [= <- <-]. by exists a, log1, log2.
Qed.

Lemma bind_returns {A B} (m : Res A) (f : A -> Res B) :
  returns m -> (forall a log, m = Ok a log -> returns (f a)) -> returns (m ≫= f).
Proof.
  destruct m as [a log1| |]; simpl; [|done..]. intros _ Hf.
  specialize (Hf a log1 eq_refl). unfold mbind, Res_bind. by destruct (f a).
Qed.

Lemma returns_Ok {A} (r : Res A) : returns r -> exists a log, r = Ok a log.
Proof. destruct r as [a log| |]; [by exists a, log | done..]. Qed.

Lemma filterRes_filter {A} (f : A -> Res bool) arr arr' log :
  filterRes f arr = Ok arr' log -> arr' = List.filter (accepted f) arr.
Proof.
  revert arr' log. induction arr as [|x arr IH]; intros arr' log; simpl.
  - by intros [= <-].
  - intros (b & log1 & log2 & Hx & Hrest & _)%bind_Ok.
    apply bind_Ok in Hrest as (rest & log3 & log4 & Hrest & Hret & _).
    injection Hret as <- _. apply IH in Hrest as ->.
    change (List.filter (accepted f) (x :: arr))
      with (if accepted f x then x :: List.filter (accepted f) arr
            else List.filter (accepted f) arr).
    assert (accepted f x = b) as -> by (unfold accepted; rewrite Hx; by destruct b).
    done.
Qed.

Lemma filterRes_returns {A} (f : A -> Res bool) arr :
  Forall (fun x => returns (f x)) arr -> returns (filterRes f arr).
Proof.
  induction 1 as [|x arr Hx _ IH]; simpl; [done |].
  apply bind_returns; [done |]. intros b log _. by apply bind_returns.
Qed.

Section ForKeysRes.
Context {K V : Type} `{EqDecision K}.
Implicit Types (o d : Obj K V).

(** A loop whose body returned each time did what the loop over the results
    does. *)
Lemma forKeysRes_forKeys (body : K -> V -> Res (option V))
    (result : K -> V -> option V) ks o o' log :
  (forall k v r log, body k v = Ok r log -> r = result k v) ->
  forKeysRes body ks o = Ok o' log -> o' = forKeys result ks o.
Proof.
  intros Hbody. revert o log. induction ks as [|k ks IH]; intros o log; simpl.
  - by intros [= <-].
  - destruct (get k o) as [v|]; [|by apply IH].
    intros (r & log1 & log2 & Hr & Hrest & _)%bind_Ok.
    apply Hbody in Hr as ->. destruct (result k v); by apply IH in Hrest.
Qed.

Lemma forKeysRes_returns_app (body : K -> V -> Res (option V)) d o :
  NoDup (keys (d ++ o)) ->
  Forall (fun e => returns (body e.1 e.2)) o ->
  returns (forKeysRes body (keys o) (d ++ o)).
Proof.
  revert d. induction o as [|[k v] o IH]; intros d Hnd Hbody; simpl; [done |].
  apply Forall_cons in Hbody as [Hkv Hbody]. simpl in Hkv.
  destruct (NoDup_keys_middle d k v o Hnd) as (Hkd & Hko & Hdel & Hrep).
  rewrite get_app_notin by done. simpl. rewrite decide_True by done.
  apply bind_returns; [done |]. intros [v'|] log _.
  - rewrite replace_key_app_notin by done. simpl. rewrite decide_True by done.
    rewrite (cons_middle (k, v') d o), app_assoc. by apply IH.
  - rewrite delete_key_app, (delete_key_notin k d) by done. simpl.
    rewrite decide_True by done. rewrite delete_key_notin by done.
    by apply IH.
Qed.

Lemma forKeysRes_returns (body : K -> V -> Res (option V)) o :
  NoDup (keys o) ->
  Forall (fun e => returns (body e.1 e.2)) o ->
  returns (forKeysRes body (keys o) o).
Proof. apply (forKeysRes_returns_app body []). Qed.
End ForKeysRes.

(** ** [testID] *)

Section TestID.
Context {IdentityNode : Type} `{IdentityOps IdentityNode}.
Implicit Types (service : DatapackLanguageService IdentityNode)
  (forID : IdentityNode) (config : Config).

(** C6: with no recorded rule and a tier as default policy, a defining
    document whose identity the service cannot resolve is logged and the
    position counts as visible. *)
Theorem testID_unresolved_visible fuel service forType forID definitionUri config tier :
  defaultVisibility config = Tier tier ->
  getId service definitionUri = None ->
  testID (S fuel) service (Rules []) forType forID definitionUri config
  = Ok true [NoIDResult definitionUri forType (toString forID)].
Proof. intros Hdefault Hid. simpl. by rewrite Hdefault, Hid. Qed.

(** C7: the examples of the pattern language, on a rule for any type. *)
Theorem testID_glob_examples fuel service forType definitionUri config
    (foo_bar_baz foo_ foo_bar fooo_bar : IdentityNode) :
  toString foo_bar_baz = "foo:bar/baz" ->
  toString foo_ = "foo:" ->
  toString foo_bar = "foo:bar" ->
  toString fooo_bar = "fooo:bar" ->
  let matches p forID :=
    testID (S fuel) service (OneRule {| pattern := p; type := AnyType |})
      forType forID definitionUri config in
  matches "foo:**" foo_bar_baz = Ok true []
  /\ matches "foo:**" foo_ = Ok true []
  /\ matches "foo:*" foo_bar = Ok true []
  /\ matches "foo:*" foo_bar_baz = Ok false []
  /\ matches "?oo:bar" foo_bar = Ok true []
  /\ matches "?oo:bar" fooo_bar = Ok false [].
Proof.
  intros H1 H2 H3 H4 matches. unfold matches. simpl. unfold testRule. simpl.
  rewrite H1, H2, H3, H4. repeat split; vm_compute; reflexivity.
Qed.
End TestID.

Lemma testID_unresolved_visible_witness :
  (defaultVisibility public_config = Tier public
   /\ getId blank_service (Some "file:///a.mcfunction") = None)
  /\ testID 1 blank_service (Rules []) function (sample_id "a" "x")
       (Some "file:///a.mcfunction") public_config
     = Ok true [NoIDResult (Some "file:///a.mcfunction") function "a:x"].
Proof.
  split; [split; reflexivity |].
  exact (testID_unresolved_visible 0 blank_service function (sample_id "a" "x")
           (Some "file:///a.mcfunction") public_config public eq_refl eq_refl).
Defined.

Lemma testID_glob_examples_witness :
  (toString (sample_id "foo" "bar/baz") = "foo:bar/baz"
   /\ toString (sample_id "foo" "") = "foo:"
   /\ toString (sample_id "foo" "bar") = "foo:bar"
   /\ toString (sample_id "fooo" "bar") = "fooo:bar")
  /\ testID 1 blank_service (OneRule {| pattern := "foo:*"; type := AnyType |})
       function (sample_id "foo" "bar/baz") None public_config = Ok false [].
Proof.
  split; [repeat split |].
  exact (proj1 (proj2 (proj2 (proj2
    (testID_glob_examples 0 blank_service function None public_config
       (sample_id "foo" "bar/baz") (sample_id "foo" "")
       (sample_id "foo" "bar") (sample_id "fooo" "bar")
       eq_refl eq_refl eq_refl eq_refl))))).
Defined.

(** *** When [testID] returns *)

Section TestIDReturns.
Context {IdentityNode : Type} `{IdentityOps IdentityNode}.
Implicit Types (service : DatapackLanguageService IdentityNode)
  (forID : IdentityNode) (config : Config).

Lemma testRule_returns v forType forID :
  supported v -> returns (testRule v forType forID).
Proof.
  intros [regex Hregex]. unfold testRule. destruct (decide _); [done |].
  by rewrite Hregex.
Qed.

Lemma some_returns {A} (f : A -> Res bool) vs :
  Forall (fun v => returns (f v)) vs -> returns (some f vs).
Proof.
  induction 1 as [|v vs Hv _ IH]; simpl; [done |].
  apply bind_returns; [done |]. by intros [|] log _.
Qed.

Lemma testID_rules_returns fuel service v vs forType forID definitionUri config :
  Forall supported (v :: vs) ->
  returns (testID (2 + fuel) service (Rules (v :: vs)) forType forID
             definitionUri config).
Proof.
  intros Hvs.
  change (returns (some (fun v' => testRule v' forType forID) (v :: vs))).
  apply some_returns. eapply Forall_impl; [exact Hvs |].
  intros v' Hv'. by apply testRule_returns.
Qed.

(** Three levels of recursion are enough, unless the default policy is the
    empty array. *)
Lemma testID_returns fuel service vs forType forID definitionUri config :
  Forall supported vs ->
  default_supported service definitionUri config ->
  returns (testID (3 + fuel) service (Rules vs) forType forID definitionUri config).
Proof.
  intros Hvs Hdefault. destruct vs as [|v vs].
  - unfold default_supported in Hdefault.
    cbn [testID Nat.add]. destruct (defaultVisibility config) as [tier|[v|[|v vs]]].
    + destruct (getId service definitionUri) as [[category id]|]; [|done].
      destruct (getCacheVisibilities tier category id) as [|v vs] eqn:Hrules;
        [by destruct tier |].
      by apply (testID_rules_returns fuel service v vs).
    + by apply testRule_returns.
    + by destruct Hdefault.
    + exact (testID_rules_returns fuel service v vs forType forID definitionUri
               config (proj2 Hdefault)).
  - by apply (testID_rules_returns (S fuel) service v vs).
Qed.

(** The test of [getCacheForID] returns on a position whose patterns, and
    those of the default policy, are in the modelled syntax. *)
Lemma visible_returns fuel service forType forID config p :
  Forall supported (default [] (visibility p)) ->
  default_supported service (uri p) config ->
  returns (visible (3 + fuel) service forType forID config p).
Proof. apply testID_returns. Qed.

(** With the empty array as default policy, a position without rules sends
    [testID] into a recursion with the same arguments. *)
Lemma testID_empty_default_diverges fuel service forType forID definitionUri config :
  defaultVisibility config = Structured (Rules []) ->
  testID fuel service (Rules []) forType forID definitionUri config = OutOfFuel.
Proof.
  intros Hdefault. induction fuel as [|fuel IH]; simpl; [done |].
  by rewrite Hdefault.
Qed.
End TestIDReturns.

(** *** The private tier *)

Lemma replace_from_absent a needle by_ s :
  Forall (fun c => Ascii.eqb a c = false) s ->
  replace_from (a :: needle) by_ 0 s = s.
Proof.
  induction 1 as [|c s Hc _ IH]; simpl; [done |]. by rewrite Hc, IH.
Qed.

Lemma existsb_false {A} (f : A -> bool) l x :
  existsb f l = false -> In x l -> f x = false.
Proof.
  intros Hex Hin. destruct (f x) eqn:Hfx; [|done].
  assert (existsb f l = true) by (apply existsb_exists; eauto). congruence.
Qed.

Lemma plain_char_neq c x :
  syntax_character c = false -> In x (chars "^$\.*+?()[]{}|") ->
  Ascii.eqb c x = false /\ Ascii.eqb x c = false.
Proof.
  intros Hc Hx. pose proof (existsb_false _ _ x Hc Hx) as Hcx.
  split; [done |]. by rewrite Ascii.eqb_sym.
Qed.

Lemma regex_source_plain s :
  plain s -> regex_source s = chars "^" ++ chars s ++ chars "$".
Proof.
  intros Hs. unfold regex_source, replace_all. do 2 f_equal.
  assert (Hq : Forall (fun c => Ascii.eqb "?" c = false) (chars s)).
  { eapply Forall_impl; [exact Hs |]. intros c Hc.
    apply (plain_char_neq c "?" Hc). simpl. tauto. }
  assert (Ha : Forall (fun c => Ascii.eqb "*" c = false) (chars s)).
  { eapply Forall_impl; [exact Hs |]. intros c Hc.
    apply (plain_char_neq c "*" Hc). simpl. tauto. }
  change (chars "?") with ["?"%char]. change (chars "**/") with ["*"; "*"; "/"]%char.
  change (chars "**") with ["*"; "*"]%char. change (chars "*") with ["*"%char].
  by rewrite (replace_from_absent _ _ _ _ Hq), !(replace_from_absent _ _ _ _ Ha).
Qed.

Lemma tokenize_plain s rest :
  Forall (fun c => syntax_character c = false) s ->
  tokenize (s ++ rest) = (fun ts => map (fun c => TAtom (Lit c)) s ++ ts) <$> tokenize rest.
Proof.
  induction 1 as [|c s Hc _ IH]; simpl.
  - by destruct (tokenize rest).
  - destruct (plain_char_neq c "^" Hc) as [-> _]; [simpl; tauto |].
    destruct (plain_char_neq c "$" Hc) as [-> _]; [simpl; tauto |].
    destruct (plain_char_neq c "." Hc) as [-> _]; [simpl; tauto |].
    destruct (plain_char_neq c "[" Hc) as [-> _]; [simpl; tauto |].
    destruct (plain_char_neq c "{" Hc) as [-> _]; [simpl; tauto |].
    rewrite Hc, IH. by destruct (tokenize rest).
Qed.

Lemma assemble_literals s :
  assemble (map (fun c => TAtom (Lit c)) s ++ [TEnd])
  = Some (map (fun c => One (Lit c)) s ++ [AssertEnd]).
Proof.
  induction s as [|c s IH]; [done |].
  cbn [map app assemble]. destruct s as [|c' s]; [done |].
  cbn [map app] in *. by rewrite IH.
Qed.

Lemma RegExp_plain s :
  plain s ->
  RegExp (regex_source s)
  = Some (AssertStart :: map (fun c => One (Lit c)) (chars s) ++ [AssertEnd]).
Proof.
  intros Hs. rewrite regex_source_plain by done. unfold RegExp.
  change (chars "^" ++ chars s ++ chars "$") with ("^"%char :: chars s ++ ["$"%char]).
  cbn [tokenize]. rewrite Ascii.eqb_refl. rewrite tokenize_plain by done.
  simpl. by rewrite assemble_literals.
Qed.

Lemma match_here_literals s at_start t :
  match_here (map (fun c => One (Lit c)) s ++ [AssertEnd]) at_start t
  = bool_decide (t = s).
Proof.
  revert at_start t. induction s as [|c s IH]; intros at_start t; simpl.
  - by destruct t.
  - destruct t as [|c' t]; [done |]. rewrite IH.
    destruct (Ascii.eqb c c') eqn:Hc; simpl.
    + apply Ascii.eqb_eq in Hc as ->. apply bool_decide_ext. split; congruence.
    + apply Ascii.eqb_neq in Hc. symmetry. apply bool_decide_eq_false. congruence.
Qed.

Lemma search_not_at_start r t : search (AssertStart :: r) false t = false.
Proof. induction t as [|c t IH]; simpl; [done | by rewrite IH]. Qed.

Lemma regex_test_literals s t :
  regex_test (AssertStart :: map (fun c => One (Lit c)) (chars s) ++ [AssertEnd]) t
  = bool_decide (t = s).
Proof.
  unfold regex_test.
  assert (Hsearch : forall r l, search (AssertStart :: r) true l = match_here r true l).
  { intros r [|c l]; simpl; [by rewrite orb_false_r |].
    by rewrite search_not_at_start, orb_false_r. }
  rewrite Hsearch, match_here_literals. apply bool_decide_ext. unfold chars.
  split; [|by intros ->]. intros Heq.
  by rewrite <- (string_of_list_ascii_of_string t), Heq,
    string_of_list_ascii_of_string.
Qed.

Section Private.
Context {IdentityNode : Type} `{IdentityOps IdentityNode}.

(** For a defining identity without syntax characters of regular
    expressions, the private rule passes exactly for the same category and
    the same identity string. *)
Lemma private_rule_exact fuel (service : DatapackLanguageService IdentityNode)
    definitionType definitionID forType forID definitionUri config :
  plain (toString definitionID) ->
  testID (2 + fuel) service
    (Rules (getCacheVisibilities private definitionType definitionID))
    forType forID definitionUri config
  = Ok (bool_decide (forType = definitionType
                     /\ toString forID = toString definitionID)) [].
Proof.
  intros Hplain. cbn [getCacheVisibilities testID Nat.add some].
  unfold testRule. cbn [type pattern]. destruct (decide _) as [[_ Hne]|Heq].
  - simpl. rewrite bool_decide_eq_false_2; [done |]. intros [-> _]. done.
  - rewrite RegExp_plain by done. simpl. rewrite regex_test_literals.
    assert (forType = definitionType) as ->.
    { destruct (decide (forType = definitionType)) as [|Hne]; [done |].
      exfalso. apply Heq. split; [done |]. congruence. }
    destruct (bool_decide (toString forID = toString definitionID)) eqn:Hb.
    + apply bool_decide_eq_true in Hb. by rewrite bool_decide_eq_true_2.
    + apply bool_decide_eq_false in Hb. rewrite bool_decide_eq_false_2; [done |].
      by intros [_ ?].
Qed.
End Private.

Lemma private_rule_exact_witness :
  plain "a:x"
  /\ testID 2 blank_service
       (Rules (getCacheVisibilities private function (sample_id "a" "x")))
       function (sample_id "a" "y") None public_config = Ok false [].
Proof.
  split; [by_evaluation |].
  refine (private_rule_exact 0 blank_service function (sample_id "a" "x") function
            (sample_id "a" "y") None public_config _).
  by_evaluation.
Defined.

(** C5 fails for a defining identity with a dot: the dot of the private
    pattern is compiled as the wildcard of regular expressions, so the rule
    of [a:b.c] also passes for the other identity [a:bxc]. *)
Theorem private_rule_dot_passes_other_identity :
  toString (sample_id "a" "bxc") <> toString (sample_id "a" "b.c")
  /\ getCacheVisibilities private function (sample_id "a" "b.c")
     = [ {| pattern := "a:b.c"; type := OfType function |} ]
  /\ testID 2 blank_service
       (Rules (getCacheVisibilities private function (sample_id "a" "b.c")))
       function (sample_id "a" "bxc") None public_config
     = Ok true [].
Proof. split; [discriminate |]. split; reflexivity. Qed.

(** ** [combineCache] *)

Lemma unit_get_set {P} t t' (v : option (list P)) unit :
  unit_get t' (unit_set t v unit) = if decide (t = t') then v else unit_get t' unit.
Proof. by destruct t, t'. Qed.

Lemma unit_set_set {P} t (v w : option (list P)) unit :
  unit_set t v (unit_set t w unit) = unit_set t v unit.
Proof. by destruct t. Qed.

Lemma unit_positions_append_kind {P} t t' (ps : list P) unit :
  unit_positions t' (append_kind t ps unit) =
  unit_positions t' unit ++ (if decide (t = t') then ps else []).
Proof.
  unfold append_kind, unit_positions. destruct ps as [|p ps].
  - destruct (decide (t = t')); by rewrite app_nil_r.
  - rewrite unit_get_set. destruct (decide (t = t')) as [->|]; simpl; [done |].
    by rewrite app_nil_r.
Qed.

Lemma doc_append_kind {P} t (ps : list P) unit : doc (append_kind t ps unit) = doc unit.
Proof. destruct ps; [done |]. by destruct t. Qed.

Lemma stamp_all_app addition l1 l2 st :
  stamp_all addition (l1 ++ l2) st = stamp_all addition l2 (stamp_all addition l1 st).
Proof. destruct addition; simpl; [apply fold_left_app | done]. Qed.

Lemma stamp_all_cons addition l ls st :
  stamp_all addition (l :: ls) st = stamp_all addition ls (stamp_all addition [l] st).
Proof. by destruct addition. Qed.

Lemma addPos_eq addition pos arr st :
  addPos addition pos arr st = (arr ++ [pos], stamp_all addition [pos] st).
Proof. by destruct addition. Qed.

Section Combine.
Variable addition : option Addition.

(** The loop over the positions of one kind. *)
Lemma combine_positions t ps ansUnit st :
  fold_left (fun '(ansUnit, st) overridePos =>
    let arr := default [] (unit_get t ansUnit) in
    let '(arr, st) := addPos addition overridePos arr st in
    (unit_set t (Some arr) ansUnit, st)) ps (ansUnit, st)
  = (append_kind t ps ansUnit, stamp_all addition ps st).
Proof.
  revert ansUnit st. induction ps as [|p ps IH]; intros ansUnit st.
  - by destruct addition.
  - cbn [fold_left]. rewrite (addPos_eq _ p). cbn beta iota zeta.
    rewrite IH. f_equal; [|symmetry; apply stamp_all_cons].
    unfold append_kind. destruct ps as [|p' ps]; [done |].
    rewrite unit_set_set. f_equal. f_equal. unfold unit_positions.
    rewrite unit_get_set, decide_True by done. simpl.
    by rewrite <- app_assoc.
Qed.

Lemma mergeUnit_store overrideUnit ansUnit st :
  (mergeUnit addition overrideUnit ansUnit st).2
  = stamp_all addition (unit_locs overrideUnit) st.
Proof.
  unfold mergeUnit. cbn [fold_left CacheUnitPositionTypes].
  rewrite !combine_positions. unfold unit_locs. rewrite !stamp_all_app.
  by destruct (has_doc overrideUnit).
Qed.

Lemma mergeUnit_positions t overrideUnit ansUnit st :
  unit_positions t (mergeUnit addition overrideUnit ansUnit st).1
  = unit_positions t ansUnit ++ unit_positions t overrideUnit.
Proof.
  unfold mergeUnit. cbn [fold_left CacheUnitPositionTypes].
  rewrite !combine_positions.
  set (u := append_kind Ref _ _).
  assert (Hu : unit_positions t u = unit_positions t ansUnit ++ unit_positions t overrideUnit).
  { unfold u. rewrite !unit_positions_append_kind.
    destruct t; simpl; rewrite ?app_nil_r; done. }
  destruct (has_doc overrideUnit); simpl; [|done].
  rewrite <- Hu. by destruct t.
Qed.

Lemma mergeUnit_doc overrideUnit ansUnit st :
  doc (mergeUnit addition overrideUnit ansUnit st).1
  = if has_doc overrideUnit then doc overrideUnit else doc ansUnit.
Proof.
  unfold mergeUnit. cbn [fold_left CacheUnitPositionTypes].
  rewrite !combine_positions.
  destruct (has_doc overrideUnit); simpl; [done |].
  by rewrite !doc_append_kind.
Qed.

Lemma not_participates_locs {P} (unit : CacheUnit P) t :
  participates unit = false -> unit_positions t unit = [].
Proof.
  unfold participates. rewrite !orb_false_iff. intros [[[Hd He] Hr] _].
  apply has_length_false. by destruct t.
Qed.

Lemma combineUnit_store type id overrideUnit ans st :
  (combineUnit addition type id overrideUnit ans st).2
  = stamp_all addition (unit_locs overrideUnit) st.
Proof.
  unfold combineUnit. destruct (participates overrideUnit) eqn:Hp.
  - destruct (initUnit ans type id) as [ans1 ansUnit].
    pose proof (mergeUnit_store overrideUnit ansUnit st) as Hst.
    by destruct (mergeUnit addition overrideUnit ansUnit st).
  - unfold unit_locs. rewrite !not_participates_locs by done.
    by destruct addition.
Qed.

Lemma unit_at_put type type' id id' (unit : CacheUnit loc) c :
  unit_at (put type (put id unit (getSafeCategory (Some c) type)) c) type' id'
  = if decide (type = type' /\ id = id') then unit else unit_at c type' id'.
Proof.
  unfold unit_at, getSafeCategory. simpl. rewrite get_put.
  destruct (decide (type = type')) as [<-|Hne]; simpl.
  - rewrite get_put. destruct (decide (id = id')) as [<-|Hne'].
    + by rewrite decide_True.
    + rewrite decide_False; [done | tauto].
  - rewrite decide_False; [done | tauto].
Qed.

Lemma combineUnit_unit_at type id overrideUnit ans st type' id' :
  unit_at (combineUnit addition type id overrideUnit ans st).1 type' id'
  = if decide (participates overrideUnit = true /\ type = type' /\ id = id')
    then (mergeUnit addition overrideUnit (unit_at ans type id) st).1
    else unit_at ans type' id'.
Proof.
  unfold combineUnit. destruct (participates overrideUnit) eqn:Hp.
  - unfold initUnit. fold (unit_at ans type id).
    destruct (mergeUnit addition overrideUnit (unit_at ans type id) st)
      as [merged st'] eqn:Hm.
    simpl. rewrite unit_at_put.
    destruct (decide (type = type' /\ id = id')) as [[<- <-]|Hne].
    + by rewrite decide_True.
    + rewrite decide_False by tauto. rewrite unit_at_put.
      by rewrite decide_False.
  - cbn [fst]. by destruct (decide _) as [[? _]|].
Qed.

Lemma combineUnit_positions type id overrideUnit ans st type' id' t :
  positions_at (combineUnit addition type id overrideUnit ans st).1 type' id' t
  = positions_at ans type' id' t
    ++ (if decide (type = type' /\ id = id') then unit_positions t overrideUnit
        else []).
Proof.
  unfold positions_at. rewrite combineUnit_unit_at.
  destruct (decide (type = type' /\ id = id')) as [[<- <-]|Hne].
  - destruct (participates overrideUnit) eqn:Hp.
    + rewrite decide_True by done. apply mergeUnit_positions.
    + rewrite decide_False by (intros [? _]; done).
      by rewrite (not_participates_locs overrideUnit), app_nil_r.
  - rewrite decide_False by tauto. by rewrite app_nil_r.
Qed.

(** The loop over the identifiers of one category of the override. *)
Lemma combine_category type (l : CacheCategory loc) ans st :
  let r := fold_left (fun '(ans, st) '(id, overrideUnit) =>
             combineUnit addition type id overrideUnit ans st) l (ans, st) in
  r.2 = stamp_all addition (category_locs l) st
  /\ (NoDup (keys l) ->
      forall type' id' t,
        positions_at r.1 type' id' t
        = positions_at ans type' id' t
          ++ (if decide (type = type')
              then unit_positions t (default emptyUnit (get id' l)) else [])).
Proof.
  revert ans st. induction l as [|[id unit] l IH]; intros ans st; cbn zeta.
  - split; [by destruct addition |]. intros _ type' id' t.
    destruct (decide (type = type')), t; simpl; by rewrite app_nil_r.
  - cbn [fold_left].
    pose proof (combineUnit_store type id unit ans st) as Hst.
    pose proof (combineUnit_positions type id unit ans st) as Hpos.
    destruct (combineUnit addition type id unit ans st) as [ans1 st1].
    cbn [fst snd] in Hst, Hpos. specialize (IH ans1 st1). cbn zeta in IH.
    destruct IH as [IHst IHpos]. split.
    + rewrite IHst, Hst. unfold category_locs. cbn [map concat].
      by rewrite stamp_all_app.
    + intros [Hid Hnd]%NoDup_cons type' id' t.
      rewrite IHpos, Hpos by done. rewrite <- app_assoc. f_equal.
      apply get_None in Hid. cbn [fst] in Hid. cbn [get].
      repeat case_decide; subst; try tauto; try congruence;
        rewrite ?Hid; cbn [default]; rewrite ?app_nil_r; try done.
      destruct t; simpl; by rewrite app_nil_r.
Qed.

(** The loop over the types of the override. *)
Lemma combine_entries (l : ClientCache loc) ans st :
  wf_cache l ->
  let r := fold_left (fun '(ans, st) '(type, overrideCategory) =>
             fold_left (fun '(ans, st) '(id, overrideUnit) =>
               combineUnit addition type id overrideUnit ans st)
               (entries overrideCategory) (ans, st)) l (ans, st) in
  r.2 = stamp_all addition (cache_locs l) st
  /\ forall type' id' t,
       positions_at r.1 type' id' t
       = positions_at ans type' id' t ++ positions_at l type' id' t.
Proof.
  intros [Hnd Hcats]. revert ans st.
  induction l as [|[type category] l IH]; intros ans st; cbn zeta.
  - split; [by destruct addition |]. intros type' id' t.
    unfold positions_at at 3, unit_at. destruct t; simpl; by rewrite app_nil_r.
  - apply NoDup_cons in Hnd as [Htype Hnd].
    apply Forall_cons in Hcats as [Hcat Hcats]. cbn [snd] in Hcat.
    cbn [fold_left]. rewrite entries_NoDup by done.
    pose proof (combine_category type category ans st) as Hc. cbn zeta in Hc.
    destruct (fold_left _ category (ans, st)) as [ans1 st1].
    cbn [fst snd] in Hc. destruct Hc as [Hst Hpos].
    specialize (IH Hnd Hcats ans1 st1). cbn zeta in IH.
    destruct IH as [IHst IHpos]. split.
    + rewrite IHst, Hst. unfold cache_locs. cbn [map concat snd].
      by rewrite stamp_all_app.
    + intros type' id' t. rewrite IHpos, Hpos by done.
      rewrite <- app_assoc. f_equal.
      apply get_None in Htype. cbn [fst] in Htype.
      unfold positions_at at 1 2, unit_at, getSafeCategory. simpl.
      repeat case_decide; subst; try tauto; try congruence;
        rewrite ?Htype; simpl; try done.
      destruct t; simpl; by rewrite app_nil_r.
Qed.

Lemma combineCache_store base override st :
  wf_cache override ->
  (combineCache base override addition st).2
  = stamp_all addition (cache_locs override) st.
Proof.
  intros Hwf. unfold combineCache. rewrite entries_NoDup by apply Hwf.
  by apply combine_entries.
Qed.

Lemma combineCache_positions base override st type id t :
  wf_cache override ->
  positions_at (combineCache base override addition st).1 type id t
  = positions_at base type id t ++ positions_at override type id t.
Proof.
  intros Hwf. unfold combineCache. rewrite entries_NoDup by apply Hwf.
  by apply combine_entries.
Qed.
End Combine.

Lemma stamp_idempotent a pos : stamp a (stamp a pos) = stamp a pos.
Proof. reflexivity. Qed.

(** [stamp] keeps the range, the visibility and the scope. *)
Lemma stamp_keeps a pos :
  start (stamp a pos) = start pos /\ end_ (stamp a pos) = end_ pos
  /\ visibility (stamp a pos) = visibility pos /\ scope (stamp a pos) = scope pos.
Proof. done. Qed.

Lemma lookup_insert_deref (f : CachePosition -> CachePosition) (st : Store) l0 l :
  <[l0 := f (deref st l0)]> st !! l
  = if decide (l = l0) then f <$> st !! l else st !! l.
Proof.
  destruct (decide (l = l0)) as [->|Hne].
  - destruct (st !! l0) as [x|] eqn:Hl.
    + rewrite list_lookup_insert_eq by (by eapply lookup_lt_Some).
      unfold deref. by rewrite (list_lookup_total_correct st l0 x).
    + rewrite list_insert_ge by (by apply lookup_ge_None). by rewrite Hl.
  - by rewrite list_lookup_insert_ne.
Qed.

(** The store after stamping: the stamped objects, and the others as they
    were. *)
Lemma stamp_all_lookup a ls st l :
  stamp_all (Some a) ls st !! l
  = if decide (l ∈ ls) then stamp a <$> st !! l else st !! l.
Proof.
  revert st. induction ls as [|l0 ls IH]; intros st.
  - by rewrite decide_False by apply not_elem_of_nil.
  - rewrite stamp_all_cons, IH. cbn [stamp_all fold_left].
    rewrite lookup_insert_deref.
    destruct (decide (l = l0)) as [->|Hne].
    + rewrite (decide_True (P := l0 ∈ l0 :: ls)) by apply list_elem_of_here.
      destruct (decide (l0 ∈ ls)); [|done].
      destruct (st !! l0); simpl; [|done]. by rewrite stamp_idempotent.
    + destruct (decide (l ∈ ls)) as [Hin|Hnin].
      * by rewrite decide_True by by apply list_elem_of_further.
      * rewrite decide_False; [done |]. by intros [?|?]%elem_of_cons.
Qed.

Lemma map_values_ext_Forall {K V W} (f g : V -> W) (o : Obj K V) :
  Forall (fun e => f e.2 = g e.2) o -> map_values f o = map_values g o.
Proof.
  intros Hfg. apply map_ext_Forall. eapply Forall_impl; [exact Hfg |].
  intros [k v] Heq. simpl in *. by rewrite Heq.
Qed.

Lemma map_unit_ext {P Q} (f g : P -> Q) (unit : CacheUnit P) :
  (forall p, p ∈ unit_locs unit -> f p = g p) -> map_unit f unit = map_unit g unit.
Proof.
  intros Hfg. unfold map_unit.
  assert (Hk : forall t, map f <$> unit_get t unit = map g <$> unit_get t unit).
  { intros t. destruct (unit_get t unit) as [ps|] eqn:Hps; [|done]. simpl.
    f_equal. apply map_ext_Forall, Forall_forall. intros p Hp. apply Hfg.
    unfold unit_locs. rewrite !elem_of_app.
    destruct t; [left | right; left | right; right];
      unfold unit_positions; by rewrite Hps. }
  pose proof (Hk Dcl) as Hd. pose proof (Hk Def) as He. pose proof (Hk Ref) as Hr.
  simpl in Hd, He, Hr. by rewrite Hd, He, Hr.
Qed.

Lemma elem_of_concat {A} (x : A) (ls : list (list A)) :
  x ∈ concat ls <-> exists l, l ∈ ls /\ x ∈ l.
Proof.
  rewrite list_elem_of_In, in_concat. split; intros (l & Hl & Hx); exists l.
  - by rewrite !list_elem_of_In.
  - by rewrite <- !list_elem_of_In.
Qed.

Lemma elem_of_category_locs {P} (p : P) (category : CacheCategory P) :
  p ∈ category_locs category
  <-> exists id unit, (id, unit) ∈ category /\ p ∈ unit_locs unit.
Proof.
  unfold category_locs. rewrite elem_of_concat. split.
  - intros (l & Hl & Hp). apply list_elem_of_In, in_map_iff in Hl
      as ([id unit] & <- & Hin). exists id, unit. by rewrite list_elem_of_In.
  - intros (id & unit & Hin & Hp). exists (unit_locs unit). split; [|done].
    apply list_elem_of_In, in_map_iff. exists (id, unit).
    by rewrite <- list_elem_of_In.
Qed.

Lemma elem_of_cache_locs {P} (p : P) (c : ClientCache P) :
  p ∈ cache_locs c
  <-> exists type category, (type, category) ∈ c /\ p ∈ category_locs category.
Proof.
  unfold cache_locs. rewrite elem_of_concat. split.
  - intros (l & Hl & Hp). apply list_elem_of_In, in_map_iff in Hl
      as ([type category] & <- & Hin). exists type, category.
    by rewrite list_elem_of_In.
  - intros (type & category & Hin & Hp). exists (category_locs category).
    split; [|done]. apply list_elem_of_In, in_map_iff. exists (type, category).
    by rewrite <- list_elem_of_In.
Qed.

(** Two maps over a cache agree when they agree on its positions. *)
Lemma map_cache_ext {P Q} (f g : P -> Q) (c : ClientCache P) :
  (forall p, p ∈ cache_locs c -> f p = g p) -> map_cache f c = map_cache g c.
Proof.
  intros Hfg. unfold map_cache. apply map_values_ext_Forall, Forall_forall.
  intros [type category] Hcat. simpl.
  apply map_values_ext_Forall, Forall_forall. intros [id unit] Hunit. simpl.
  apply map_unit_ext. intros p Hp. apply Hfg.
  apply elem_of_cache_locs. exists type, category. split; [done |].
  apply elem_of_category_locs. by exists id, unit.
Qed.

Lemma map_cache_compose {P Q R} (f : P -> Q) (g : Q -> R) (c : ClientCache P) :
  map_cache g (map_cache f c) = map_cache (fun p => g (f p)) c.
Proof.
  unfold map_cache, map_values. rewrite map_map. apply map_ext.
  intros [type category]. simpl. f_equal. rewrite map_map. apply map_ext.
  intros [id unit]. simpl. f_equal. unfold map_unit. simpl.
  destruct unit as [d [a|] [b|] [c'|]]; simpl; by rewrite ?map_map.
Qed.

Lemma deref_cache_map_cache st c : deref_cache st c = map_cache (deref st) c.
Proof. reflexivity. Qed.




(** The positions of the override had no document; after the merge they
    carry the document, lines and characters of the descriptor. *)
Example combineCache_sample :
  deref_cache sample_store sample_override
  = [ (file_type function,
        [ ("a:x", {| doc := None; dcl := Some [position 20 23]; def := None;
                     ref := Some [position 30 33] |}) ]) ]
  /\ deref_cache
       (combineCache sample_base sample_override (Some sample_addition)
          sample_store).2 sample_override
     = [ (file_type function,
           [ ("a:x", {| doc := None;
                        dcl := Some [stamp sample_addition (position 20 23)];
                        def := None;
                        ref := Some [stamp sample_addition (position 30 33)] |}) ]) ]
  /\ uri (stamp sample_addition (position 20 23))
     = Some "file:///data/a/functions/x.mcfunction"
  /\ (combineCache sample_base sample_override (Some sample_addition)
        sample_store).1
     = [ (file_type function,
           [ ("a:x", {| doc := Some "old"; dcl := Some [0%nat; 1%nat];
                        def := None; ref := Some [2%nat] |}) ]) ].
Proof. repeat split; reflexivity. Qed.

(** ** [rfdc] *)

Section MapS.
Context {A B C : Type}.
Variables (locsA : A -> list loc) (locsB : B -> list loc).
Variables (viewA : Store -> A -> C) (viewB : Store -> B -> C).

Lemma stable_list {X} (locs : X -> list loc) (view : Store -> X -> C) :
  stable locs view ->
  stable (fun xs => concat (map locs xs)) (fun st xs => map (view st) xs).
Proof.
  intros Hstable st added xs. induction xs as [|x xs IH]; simpl; [done |].
  intros [Hx Hxs]%Forall_app. f_equal; auto.
Qed.

Lemma mapS_clones (f : A -> Store -> B * Store) :
  stable locsA viewA -> stable locsB viewB ->
  clones locsA locsB viewA viewB f ->
  clones (fun xs => concat (map locsA xs)) (fun ys => concat (map locsB ys))
    (fun st xs => map (viewA st) xs) (fun st ys => map (viewB st) ys) (mapS f).
Proof.
  intros HstableA HstableB Hf xs. induction xs as [|x xs IH]; intros st.
  - simpl. split; [exists []; by rewrite app_nil_r |]. split; [constructor | done].
  - simpl. destruct (Hf x st) as ([added1 Hadd1] & Hfresh1 & Hcopy1).
    destruct (f x st) as [y st1]. simpl in *. subst st1.
    destruct (IH (st ++ added1)) as ([added2 Hadd2] & Hfresh2 & Hcopy2).
    destruct (mapS f xs (st ++ added1)) as [ys st2]. simpl in *. subst st2.
    split; [exists (added1 ++ added2); by rewrite app_assoc |]. split.
    + apply Forall_app. split.
      * eapply Forall_impl; [exact Hfresh1 |]. intros l. simpl.
        rewrite !length_app. lia.
      * eapply Forall_impl; [exact Hfresh2 |]. intros l. simpl.
        rewrite !length_app. lia.
    + intros [Hx Hxs]%Forall_app. f_equal.
      * rewrite HstableB; [auto |].
        eapply Forall_impl; [exact Hfresh1 |]. intros l. simpl. lia.
      * rewrite Hcopy2.
        -- by apply (stable_list locsA viewA).
        -- eapply Forall_impl; [exact Hxs |]. intros l. simpl.
           rewrite length_app. lia.
Qed.
End MapS.

Lemma deref_app_l (st added : Store) l :
  (l < length st)%nat -> deref (st ++ added) l = deref st l.
Proof.
  intros Hl. unfold deref. by apply lookup_total_app_l.
Qed.

Lemma deref_app_new (st : Store) x : deref (st ++ [x]) (length st) = x.
Proof. unfold deref. by apply list_lookup_total_middle. Qed.

Lemma stable_deref : stable (fun l : loc => [l]) deref.
Proof.
  intros st added l Hl. apply deref_app_l. exact (Forall_inv Hl).
Qed.

Lemma clonePosition_clones :
  clones (fun l : loc => [l]) (fun l : loc => [l]) deref deref clonePosition.
Proof.
  intros l st. unfold clonePosition. simpl. split; [by eexists |]. split.
  - apply Forall_singleton. rewrite length_app. simpl. lia.
  - intros _. apply deref_app_new.
Qed.

Lemma concat_singletons {X} (xs : list X) : concat (map (fun x => [x]) xs) = xs.
Proof. induction xs as [|x xs IH]; simpl; [done | by rewrite IH]. Qed.

Lemma stable_array :
  stable (fun arr : option (list loc) => default [] arr)
    (fun st arr => map (deref st) <$> arr).
Proof.
  intros st added [arr|] Hvalid; simpl; [|done]. f_equal.
  apply (stable_list (fun l : loc => [l]) deref stable_deref).
  simpl in Hvalid. by rewrite concat_singletons.
Qed.

Lemma cloneArray_clones :
  clones (fun arr : option (list loc) => default [] arr)
    (fun arr : option (list loc) => default [] arr)
    (fun st arr => map (deref st) <$> arr) (fun st arr => map (deref st) <$> arr)
    cloneArray.
Proof.
  intros [arr|] st; simpl.
  - pose proof (mapS_clones _ _ _ _ clonePosition stable_deref stable_deref
                  clonePosition_clones arr st) as (Hadd & Hfresh & Hcopy).
    destruct (mapS clonePosition arr st) as [arr' st']. simpl in *.
    rewrite concat_singletons in *. split; [done |]. split; [done |].
    intros Hvalid. f_equal. auto.
  - split; [exists []; by rewrite app_nil_r |]. split; [constructor | done].
Qed.

Lemma stable_unit : stable (@unit_locs loc) deref_unit.
Proof.
  intros st added unit Hvalid. apply (map_unit_ext (deref (st ++ added)) (deref st)).
  intros l Hl. apply deref_app_l. rewrite Forall_forall in Hvalid. auto.
Qed.

Lemma unit_locs_fields {P} (unit : CacheUnit P) :
  unit_locs unit = default [] (dcl unit) ++ default [] (def unit) ++ default [] (ref unit).
Proof. reflexivity. Qed.

Lemma cloneUnit_clones : clones unit_locs unit_locs deref_unit deref_unit cloneUnit.
Proof.
  intros unit st. unfold cloneUnit.
  destruct (cloneArray_clones (dcl unit) st) as ([add1 Hadd1] & Hfresh1 & Hcopy1).
  destruct (cloneArray (dcl unit) st) as [dcl' st1]. simpl in *. subst st1.
  destruct (cloneArray_clones (def unit) (st ++ add1))
    as ([add2 Hadd2] & Hfresh2 & Hcopy2).
  destruct (cloneArray (def unit) (st ++ add1)) as [def' st2]. simpl in *. subst st2.
  destruct (cloneArray_clones (ref unit) ((st ++ add1) ++ add2))
    as ([add3 Hadd3] & Hfresh3 & Hcopy3).
  destruct (cloneArray (ref unit) ((st ++ add1) ++ add2)) as [ref' st3].
  simpl in *. subst st3.
  split; [exists (add1 ++ add2 ++ add3); by rewrite !app_assoc |]. split.
  - rewrite unit_locs_fields. simpl. rewrite !Forall_app. split_and!.
    + eapply Forall_impl; [exact Hfresh1 |]. intros l. simpl.
      rewrite !length_app. lia.
    + eapply Forall_impl; [exact Hfresh2 |]. intros l. simpl.
      rewrite !length_app. lia.
    + eapply Forall_impl; [exact Hfresh3 |]. intros l. simpl.
      rewrite !length_app. lia.
  - rewrite unit_locs_fields. rewrite !Forall_app. intros (Hd & He & Hr).
    unfold deref_unit. simpl. f_equal.
    + rewrite <- Hcopy1 by done. rewrite <- app_assoc.
      apply stable_array. eapply Forall_impl; [exact Hfresh1 |].
      intros l. simpl. lia.
    + rewrite <- (stable_array st add1 (def unit)) by done.
      rewrite <- Hcopy2.
      * apply stable_array. eapply Forall_impl; [exact Hfresh2 |].
        intros l. simpl. lia.
      * eapply Forall_impl; [exact He |]. intros l. simpl.
        rewrite length_app. lia.
    + rewrite <- (stable_array st (add1 ++ add2) (ref unit)) by done.
      rewrite app_assoc. apply Hcopy3.
      eapply Forall_impl; [exact Hr |]. intros l. simpl.
      rewrite !length_app. lia.
Qed.

Lemma cloneCategory_clones :
  clones category_locs category_locs deref_category deref_category cloneCategory.
Proof.
  apply (mapS_clones (fun e : string * CacheUnit loc => unit_locs e.2)
           (fun e : string * CacheUnit loc => unit_locs e.2)
           (fun st e => (e.1, deref_unit st e.2))
           (fun st e => (e.1, deref_unit st e.2))).
  - intros st added [id unit] Hvalid. simpl. f_equal. by apply stable_unit.
  - intros st added [id unit] Hvalid. simpl. f_equal. by apply stable_unit.
  - intros [id unit] st. simpl.
    destruct (cloneUnit_clones unit st) as (Hadd & Hfresh & Hcopy).
    destruct (cloneUnit unit st) as [unit' st']. simpl in *.
    split; [done |]. split; [done |]. intros Hvalid. f_equal. auto.
Qed.

Lemma stable_category : stable (@category_locs loc) deref_category.
Proof.
  apply (stable_list (fun e : string * CacheUnit loc => unit_locs e.2)
           (fun st e => (e.1, deref_unit st e.2))).
  intros st added [id unit] Hvalid. simpl. f_equal. by apply stable_unit.
Qed.

Lemma stable_cache : stable (@cache_locs loc) deref_cache.
Proof.
  apply (stable_list (fun e : CacheType * CacheCategory loc => category_locs e.2)
           (fun st e => (e.1, deref_category st e.2))).
  intros st added [type category] Hvalid. simpl. f_equal.
  by apply stable_category.
Qed.

(** The clone made by [rfdc]: the store only grows, the clone refers to new
    objects only, and it reads as the original did. *)
Lemma rfdc_clones : clones cache_locs cache_locs deref_cache deref_cache rfdc.
Proof.
  apply (mapS_clones (fun e : CacheType * CacheCategory loc => category_locs e.2)
           (fun e : CacheType * CacheCategory loc => category_locs e.2)
           (fun st e => (e.1, deref_category st e.2))
           (fun st e => (e.1, deref_category st e.2))).
  - intros st added [type category] Hvalid. simpl. f_equal.
    by apply stable_category.
  - intros st added [type category] Hvalid. simpl. f_equal.
    by apply stable_category.
  - intros [type category] st. simpl.
    destruct (cloneCategory_clones category st) as (Hadd & Hfresh & Hcopy).
    destruct (cloneCategory category st) as [category' st']. simpl in *.
    split; [done |]. split; [done |]. intros Hvalid. f_equal. auto.
Qed.

(** ** The view of [getCacheForID] as a list function *)

Lemma omap_map_commute {A A' B B'} (h : A -> option B) (h' : A' -> option B')
    (g : B -> B') (g' : A -> A') (l : list A) :
  (forall x, g <$> h x = h' (g' x)) -> map g (omap h l) = omap h' (map g' l).
Proof.
  intros Hx. induction l as [|x l IH]; csimpl; [done |].
  rewrite <- Hx. destruct (h x); csimpl; by rewrite IH.
Qed.

Section View.
Context {P Q : Type}.
Implicit Types (pass : Q -> bool) (f : P -> Q).

Lemma filter_map_commute pass f (l : list P) :
  map f (List.filter (fun p => pass (f p)) l) = List.filter pass (map f l).
Proof.
  induction l as [|p l IH]; simpl; [done |].
  destruct (pass (f p)); simpl; by rewrite IH.
Qed.

Lemma viewUnit_map_unit pass f (unit : CacheUnit P) :
  map_unit f (viewUnit (fun p => pass (f p)) unit) = viewUnit pass (map_unit f unit).
Proof.
  destruct unit as [d [a|] [b|] [c|]]; unfold map_unit, viewUnit; simpl;
    by rewrite ?filter_map_commute.
Qed.

Lemma has_length_map_unit f t (unit : CacheUnit P) :
  has_length t (map_unit f unit) = has_length t unit.
Proof. by destruct unit as [d [[|? ?]|] [[|? ?]|] [[|? ?]|]], t. Qed.

Lemma keepUnit_map_unit f (unit : CacheUnit P) :
  keepUnit (map_unit f unit) = map_unit f <$> keepUnit unit.
Proof.
  unfold keepUnit. rewrite !has_length_map_unit. by destruct (_ && _).
Qed.

Lemma viewCategory_map_values pass f (category : CacheCategory P) :
  map_values (map_unit f) (viewCategory (fun p => pass (f p)) category)
  = viewCategory pass (map_values (map_unit f) category).
Proof.
  unfold viewCategory, map_values. apply omap_map_commute. intros [id unit].
  simpl. rewrite <- viewUnit_map_unit, keepUnit_map_unit.
  by destruct (keepUnit _).
Qed.

Lemma viewCache_map_cache pass f (c : ClientCache P) :
  map_cache f (viewCache (fun p => pass (f p)) c) = viewCache pass (map_cache f c).
Proof.
  unfold viewCache, map_cache. unfold map_values at 1 3.
  apply omap_map_commute. intros [type category]. simpl.
  rewrite <- viewCategory_map_values. unfold keepCategory.
  rewrite keys_map_values. by destruct (decide _).
Qed.

Lemma tested_positions_map_cache f (c : ClientCache P) :
  tested_positions (map_cache f c) = map f (tested_positions c).
Proof.
  unfold tested_positions. induction c as [|[type category] c IH]; [done |].
  unfold map_cache in *. csimpl in *. rewrite map_app, IH. f_equal. clear IH.
  induction category as [|[id unit] category IH]; [done |].
  csimpl in *. rewrite map_app, IH. f_equal. rewrite map_app.
  by destruct unit as [d [a|] [b|] [c'|]].
Qed.
End View.

Lemma wf_map_cache {P Q} (f : P -> Q) (c : ClientCache P) :
  wf_cache (map_cache f c) <-> wf_cache c.
Proof.
  unfold wf_cache, map_cache. rewrite keys_map_values.
  unfold map_values at 1. rewrite Forall_map.
  split; intros [Hnd Hcats]; (split; [done |]);
    (eapply Forall_impl; [exact Hcats |]); intros [type category]; simpl;
    by rewrite keys_map_values.
Qed.

Lemma Forall_tested_positions {P} (R : P -> Prop) (c : ClientCache P) :
  Forall R (tested_positions c)
  <-> Forall (fun e => Forall (fun u =>
        Forall R (unit_positions Dcl u.2) /\ Forall R (unit_positions Def u.2)) e.2) c.
Proof.
  unfold tested_positions. induction c as [|[type category] c IH]; csimpl.
  - split; constructor.
  - rewrite Forall_app, Forall_cons, IH. simpl.
    assert (Forall R (category ≫= fun u => unit_positions Dcl u.2 ++ unit_positions Def u.2)
            <-> Forall (fun u => Forall R (unit_positions Dcl u.2)
                                 /\ Forall R (unit_positions Def u.2)) category) as ->;
      [|done].
    clear IH. induction category as [|[id unit] category IH]; csimpl.
    + split; constructor.
    + rewrite !Forall_app, Forall_cons, IH. simpl. tauto.
Qed.

Lemma get_omap_keep {K V} `{EqDecision K} (h : V -> option V) (o : Obj K V) k :
  NoDup (keys o) ->
  get k (omap (fun e => (fun v => (e.1, v)) <$> h e.2) o) = get k o ≫= h.
Proof.
  induction o as [|[k' v] o IH]; csimpl; [done |].
  intros [Hk' Hnd]%NoDup_cons. specialize (IH Hnd).
  destruct (decide (k' = k)) as [->|Hne]; simpl.
  - destruct (h v) as [v'|]; csimpl; [by rewrite decide_True |].
    rewrite IH. apply get_None in Hk'. by rewrite Hk'.
  - destruct (h v) as [v'|]; csimpl; [by rewrite decide_False |]. done.
Qed.

Section ViewFacts.
Context {P : Type}.
Implicit Types (pass : P -> bool) (unit : CacheUnit P)
  (category : CacheCategory P) (c : ClientCache P).

Lemma viewCategory_elem pass id unit category :
  (id, unit) ∈ viewCategory pass category ->
  exists unit0, (id, unit0) ∈ category /\ unit = viewUnit pass unit0
    /\ (has_length Dcl unit = true \/ has_length Def unit = true).
Proof.
  unfold viewCategory. rewrite list_elem_of_omap.
  intros ([id0 unit0] & Hin & Hkeep). simpl in Hkeep. unfold keepUnit in Hkeep.
  destruct (negb _ && negb _) eqn:Hb; [done |]. injection Hkeep as <- <-.
  exists unit0. split; [done |]. split; [done |].
  apply andb_false_iff in Hb as [Hb|Hb]; apply negb_false_iff in Hb; auto.
Qed.

Lemma viewCache_elem pass type category c :
  (type, category) ∈ viewCache pass c ->
  exists category0, (type, category0) ∈ c /\ category = viewCategory pass category0
    /\ category <> [].
Proof.
  unfold viewCache. rewrite list_elem_of_omap.
  intros ([type0 category0] & Hin & Hkeep). simpl in Hkeep.
  unfold keepCategory in Hkeep.
  destruct (decide _) as [|Hne]; [done |]. injection Hkeep as <- <-.
  exists category0. split; [done |]. split; [done |].
  intros Hnil. by rewrite Hnil in Hne.
Qed.

(** The unit the view has under an identifier: the unit of the cache with
    its declarations and definitions filtered, if one of them passes. *)
Lemma unit_of_viewCache pass c type id :
  wf_cache c ->
  unit_of (viewCache pass c) type id
  = unit_of c type id ≫= fun unit0 => keepUnit (viewUnit pass unit0).
Proof.
  intros [Hnd Hcats]. unfold unit_of, viewCache.
  rewrite (get_omap_keep (fun category => keepCategory (viewCategory pass category)))
    by done.
  destruct (get type c) as [category0|] eqn:Hcat; [|done]. simpl.
  apply get_Some_elem in Hcat. rewrite Forall_forall in Hcats.
  specialize (Hcats _ Hcat). simpl in Hcats.
  rewrite <- (get_omap_keep (fun unit0 => keepUnit (viewUnit pass unit0)))
    by done.
  fold (viewCategory pass category0). unfold keepCategory.
  destruct (decide _) as [Hlen|]; [|done]. simpl.
  by destruct (viewCategory pass category0).
Qed.

Lemma unit_locs_viewUnit pass unit : unit_locs (viewUnit pass unit) ⊆ unit_locs unit.
Proof.
  intros p. unfold unit_locs, unit_positions.
  destruct unit as [d [a|] [b|] [c'|]]; simpl; rewrite ?elem_of_app;
    rewrite ?list_elem_of_In, ?filter_In; tauto.
Qed.

Lemma cache_locs_viewCache pass c : cache_locs (viewCache pass c) ⊆ cache_locs c.
Proof.
  intros p. rewrite !elem_of_cache_locs.
  intros (type & category & Hcat & Hp).
  apply viewCache_elem in Hcat as (category0 & Hcat & -> & _).
  exists type, category0. split; [done |].
  apply elem_of_category_locs in Hp as (id & unit & Hunit & Hp).
  apply viewCategory_elem in Hunit as (unit0 & Hunit & -> & _).
  apply elem_of_category_locs. exists id, unit0. split; [done |].
  by apply (unit_locs_viewUnit pass).
Qed.
End ViewFacts.

(** ** [getCacheForID] *)

Lemma viewCategory_forKeys {P} (pass : P -> bool) (category : CacheCategory P) :
  NoDup (keys category) ->
  forKeys (fun _ unit => keepUnit (viewUnit pass unit)) (keys category) category
  = viewCategory pass category.
Proof. intros Hnd. by rewrite forKeys_NoDup. Qed.

Lemma viewCache_forKeys {P} (pass : P -> bool) (c : ClientCache P) :
  wf_cache c ->
  forKeys (fun _ category =>
    keepCategory (forKeys (fun _ unit => keepUnit (viewUnit pass unit))
                    (keys category) category)) (keys c) c
  = viewCache pass c.
Proof.
  intros [Hnd Hcats]. rewrite forKeys_NoDup by done. unfold viewCache.
  apply omap_ext_Forall. eapply Forall_impl; [exact Hcats |].
  intros [type category] Hcat. simpl in *. by rewrite viewCategory_forKeys.
Qed.

Section GetCacheForID.
Context {IdentityNode : Type} `{IdentityOps IdentityNode}.
Variable fuel : nat.
Variable service : DatapackLanguageService IdentityNode.
Variable forType : FileType.
Variable forID : IdentityNode.
Variable config : Config.

#[local] Abbreviation visible_ := (visible fuel service forType forID config).
#[local] Abbreviation trimPositions_ :=
  (trimPositions fuel service forType forID config).
#[local] Abbreviation getCacheForID_ :=
  (getCacheForID fuel service forType forID config).
#[local] Abbreviation passes_ := (passes fuel service forType forID config).

Lemma trimPositions_result st unit t unit' log :
  trimPositions_ st unit t = Ok unit' log ->
  unit' = unit_set t (List.filter (passes_ st) <$> unit_get t unit) unit.
Proof.
  unfold trimPositions. destruct (unit_get t unit) as [arr|]; simpl.
  - intros (arr' & log1 & log2 & Harr & Hret & _)%bind_Ok.
    injection Hret as <- _. by apply filterRes_filter in Harr as ->.
  - by intros [= <-].
Qed.

Lemma trimUnit_result st unit r log :
  (unit ← trimPositions_ st unit Dcl;
   unit ← trimPositions_ st unit Def;
   mret (if negb (has_length Dcl unit) && negb (has_length Def unit)
         then None else Some unit)) = Ok r log ->
  r = keepUnit (viewUnit (passes_ st) unit).
Proof.
  intros (unit1 & log1 & log2 & H1 & Hrest & _)%bind_Ok.
  apply bind_Ok in Hrest as (unit2 & log3 & log4 & H2 & Hret & _).
  injection Hret as <- _.
  apply trimPositions_result in H1 as ->. apply trimPositions_result in H2 as ->.
  by destruct unit.
Qed.

Lemma getCacheForID_result st ans st' log :
  wf_cache (rfdc (cache service) st).1 ->
  getCacheForID_ st = Ok (ans, st') log ->
  st' = (rfdc (cache service) st).2
  /\ ans = viewCache (passes_ st') (rfdc (cache service) st).1.
Proof.
  intros Hwf. unfold getCacheForID.
  destruct (rfdc (cache service) st) as [ans0 st1]. simpl in *.
  intros (ans1 & log1 & log2 & Hloop & Hret & _)%bind_Ok.
  injection Hret as <- <- _. split; [done |].
  rewrite <- viewCache_forKeys by done.
  eapply forKeysRes_forKeys; [|exact Hloop].
  intros type category r log0 (category' & log3 & log4 & Hcat & Hret & _)%bind_Ok.
  injection Hret as <- _.
  eapply forKeysRes_forKeys in Hcat;
    [|intros id unit r log5; apply trimUnit_result].
  by rewrite Hcat.
Qed.

Lemma trimPositions_returns st unit t :
  Forall (fun l => returns (visible_ (deref st l))) (unit_positions t unit) ->
  returns (trimPositions_ st unit t).
Proof.
  unfold trimPositions, unit_positions. destruct (unit_get t unit) as [arr|]; simpl.
  - intros Harr. apply bind_returns; [by apply filterRes_returns | done].
  - done.
Qed.

Lemma getCacheForID_returns st :
  wf_cache (rfdc (cache service) st).1 ->
  Forall (fun l => returns (visible_ (deref (rfdc (cache service) st).2 l)))
    (tested_positions (rfdc (cache service) st).1) ->
  returns (getCacheForID_ st).
Proof.
  unfold getCacheForID. destruct (rfdc (cache service) st) as [ans0 st1]. simpl.
  intros [Hnd Hcats] Htested. apply Forall_tested_positions in Htested.
  apply bind_returns; [|done]. apply forKeysRes_returns; [done |].
  apply Forall_forall. intros [type category] Hin. simpl.
  rewrite Forall_forall in Hcats, Htested.
  specialize (Hcats _ Hin). specialize (Htested _ Hin). simpl in *.
  apply bind_returns; [|done]. apply forKeysRes_returns; [done |].
  eapply Forall_impl; [exact Htested |]. intros [id unit] [Hdcl Hdef]. simpl in *.
  apply bind_returns; [by apply trimPositions_returns |].
  intros unit1 log1 ->%trimPositions_result.
  apply bind_returns; [|done]. apply trimPositions_returns.
  by destruct unit.
Qed.

(** What a call of [getCacheForID] does, when the shared cache has distinct
    keys and live references and the tests return: it returns; the store has
    only grown; the result refers to new objects only; and it reads as the
    view of the shared cache. *)
Lemma getCacheForID_spec st :
  wf_cache (cache service) ->
  Forall (fun l => (l < length st)%nat) (cache_locs (cache service)) ->
  Forall (fun p => returns (visible_ p))
    (tested_positions (deref_cache st (cache service))) ->
  exists ans st' log added,
    getCacheForID_ st = Ok (ans, st') log
    /\ st' = st ++ added
    /\ Forall (fun l => (length st <= l < length st')%nat) (cache_locs ans)
    /\ deref_cache st' ans
       = viewCache (accepted visible_) (deref_cache st (cache service)).
Proof.
  intros Hwf Hvalid Htested.
  destruct (rfdc_clones (cache service) st) as ([added Hadd] & Hfresh & Hcopy).
  specialize (Hcopy Hvalid).
  assert (Hwf0 : wf_cache (rfdc (cache service) st).1).
  { apply (wf_map_cache (deref (rfdc (cache service) st).2)).
    rewrite <- deref_cache_map_cache, Hcopy. by apply wf_map_cache. }
  assert (Hret : returns (getCacheForID_ st)).
  { apply getCacheForID_returns; [done |].
    rewrite <- Hcopy, deref_cache_map_cache, tested_positions_map_cache in Htested.
    rewrite Forall_map in Htested. exact Htested. }
  apply returns_Ok in Hret as ([ans st'] & log & Hres).
  destruct (getCacheForID_result st ans st' log Hwf0 Hres) as [-> ->].
  exists (viewCache (passes_ (rfdc (cache service) st).2) (rfdc (cache service) st).1),
    (rfdc (cache service) st).2, log, added.
  split; [done |]. split; [done |]. split.
  - rewrite Forall_forall in Hfresh. apply Forall_forall. intros l Hl.
    apply Hfresh. by apply (cache_locs_viewCache (passes_ (rfdc (cache service) st).2)).
  - rewrite <- Hcopy, !deref_cache_map_cache.
    apply (viewCache_map_cache (accepted visible_)
             (deref (rfdc (cache service) st).2)).
Qed.

(** C1, as the code has it: the unit the result has under an identifier is
    the unit of the shared cache with its declarations and definitions
    filtered by the visibility test, its references and documentation as
    they are ([viewUnit]), when a declaration or definition is left, and
    there is no unit otherwise ([keepUnit]); so the result holds only
    declarations and definitions that pass the test; and no category of the
    result is empty. *)
Theorem getCacheForID_view st :
  wf_cache (cache service) ->
  Forall (fun l => (l < length st)%nat) (cache_locs (cache service)) ->
  Forall (fun p => returns (visible_ p))
    (tested_positions (deref_cache st (cache service))) ->
  exists ans st' log,
    getCacheForID_ st = Ok (ans, st') log
    /\ (forall type id,
          unit_of (deref_cache st' ans) type id
          = unit_of (deref_cache st (cache service)) type id
            ≫= fun unit0 => keepUnit (viewUnit (accepted visible_) unit0))
    /\ (forall type id unit p,
          unit_of (deref_cache st' ans) type id = Some unit ->
          p ∈ unit_positions Dcl unit ++ unit_positions Def unit ->
          exists log', visible_ p = Ok true log')
    /\ (forall type category,
          get type (deref_cache st' ans) = Some category -> category <> []).
Proof.
  intros Hwf Hvalid Htested.
  destruct (getCacheForID_spec st Hwf Hvalid Htested)
    as (ans & st' & log & added & Hres & _ & _ & Hview).
  exists ans, st', log. split; [done |]. rewrite Hview.
  assert (Hwfs : wf_cache (deref_cache st (cache service))).
  { rewrite deref_cache_map_cache. by apply wf_map_cache. }
  split; [|split].
  - intros type id. by apply unit_of_viewCache.
  - intros type id unit p. rewrite unit_of_viewCache by done.
    destruct (unit_of _ type id) as [unit0|]; [|done]. simpl.
    unfold keepUnit. destruct (_ && _); [done |]. intros [= <-].
    assert (Hacc : accepted visible_ p = true -> exists log', visible_ p = Ok true log').
    { unfold accepted. destruct (visible_ p) as [[|] log'| |]; try done. eauto. }
    unfold unit_positions. rewrite elem_of_app.
    destruct unit0 as [d [a|] [b|] c']; simpl;
      rewrite ?list_elem_of_In, ?filter_In; intros [Hp|Hp];
      try (by apply elem_of_nil in Hp); try (by destruct Hp); apply Hacc, Hp.
  - intros type category Hcat.
    by apply get_Some_elem, viewCache_elem in Hcat as (_ & _ & _ & Hne).
Qed.

End GetCacheForID.

Lemma getCacheForID_view_witness :
  (wf_cache (cache sample_service)
   /\ Forall (fun l => (l < length shared_store)%nat) (cache_locs (cache sample_service))
   /\ Forall (fun p => returns (visible 3 sample_service function (sample_id "a" "x")
                               public_config p))
        (tested_positions (deref_cache shared_store (cache sample_service))))
  /\ exists ans st' log,
       getCacheForID 3 sample_service function (sample_id "a" "x") public_config
         shared_store = Ok (ans, st') log.
Proof.
  assert (Hwf : wf_cache (cache sample_service)) by by_evaluation.
  assert (Hvalid : Forall (fun l => (l < length shared_store)%nat)
                     (cache_locs (cache sample_service)))
    by by_evaluation.
  assert (Htested : Forall (fun p => returns (visible 3 sample_service function
                                                (sample_id "a" "x") public_config p))
                      (tested_positions (deref_cache shared_store (cache sample_service))))
    by by_evaluation.
  split; [done |].
  destruct (getCacheForID_view 3 sample_service function (sample_id "a" "x")
              public_config shared_store Hwf Hvalid Htested)
    as (ans & st' & log & Hres & _).
  by exists ans, st', log.
Defined.

(** C1 as stated fails: the view for [a:x] keeps the unit [a:x] with its
    visible declaration, and with it the reference of the unit, cloned and
    not filtered. *)
Lemma getCacheForID_keeps_references :
  ~ (forall ans st' log,
       getCacheForID 3 sample_service function (sample_id "a" "x") public_config
         shared_store = Ok (ans, st') log ->
       forall type id, positions_at ans type id Ref = []).
Proof.
  intros Hclaim.
  specialize (Hclaim _ _ _ eq_refl (file_type function) "a:x"). discriminate.
Qed.

Example getCacheForID_sample :
  exists st',
    getCacheForID 3 sample_service function (sample_id "a" "x") public_config
      shared_store
    = Ok ([ (file_type function,
              [ ("a:x", {| doc := Some "doc of x"; dcl := Some [3%nat];
                           def := None; ref := Some [4%nat] |}) ]) ], st') []
    /\ deref st' 3 = private_declaration
    /\ deref st' 4 = position 10 13.
Proof. eexists. repeat split; reflexivity. Qed.

(** The end-to-end example of the specification: the private function is
    hidden from the function [b:y]. *)
Example getCacheForID_hides_private :
  exists st',
    getCacheForID 3 sample_service function (sample_id "b" "y") public_config
      shared_store = Ok ([], st') [].
Proof. eexists. reflexivity. Qed.

(** ** The type registry *)

(** A disjunction of comparisons with literals holds for the literals
    only. *)
Ltac split_literals H :=
  repeat (apply orb_prop in H as [H|H]); apply String.eqb_eq in H; subst.

Lemma all_cache_types_complete t : t ∈ all_cache_types.
Proof.
  destruct t as [[| | | | | | |[]|[]]|[| | | | | | | |[]]];
    apply list_elem_of_In; vm_compute; tauto.
Qed.

Lemma CacheType_name_inj t1 t2 : CacheType_name t1 = CacheType_name t2 -> t1 = t2.
Proof.
  destruct t1 as [[| | | | | | |[]|[]]|[| | | | | | | |[]]];
    destruct t2 as [[| | | | | | |[]|[]]|[| | | | | | | |[]]];
    simpl; intros Heq; first [reflexivity | discriminate Heq].
Qed.

(** [isCacheType] accepts exactly the keys of the cache types, and different
    cache types have different keys; [isFileType] and [isMiscType] accept
    the keys of the file types and of the other types.  There are 31 keys:
    those of the 20 file types and of the 11 other types (8 miscellaneous
    types, [color] among them, and 3 alias types). *)
Theorem isCacheType_names value :
  (isCacheType value = true <-> exists t, CacheType_name t = value)
  /\ (isFileType value = true <-> exists t, FileType_name t = value)
  /\ (isMiscType value = true <-> exists t, MiscType_name t = value)
  /\ (forall t1 t2, CacheType_name t1 = CacheType_name t2 -> t1 = t2)
  /\ (isCacheType value = true <-> value ∈ map CacheType_name all_cache_types)
  /\ NoDup (map CacheType_name all_cache_types)
  /\ length (map CacheType_name all_cache_types) = 31%nat
  /\ length (List.filter isFileType (map CacheType_name all_cache_types)) = 20%nat
  /\ length (List.filter isMiscType (map CacheType_name all_cache_types)) = 11%nat
  /\ length (List.filter isAliasType (map CacheType_name all_cache_types)) = 3%nat.
Proof.
  assert (Hfile : isFileType value = true <-> exists t, FileType_name t = value).
  { split.
    - intros Hv. unfold isFileType, isTagFileType, isWorldgenRegistryFileType in Hv.
      split_literals Hv;
        first [ by exists advancement | by exists dimension
              | by exists dimension_type | by exists function
              | by exists loot_table | by exists predicate | by exists recipe
              | by exists (tag_file tag_block)
              | by exists (tag_file tag_entity_type)
              | by exists (tag_file tag_fluid) | by exists (tag_file tag_function)
              | by exists (tag_file tag_item)
              | by exists (worldgen_file worldgen_biome)
              | by exists (worldgen_file worldgen_configured_carver)
              | by exists (worldgen_file worldgen_configured_decorator)
              | by exists (worldgen_file worldgen_configured_feature)
              | by exists (worldgen_file worldgen_configured_structure_feature)
              | by exists (worldgen_file worldgen_configured_surface_builder)
              | by exists (worldgen_file worldgen_processor_list)
              | by exists (worldgen_file worldgen_template_pool) ].
    - intros [t <-]. by destruct t as [| | | | | | |[]|[]]. }
  assert (Hmisc : isMiscType value = true <-> exists t, MiscType_name t = value).
  { split.
    - intros Hv. unfold isMiscType, isAliasType in Hv.
      split_literals Hv;
        first [ by exists bossbar | by exists entity | by exists objective
              | by exists score_holder | by exists storage | by exists tag
              | by exists team | by exists color | by exists (alias alias_entity)
              | by exists (alias alias_uuid) | by exists (alias alias_vector) ].
    - intros [t <-]. by destruct t as [| | | | | | | |[]]. }
  assert (Hcache : isCacheType value = true <-> exists t, CacheType_name t = value).
  { unfold isCacheType. rewrite orb_true_iff, Hfile, Hmisc. split.
    - intros [[t <-]|[t <-]]; [by exists (file_type t) | by exists (misc_type t)].
    - intros [[t|t] <-]; [left | right]; by exists t. }
  split_and!; [done | done | done | apply CacheType_name_inj | | | done ..].
  - rewrite Hcache, list_elem_of_fmap. split.
    + intros [t <-]. exists t. split; [done | apply all_cache_types_complete].
    + intros (t & -> & _). by exists t.
  - by_evaluation.
Qed.

(** No string is both a file type and a miscellaneous type; the tag and the
    worldgen types are file types and differ; the alias and the internal
    types are miscellaneous types; the namespaced types are cache types,
    contain the file types and no internal type. *)
Theorem classification_consistent type :
  (isFileType type && isMiscType type = false)
  /\ (isTagFileType type = true -> isFileType type = true)
  /\ (isWorldgenRegistryFileType type = true -> isFileType type = true)
  /\ (isTagFileType type && isWorldgenRegistryFileType type = false)
  /\ (isAliasType type = true -> isInternalType type = true)
  /\ (isInternalType type = true -> isMiscType type = true)
  /\ (isFileType type = true -> isNamespacedType type = true)
  /\ (isNamespacedType type = true -> isCacheType type = true)
  /\ (isNamespacedType type && isInternalType type = false).
Proof.
  split_and!.
  - destruct (isFileType type) eqn:Hf; [|done]. simpl.
    unfold isFileType, isTagFileType, isWorldgenRegistryFileType in Hf.
    split_literals Hf; reflexivity.
  - intros Hv. unfold isTagFileType in Hv. split_literals Hv; reflexivity.
  - intros Hv. unfold isWorldgenRegistryFileType in Hv.
    split_literals Hv; reflexivity.
  - destruct (isTagFileType type) eqn:Hv; [|done]. simpl.
    unfold isTagFileType in Hv. split_literals Hv; reflexivity.
  - intros Hv. unfold isAliasType in Hv. split_literals Hv; reflexivity.
  - intros Hv. unfold isInternalType, isAliasType in Hv.
    split_literals Hv; reflexivity.
  - intros Hv. unfold isNamespacedType. rewrite Hv. by rewrite orb_true_r.
  - intros Hv. unfold isNamespacedType, isFileType, isTagFileType,
      isWorldgenRegistryFileType in Hv. split_literals Hv; reflexivity.
  - destruct (isInternalType type) eqn:Hv; [|by rewrite andb_false_r].
    unfold isInternalType, isAliasType in Hv. split_literals Hv; reflexivity.
Qed.

(** The table [FileTypes] lists the strings [isFileType] accepts, each once;
    the table [DeclarableCacheTypes] lists the cache types that are not
    internal, each once. *)
Theorem type_tables_consistent type :
  (type ∈ FileTypes <-> isFileType type = true)
  /\ (type ∈ DeclarableCacheTypes
      <-> isCacheType type = true /\ isInternalType type = false)
  /\ NoDup FileTypes /\ NoDup DeclarableCacheTypes.
Proof.
  split_and!.
  - split.
    + intros Hin. apply list_elem_of_In in Hin. simpl in Hin.
      repeat (destruct Hin as [<-|Hin]; [reflexivity |]). done.
    + intros Hv. unfold isFileType, isTagFileType, isWorldgenRegistryFileType in Hv.
      split_literals Hv; apply list_elem_of_In; simpl; tauto.
  - split.
    + intros Hin. apply list_elem_of_In in Hin. simpl in Hin.
      repeat (destruct Hin as [<-|Hin]; [by split |]). done.
    + intros [Hv Hint]. unfold isCacheType, isFileType, isTagFileType,
        isWorldgenRegistryFileType, isMiscType, isAliasType in Hv.
      split_literals Hv; first [discriminate Hint | apply list_elem_of_In; simpl; tauto].
  - by_evaluation.
  - by_evaluation.
Qed.

(** [getFileTypeFromCategory] undoes a plural: it drops the [s] added to any
    name, and leaves [dimension] and [dimension_type] as they are. *)
Theorem getFileTypeFromCategory_singular name :
  getFileTypeFromCategory (name +:+ "s") = name
  /\ getFileTypeFromCategory "dimension" = "dimension"
  /\ getFileTypeFromCategory "dimension_type" = "dimension_type".
Proof.
  split; [|done]. unfold getFileTypeFromCategory.
  assert (Hchars : chars (name +:+ "s") = chars name ++ ["s"%char]).
  { unfold chars. induction name as [|c name IH]; simpl; [done | by rewrite IH]. }
  assert (Hdrop : drop_last (name +:+ "s") = name).
  { unfold drop_last. rewrite Hchars, removelast_last.
    apply string_of_list_ascii_of_string. }
  destruct (_ || _) eqn:Hd; [|done].
  apply orb_prop in Hd as [Hd|Hd]; apply String.eqb_eq in Hd;
    apply (f_equal chars) in Hd; rewrite Hchars in Hd;
    apply (f_equal (@rev ascii)) in Hd; rewrite rev_unit in Hd; discriminate Hd.
Qed.

(** ** [removeCachePosition], [removeCacheUnit], [setUpUnit] *)

Lemma unit_of_map_values {P Q} (f : CacheUnit P -> CacheUnit Q) (c : ClientCache P)
    type id :
  unit_of (map_values (map_values f) c) type id = f <$> unit_of c type id.
Proof.
  unfold unit_of. rewrite get_map_values.
  destruct (get type c) as [category|]; simpl; [|done]. apply get_map_values.
Qed.

Lemma wf_map_values {P Q} (f : CacheUnit P -> CacheUnit Q) (c : ClientCache P) :
  wf_cache c -> wf_cache (map_values (map_values f) c).
Proof.
  intros [Hnd Hcats]. split; [by rewrite keys_map_values |].
  unfold map_values at 1. rewrite Forall_map.
  eapply Forall_impl; [exact Hcats |]. intros [type category]; simpl.
  by rewrite keys_map_values.
Qed.

Lemma cache_locs_map_values {P Q} (f : CacheUnit P -> CacheUnit Q)
    (g : list P -> list Q) (c : ClientCache P) :
  g [] = [] -> (forall l1 l2, g (l1 ++ l2) = g l1 ++ g l2) ->
  (forall unit, unit_locs (f unit) = g (unit_locs unit)) ->
  cache_locs (map_values (map_values f) c) = g (cache_locs c).
Proof.
  intros Hnil Happ Hunit. unfold cache_locs.
  induction c as [|[type category] c IH]; simpl; [done |].
  rewrite Happ, IH. f_equal. unfold category_locs.
  induction category as [|[id unit] category IHc]; simpl; [done |].
  by rewrite Happ, IHc, Hunit.
Qed.

Lemma removeUnitPosition_get uri_ t unit :
  unit_get t (removeUnitPosition uri_ unit)
  = List.filter (other_document uri_) <$> unit_get t unit.
Proof. by destruct unit as [d [a|] [b|] [c|]], t. Qed.

Lemma removeUnitPosition_doc uri_ unit : doc (removeUnitPosition uri_ unit) = doc unit.
Proof. by destruct unit as [d [a|] [b|] [c|]]. Qed.

Lemma removeUnitPosition_locs uri_ unit :
  unit_locs (removeUnitPosition uri_ unit)
  = List.filter (other_document uri_) (unit_locs unit).
Proof.
  unfold unit_locs, unit_positions. rewrite !removeUnitPosition_get.
  rewrite !List.filter_app.
  by destruct (unit_get Dcl unit), (unit_get Def unit), (unit_get Ref unit).
Qed.

Lemma removeCachePosition_map_values c uri_ :
  wf_cache c ->
  removeCachePosition c uri_ = map_values (map_values (removeUnitPosition uri_)) c.
Proof.
  intros [Hnd Hcats]. unfold removeCachePosition.
  rewrite forKeys_map_values by done. unfold map_values at 1.
  apply map_ext_Forall. eapply Forall_impl; [exact Hcats |].
  intros [type category] Hcat. simpl in *. f_equal.
  by rewrite forKeys_map_values.
Qed.

(** [removeCachePosition] removes, from every sequence, exactly the positions
    of the document and keeps the others in order; it removes no type and no
    unit, also when a unit is left without positions, and keeps every
    documentation string. *)
Theorem removeCachePosition_exact c uri_ :
  wf_cache c ->
  keys (removeCachePosition c uri_) = keys c
  /\ (forall type id,
        unit_of (removeCachePosition c uri_) type id
        = removeUnitPosition uri_ <$> unit_of c type id)
  /\ (forall unit t,
        unit_get t (removeUnitPosition uri_ unit)
        = List.filter (fun ele => negb (bool_decide (uri ele = Some uri_)))
            <$> unit_get t unit)
  /\ (forall unit, doc (removeUnitPosition uri_ unit) = doc unit)
  /\ Forall (fun ele => uri ele <> Some uri_)
       (cache_locs (removeCachePosition c uri_)).
Proof.
  intros Hwf. rewrite removeCachePosition_map_values by done. split_and!.
  - apply keys_map_values.
  - intros type id. apply unit_of_map_values.
  - intros unit t. apply removeUnitPosition_get.
  - apply removeUnitPosition_doc.
  - rewrite (cache_locs_map_values _ (List.filter (other_document uri_)));
      [| done | apply List.filter_app | apply removeUnitPosition_locs].
    apply Forall_forall. intros ele [_ Hother]%list_elem_of_In%filter_In.
    unfold other_document in Hother. apply negb_true_iff in Hother.
    by apply bool_decide_eq_false in Hother.
Qed.

Lemma removeCachePosition_exact_witness :
  wf_cache sample_cache
  /\ keys (removeCachePosition sample_cache "file:///x") = keys sample_cache.
Proof.
  split; [by_evaluation |].
  apply (removeCachePosition_exact sample_cache "file:///x"). by_evaluation.
Defined.

(** ** [trimCache] and the other operations *)

Lemma get_filter_NoDup {K V} `{EqDecision K} (Q : K * V -> Prop)
    `{forall e, Decision (Q e)} (o : Obj K V) k :
  NoDup (keys o) ->
  get k (filter Q o) = get k o ≫= fun v => if decide (Q (k, v)) then Some v else None.
Proof.
  induction o as [|[k' v] o IH]; simpl; [done |].
  intros [Hk' Hnd]%NoDup_cons. specialize (IH Hnd). rewrite filter_cons.
  destruct (decide (k' = k)) as [->|Hne]; simpl.
  - destruct (decide (Q (k, v))); simpl; [by rewrite decide_True |].
    rewrite IH. apply get_None in Hk'. by rewrite Hk'.
  - destruct (decide (Q (k', v))); simpl; [by rewrite decide_False |]. done.
Qed.

Section TrimMore.
Context {P : Type}.
Implicit Types (unit : CacheUnit P) (category : CacheCategory P) (c : ClientCache P).

Lemma garbage_locs unit : garbage unit = true -> unit_locs unit = [].
Proof.
  intros (Hd & He & Hr)%garbage_true. unfold unit_locs. by rewrite Hd, He, Hr.
Qed.

Lemma unit_of_trimmed c type id :
  wf_cache c ->
  unit_of (trimmed c) type id
  = unit_of c type id ≫= fun unit => if garbage unit then None else Some unit.
Proof.
  intros [Hnd Hcats]. unfold unit_of.
  assert (Hkeep : trimmed c
                  = omap (fun e => (fun category => (e.1, category))
                                     <$> keepCategory (trimCategory e.2)) c).
  { unfold trimmed. apply omap_ext_Forall, Forall_forall.
    intros [type' category] _. simpl. unfold keepCategory.
    by destruct (trimCategory category). }
  rewrite Hkeep.
  rewrite (get_omap_keep (fun category => keepCategory (trimCategory category)))
    by done.
  destruct (get type c) as [category|] eqn:Hcat; [|done]. simpl.
  apply get_Some_elem in Hcat. rewrite Forall_forall in Hcats.
  specialize (Hcats _ Hcat). simpl in Hcats.
  assert (Hget : get id (trimCategory category)
                 = get id category ≫= fun unit => if garbage unit then None else Some unit).
  { unfold trimCategory. rewrite get_filter_NoDup by done.
    destruct (get id category) as [unit|]; [|done]. simpl.
    destruct (garbage unit); by case_decide. }
  rewrite <- Hget. unfold keepCategory. by destruct (trimCategory category).
Qed.

Lemma category_locs_trimCategory category :
  category_locs (trimCategory category) = category_locs category.
Proof.
  unfold category_locs, trimCategory.
  induction category as [|[id unit] category IH]; [done |].
  rewrite filter_cons. simpl. destruct (garbage unit) eqn:Hg.
  - rewrite decide_False by done. by rewrite garbage_locs.
  - rewrite decide_True by done. simpl. by rewrite IH.
Qed.

Lemma cache_locs_trimmed c : cache_locs (trimmed c) = cache_locs c.
Proof.
  unfold cache_locs, trimmed. induction c as [|[type category] c IH]; [done |].
  csimpl. rewrite <- (category_locs_trimCategory category).
  destruct (trimCategory category); csimpl; by rewrite IH.
Qed.

(** [trimCache] keeps every unit that has a position as it is, deletes the
    others, and so loses no position. *)
Theorem trimCache_keeps_positions c :
  wf_cache c ->
  (forall type id,
     unit_of (trimCache c) type id
     = unit_of c type id ≫= fun unit => if garbage unit then None else Some unit)
  /\ cache_locs (trimCache c) = cache_locs c.
Proof.
  intros Hwf. rewrite trimCache_trimmed by done.
  split; [intros type id; by apply unit_of_trimmed | apply cache_locs_trimmed].
Qed.
End TrimMore.

Lemma trimCache_keeps_positions_witness :
  wf_cache sample_cache /\ cache_locs (trimCache sample_cache) = cache_locs sample_cache.
Proof.
  split; [by_evaluation |].
  apply (trimCache_keeps_positions sample_cache). by_evaluation.
Defined.

Lemma bind_ext_Forall {A B} (f g : A -> list B) (l : list A) :
  Forall (fun x => f x = g x) l -> l ≫= f = l ≫= g.
Proof.
  induction 1 as [|x l Hx _ IH]; [done |]. by rewrite !bind_cons, Hx, IH.
Qed.

Lemma bind_omap {A B C} (h : A -> option B) (g : B -> list C) (l : list A) :
  omap h l ≫= g = l ≫= fun x => from_option g [] (h x).
Proof.
  induction l as [|x l IH]; [done |]. rewrite bind_cons, <- IH. csimpl.
  destruct (h x); [by rewrite bind_cons | done].
Qed.

Lemma bind_filter {A B} (Q : A -> Prop) `{forall x, Decision (Q x)}
    (g : A -> list B) (l : list A) :
  filter Q l ≫= g = l ≫= fun x => if decide (Q x) then g x else [].
Proof.
  induction l as [|x l IH]; [done |]. rewrite bind_cons, <- IH, filter_cons.
  destruct (decide (Q x)); [by rewrite bind_cons | done].
Qed.

Lemma scan_order_trimmed (c : ClientCache CachePosition) :
  scan_order (trimmed c) = scan_order c.
Proof.
  unfold scan_order, trimmed. rewrite bind_omap.
  apply bind_ext_Forall, Forall_forall. intros [type category] _. cbn [fst snd].
  assert (Hcat : (trimCategory category ≫= fun u =>
                    CacheUnitPositionTypes ≫= fun t =>
                      unit_positions t u.2 ≫= fun ele => [(type, u.1, ele)])
                 = (category ≫= fun u =>
                      CacheUnitPositionTypes ≫= fun t =>
                        unit_positions t u.2 ≫= fun ele => [(type, u.1, ele)])).
  { unfold trimCategory. rewrite bind_filter.
    apply bind_ext_Forall, Forall_forall. intros [id unit] _. cbn [fst snd].
    destruct (garbage unit) eqn:Hg; [|by rewrite decide_True].
    rewrite decide_False by done.
    apply garbage_true in Hg as (Hd & He & Hr).
    unfold CacheUnitPositionTypes. rewrite !bind_cons, Hd, He, Hr. done. }
  rewrite <- Hcat. by destruct (trimCategory category).
Qed.

(** A point query gives the same answer before and after [trimCache]. *)
Theorem getCacheFromOffset_trimCache cache offset :
  wf_cache cache ->
  getCacheFromOffset (trimCache cache) offset = getCacheFromOffset cache offset.
Proof.
  intros Hwf. rewrite trimCache_trimmed by done.
  rewrite !getCacheFromOffset_scan by (done || by apply wf_trimmed).
  by rewrite scan_order_trimmed.
Qed.

Lemma getCacheFromOffset_trimCache_witness :
  wf_cache sample_cache
  /\ getCacheFromOffset (trimCache sample_cache) 2 = getCacheFromOffset sample_cache 2.
Proof.
  split; [by_evaluation |].
  apply (getCacheFromOffset_trimCache sample_cache 2). by_evaluation.
Defined.

(** Closing a document: [removeCachePosition] and then [trimCache] leave
    exactly the positions of the other documents, in their order, and no unit
    without a position. *)
Theorem removeCachePosition_trimCache c uri_ :
  wf_cache c ->
  let c' := trimCache (removeCachePosition c uri_) in
  cache_locs c' = List.filter (fun ele => negb (bool_decide (uri ele = Some uri_)))
                    (cache_locs c)
  /\ Forall (fun ele => uri ele <> Some uri_) (cache_locs c')
  /\ (forall type id unit, unit_of c' type id = Some unit -> unit_locs unit <> []).
Proof.
  intros Hwf c'. unfold c'. rewrite removeCachePosition_map_values by done.
  pose proof (wf_map_values (removeUnitPosition uri_) c Hwf) as Hwf'.
  rewrite trimCache_trimmed by done.
  assert (Hlocs : cache_locs (trimmed (map_values (map_values (removeUnitPosition uri_)) c))
                  = List.filter (other_document uri_) (cache_locs c)).
  { rewrite cache_locs_trimmed.
    apply (cache_locs_map_values _ (List.filter (other_document uri_)));
      [done | apply List.filter_app | apply removeUnitPosition_locs]. }
  split_and!.
  - exact Hlocs.
  - rewrite Hlocs. apply Forall_forall.
    intros ele [_ Hother]%list_elem_of_In%filter_In.
    unfold other_document in Hother. apply negb_true_iff in Hother.
    by apply bool_decide_eq_false in Hother.
  - intros type id unit. rewrite unit_of_trimmed by done.
    destruct (unit_of _ type id) as [unit0|]; [|done]. simpl.
    destruct (garbage unit0) eqn:Hg; [done |]. intros [= <-] Hnil.
    assert (garbage unit0 = true); [|congruence].
    apply garbage_true. unfold unit_locs in Hnil.
    apply app_eq_nil in Hnil as [Hd [He Hr]%app_eq_nil]. done.
Qed.

Lemma removeCachePosition_trimCache_witness :
  wf_cache documents_cache
  /\ cache_locs (trimCache (removeCachePosition documents_cache "file:///y"))
     = [position_in "file:///x" 0 3; position_in "file:///x" 10 13].
Proof.
  split; [by_evaluation |].
  apply (removeCachePosition_trimCache documents_cache "file:///y"). by_evaluation.
Defined.

Section TrimRemap.
Context {IndexMapping : Type}.
Variable remapTextRange : CachePosition -> IndexMapping -> CachePosition.
Variable mapping : IndexMapping.

Lemma garbage_remapUnit unit :
  garbage (remapUnit remapTextRange mapping unit) = garbage unit.
Proof. by destruct unit as [d [[|? ?]|] [[|? ?]|] [[|? ?]|]]. Qed.

Lemma trimCategory_map_values (f : CacheUnit CachePosition -> CacheUnit CachePosition)
    category :
  (forall unit, garbage (f unit) = garbage unit) ->
  trimCategory (map_values f category) = map_values f (trimCategory category).
Proof.
  intros Hf. unfold trimCategory, map_values.
  induction category as [|[id unit] category IH]; [done |].
  cbn [map]. rewrite !filter_cons. cbn [fst snd]. rewrite Hf.
  destruct (decide (garbage unit = false)); cbn [map]; by rewrite IH.
Qed.

(** Trimming and remapping commute: remapping keeps the length of every
    sequence, so the same units are deleted either way. *)
Theorem trimCache_remapCachePosition c :
  wf_cache c ->
  trimCache (remapCachePosition remapTextRange c mapping)
  = remapCachePosition remapTextRange (trimCache c) mapping.
Proof.
  intros Hwf. rewrite (remapCachePosition_map_values _ _ c) by done.
  rewrite trimCache_trimmed by by apply wf_map_values.
  rewrite (trimCache_trimmed c) by done.
  rewrite remapCachePosition_map_values by by apply wf_trimmed.
  unfold trimmed. unfold map_values at 1 3.
  symmetry. apply omap_map_commute. intros [type category]. simpl.
  rewrite trimCategory_map_values by apply garbage_remapUnit.
  by destruct (trimCategory category).
Qed.
End TrimRemap.

Lemma trimCache_remapCachePosition_witness :
  wf_cache sample_cache
  /\ trimCache (remapCachePosition shiftTextRange sample_cache 5)
     = remapCachePosition shiftTextRange (trimCache sample_cache) 5.
Proof.
  split; [by_evaluation |].
  apply (trimCache_remapCachePosition shiftTextRange 5 sample_cache). by_evaluation.
Defined.

(** ** [removeCacheUnit], [setUpUnit], [getCompletions] *)

Section ObjMore.
Context {K V : Type} `{EqDecision K} `{PropertyKey K}.
Implicit Types (o : Obj K V) (k : K) (v : V).

Lemma get_delete_key k k' o :
  get k' (delete_key k o) = if decide (k = k') then None else get k' o.
Proof.
  induction o as [|[k0 v0] o IH]; simpl; [by case_decide |].
  destruct (decide (k0 = k)) as [->|Hne]; simpl.
  - rewrite IH. by repeat case_decide.
  - rewrite IH. repeat case_decide; congruence.
Qed.

Lemma replace_key_same k v o : get k o = Some v -> replace_key k v o = o.
Proof.
  induction o as [|[k0 v0] o IH]; simpl; [done |].
  destruct (decide (k0 = k)) as [->|Hne]; [by intros [= ->] |].
  intros Hg. by rewrite IH.
Qed.

(** Writing the value a key already has changes nothing. *)
Lemma put_same k v o : get k o = Some v -> put k v o = o.
Proof. intros Hg. unfold put. rewrite Hg. by apply replace_key_same. Qed.

End ObjMore.

Section Units.
Context {P : Type}.
Implicit Types (c : ClientCache P) (unit : CacheUnit P).

Lemma removeCacheUnit_unit_of c type id type' id' :
  unit_of (removeCacheUnit c type id) type' id'
  = if decide (type = type' /\ id = id') then None else unit_of c type' id'.
Proof.
  unfold removeCacheUnit. destruct (get type c) as [category|] eqn:Hcat.
  - unfold unit_of. rewrite get_replace_key, Hcat. simpl.
    destruct (decide (type = type')) as [<-|Hne]; simpl.
    + rewrite Hcat. simpl. rewrite get_delete_key.
      destruct (decide (id = id')) as [<-|Hne'].
      * by rewrite decide_True.
      * by rewrite decide_False by tauto.
    + by rewrite decide_False by tauto.
  - destruct (decide (type = type' /\ id = id')) as [[<- <-]|]; [|done].
    unfold unit_of. by rewrite Hcat.
Qed.

(** [removeCacheUnit] deletes the unit of the identifier and nothing else: the
    other units and all the types stay, also the type whose category is left
    empty; on a cache without the type or the identifier it changes
    nothing of what can be looked up. *)
Theorem removeCacheUnit_exact c type id :
  keys (removeCacheUnit c type id) = keys c
  /\ forall type' id',
       unit_of (removeCacheUnit c type id) type' id'
       = if decide (type = type' /\ id = id') then None else unit_of c type' id'.
Proof.
  split; [|apply removeCacheUnit_unit_of].
  unfold removeCacheUnit. destruct (get type c); [apply keys_replace_key | done].
Qed.

Context {IdentityNode : Type} `{IdentityOps IdentityNode}.

Lemma setUpUnit_other_units c type (id : IdentityNode) defaultValue type' id' :
  ~ (type = type' /\ toString id = id') ->
  unit_of (setUpUnit (Some c) type id defaultValue).1 type' id' = unit_of c type' id'.
Proof.
  intros Hne. unfold setUpUnit, unit_of. simpl. rewrite get_put.
  destruct (decide (type = type')) as [<-|Hne']; simpl; [|done].
  rewrite get_put, decide_False by tauto.
  by destruct (get type c).
Qed.

(** [setUpUnit] fetches or creates: the unit returned is the unit the cache
    had under the identifier, or the default value; afterwards the cache has
    the returned unit there and every other unit as before; a cache that had
    the unit is left as it was, so a second call changes nothing and returns
    the same unit whatever its default value. *)
Theorem setUpUnit_fetch_or_create c type (id : IdentityNode) defaultValue :
  let r := setUpUnit (Some c) type id defaultValue in
  r.2 = default defaultValue (unit_of c type (toString id))
  /\ unit_of r.1 type (toString id) = Some r.2
  /\ (forall type' id',
        ~ (type = type' /\ toString id = id') ->
        unit_of r.1 type' id' = unit_of c type' id')
  /\ (is_Some (unit_of c type (toString id)) -> r.1 = c)
  /\ (forall defaultValue', setUpUnit (Some r.1) type id defaultValue' = r).
Proof.
  cbn zeta. unfold setUpUnit, unit_of. simpl.
  set (category := default [] (get type c)).
  set (unit := default defaultValue (get (toString id) category)).
  assert (Hunit : default defaultValue (get type c ≫= get (toString id)) = unit).
  { unfold unit, category. by destruct (get type c). }
  split_and!.
  - by rewrite Hunit.
  - rewrite get_put, decide_True by done. simpl.
    by rewrite get_put, decide_True.
  - intros type' id' Hne.
    exact (setUpUnit_other_units c type id defaultValue type' id' Hne).
  - intros [unit0 Hsome]. subst unit category.
    destruct (get type c) as [category0|] eqn:Hcat; [|done].
    simpl in *. rewrite Hsome. simpl.
    rewrite (put_same (toString id) unit0 category0 Hsome). by apply put_same.
  - intros defaultValue'. rewrite get_put, decide_True by done. simpl.
    rewrite get_put, decide_True by done. simpl.
    rewrite (put_same (toString id) unit (put (toString id) unit category))
      by (by rewrite get_put, decide_True).
    f_equal. apply put_same. by rewrite get_put, decide_True.
Qed.

(** Deleting the unit [setUpUnit] created gives back what could be looked up
    before. *)
Theorem removeCacheUnit_setUpUnit c type (id : IdentityNode) defaultValue :
  unit_of c type (toString id) = None ->
  forall type' id',
    unit_of (removeCacheUnit (setUpUnit (Some c) type id defaultValue).1 type
               (toString id)) type' id'
    = unit_of c type' id'.
Proof.
  intros Hnone type' id'. rewrite removeCacheUnit_unit_of.
  destruct (decide (type = type' /\ toString id = id')) as [[<- <-]|Hne]; [done |].
  by apply setUpUnit_other_units.
Qed.

(** [getCompletions] gives one suggestion per identifier of the category, in
    the order of its keys, each over the given range, with the documentation
    of the unit when it is not empty; positions and visibility play no part,
    and a type the cache does not have gives no suggestion. *)
Theorem getCompletions_lists_identifiers c type start_ end__ :
  wf_cache c ->
  map label (getCompletions c type start_ end__)
  = keys (getSafeCategory (Some c) type)
  /\ Forall (fun s =>
       suggestion_start s = start_ /\ suggestion_end s = end__
       /\ exists unit,
            unit_of c type (label s) = Some unit
            /\ documentation s = if has_doc unit then doc unit else None)
       (getCompletions c type start_ end__)
  /\ (get type c = None -> getCompletions c type start_ end__ = []).
Proof.
  intros [Hnd Hcats]. unfold getCompletions, getSafeCategory, unit_of. simpl.
  destruct (get type c) as [category|] eqn:Hcat; simpl; [|done].
  apply get_Some_elem in Hcat. rewrite Forall_forall in Hcats.
  specialize (Hcats _ Hcat). simpl in Hcats.
  rewrite entries_NoDup by done. split_and!; [| |done].
  - unfold keys. rewrite map_map. apply map_ext. by intros [id unit].
  - rewrite Forall_map. apply Forall_forall. intros [id unit] Hin. simpl.
    split_and!; [done | done |]. exists unit. split; [|done].
    by apply get_elem_NoDup.
Qed.
End Units.

Lemma getCompletions_lists_identifiers_witness :
  wf_cache sample_cache
  /\ getCompletions sample_cache (file_type function) 4 7
     = [ {| label := "a:x"; suggestion_start := 4; suggestion_end := 7;
            documentation := Some "doc of x" |};
         {| label := "a:y"; suggestion_start := 4; suggestion_end := 7;
            documentation := Some "doc of y" |} ]
  /\ map label (getCompletions sample_cache (file_type function) 4 7)
     = keys (getSafeCategory (Some sample_cache) (file_type function)).
Proof.
  split; [by_evaluation |]. split; [reflexivity |].
  apply (getCompletions_lists_identifiers sample_cache (file_type function) 4 7).
  by_evaluation.
Defined.

Lemma removeCacheUnit_setUpUnit_witness :
  unit_of small_cache (file_type function) (toString (sample_id "a" "z")) = None
  /\ unit_of
       (removeCacheUnit
          (setUpUnit (Some small_cache) (file_type function) (sample_id "a" "z")
             emptyUnit).1 (file_type function) (toString (sample_id "a" "z")))
       (file_type function) "a:x"
     = unit_of small_cache (file_type function) "a:x".
Proof.
  split; [reflexivity |].
  refine (removeCacheUnit_setUpUnit small_cache (file_type function)
            (sample_id "a" "z") emptyUnit _ (file_type function) "a:x").
  reflexivity.
Defined.

(** ** The rules of [testID] *)

Lemma match_here_rest at_start t :
  match_here [ZeroOrMore AnyChar; AssertEnd] at_start t
  = forallb (fun c => negb (line_terminator c)) t.
Proof.
  revert at_start. induction t as [|c t IH]; intros at_start; [done |].
  specialize (IH false). simpl in *. rewrite IH. done.
Qed.

Lemma match_here_prefix p at_start t :
  match_here (map (fun c => One (Lit c)) p ++ [ZeroOrMore AnyChar; AssertEnd])
    at_start t
  = starts_with p t && forallb (fun c => negb (line_terminator c)) (drop (length p) t).
Proof.
  revert at_start t. induction p as [|c p IH]; intros at_start t.
  - apply match_here_rest.
  - destruct t as [|c' t]; [done |]. cbn [map app match_here atom_matches].
    rewrite IH. cbn [starts_with length drop]. by rewrite andb_assoc.
Qed.

Lemma replace_from_prefix_absent a needle by_ s rest :
  Forall (fun c => Ascii.eqb a c = false) s ->
  replace_from (a :: needle) by_ 0 (s ++ rest)
  = s ++ replace_from (a :: needle) by_ 0 rest.
Proof.
  induction 1 as [|c s Hc _ IH]; [done |].
  cbn [app replace_from starts_with]. by rewrite Hc, IH.
Qed.

Lemma chars_app s1 s2 : chars (s1 +:+ s2) = chars s1 ++ chars s2.
Proof.
  unfold chars. induction s1 as [|c s1 IH]; simpl; [done | by rewrite IH].
Qed.

Lemma assemble_atom_atom a1 a2 rest :
  assemble (TAtom a1 :: TAtom a2 :: rest)
  = cons (One a1) <$> assemble (TAtom a2 :: rest).
Proof. reflexivity. Qed.

Lemma assemble_literals_then s a rest :
  assemble (map (fun c => TAtom (Lit c)) s ++ TAtom a :: rest)
  = (fun r => map (fun c => One (Lit c)) s ++ r) <$> assemble (TAtom a :: rest).
Proof.
  induction s as [|c s IH]; [by destruct (assemble _) |].
  cbn [map app]. destruct s as [|c' s]; cbn [map app] in *;
    rewrite assemble_atom_atom; [|rewrite IH];
    by destruct (assemble (TAtom a :: rest)).
Qed.

(** The expression of the pattern [<namespace>:**]. *)
Lemma RegExp_namespace namespace_ :
  plain namespace_ ->
  RegExp (regex_source (namespace_ +:+ ":**"))
  = Some (AssertStart
          :: map (fun c => One (Lit c)) (chars namespace_ ++ [":"%char])
          ++ [ZeroOrMore AnyChar; AssertEnd]).
Proof.
  intros Hplain. unfold regex_source, replace_all.
  assert (Hq : Forall (fun c => Ascii.eqb "?" c = false) (chars namespace_)).
  { eapply Forall_impl; [exact Hplain |]. intros c Hc.
    apply (plain_char_neq c "?" Hc). simpl. tauto. }
  assert (Ha : Forall (fun c => Ascii.eqb "*" c = false) (chars namespace_)).
  { eapply Forall_impl; [exact Hplain |]. intros c Hc.
    apply (plain_char_neq c "*" Hc). simpl. tauto. }
  rewrite chars_app.
  change (chars "?") with ["?"%char]. change (chars "**/") with ["*"; "*"; "/"]%char.
  change (chars "**") with ["*"; "*"]%char. change (chars "*") with ["*"%char].
  rewrite (replace_from_prefix_absent _ _ _ _ _ Hq).
  change (replace_from ["?"%char] (chars "[^:/]") 0 (chars ":**")) with (chars ":**").
  rewrite (replace_from_prefix_absent _ _ _ _ _ Ha).
  change (replace_from ["*"; "*"; "/"]%char (chars ".{0,}") 0 (chars ":**"))
    with (chars ":**").
  rewrite (replace_from_prefix_absent _ _ _ _ _ Ha).
  change (replace_from ["*"; "*"]%char (chars ".{0,}") 0 (chars ":**"))
    with (chars ":.{0,}").
  rewrite (replace_from_prefix_absent _ _ _ _ _ Ha).
  change (replace_from ["*"%char] (chars "[^:/]{0,}") 0 (chars ":.{0,}"))
    with (chars ":.{0,}").
  unfold RegExp. change (chars "^") with ["^"%char]. cbn [app tokenize].
  rewrite Ascii.eqb_refl. rewrite <- app_assoc, tokenize_plain by done.
  change (tokenize (chars ":.{0,}" ++ chars "$"))
    with (Some [TAtom (Lit ":"); TAtom AnyChar; TRepeat; TEnd]).
  cbn [fmap option_fmap option_map mbind option_bind assemble].
  rewrite assemble_literals_then. cbn [assemble fmap option_fmap option_map].
  by rewrite map_app, <- app_assoc.
Qed.

Lemma search_anchored r t : search (AssertStart :: r) true t = match_here r true t.
Proof.
  destruct t as [|c t]; simpl; [by rewrite orb_false_r |].
  by rewrite search_not_at_start, orb_false_r.
Qed.

Section Tiers.
Context {IdentityNode : Type} `{IdentityOps IdentityNode}.
Implicit Types (service : DatapackLanguageService IdentityNode)
  (forID : IdentityNode) (config : Config).

(** A rule for another category fails at once: the pattern is not compiled,
    so also a pattern that no regular expression can be built from gives
    [false]. *)
Theorem testID_other_category fuel service v t forType forID definitionUri config :
  type v = OfType t -> t <> forType ->
  testID (S fuel) service (OneRule v) forType forID definitionUri config = Ok false [].
Proof.
  intros Htype Hne. simpl. unfold testRule. rewrite Htype.
  rewrite decide_True; [done |]. split; [done | congruence].
Qed.

Lemma testRule_no_log v forType forID :
  supported v ->
  testRule v forType forID = Ok (accepted (fun v => testRule v forType forID) v) [].
Proof.
  intros [regex Hregex]. unfold accepted, testRule. destruct (decide _); [done |].
  rewrite Hregex. simpl. by destruct (regex_test regex (toString forID)).
Qed.

Lemma some_existsb {A} (f : A -> Res bool) (g : A -> bool) vs :
  Forall (fun v => f v = Ok (g v) []) vs -> some f vs = Ok (existsb g vs) [].
Proof.
  induction 1 as [|v vs Hv _ IH]; simpl; [done |].
  rewrite Hv. simpl. destruct (g v); [done |]. by rewrite IH.
Qed.

(** A non-empty array of rules passes exactly when one of its rules passes;
    the default policy, the service and the defining document are not
    consulted, and nothing is logged. *)
Theorem testID_any_rule fuel service v vs forType forID definitionUri config :
  Forall supported (v :: vs) ->
  testID (2 + fuel) service (Rules (v :: vs)) forType forID definitionUri config
  = Ok (existsb (accepted (fun v => testRule v forType forID)) (v :: vs)) [].
Proof.
  intros Hvs.
  change (some (fun v' => testRule v' forType forID) (v :: vs)
          = Ok (existsb (accepted (fun v => testRule v forType forID)) (v :: vs)) []).
  apply some_existsb. eapply Forall_impl; [exact Hvs |].
  intros v' Hv'. by apply testRule_no_log.
Qed.

(** The public tier passes for every category and every identity whose
    string has no line terminator, and for no other. *)
Theorem public_rule_passes fuel service definitionType definitionID forType forID
    definitionUri config :
  testID (2 + fuel) service
    (Rules (getCacheVisibilities public definitionType definitionID))
    forType forID definitionUri config
  = Ok (single_line (toString forID)) [].
Proof.
  cbn [getCacheVisibilities testID Nat.add some]. unfold testRule.
  cbn [type pattern]. rewrite decide_False by (intros [? _]; done).
  change (RegExp (regex_source "**"))
    with (Some [AssertStart; ZeroOrMore AnyChar; AssertEnd]).
  unfold regex_test. rewrite search_anchored, match_here_rest.
  fold (single_line (toString forID)). simpl.
  by destruct (single_line (toString forID)).
Qed.

Lemma namespace_rule namespace_ forType forID :
  plain namespace_ ->
  testRule {| type := AnyType; pattern := namespace_ +:+ ":**" |} forType forID
  = Ok (in_namespace namespace_ (toString forID)) [].
Proof.
  intros Hplain. unfold testRule. cbn [type pattern].
  rewrite decide_False by (intros [? _]; done).
  rewrite RegExp_namespace by done. unfold regex_test.
  rewrite search_anchored, match_here_prefix. unfold in_namespace.
  rewrite length_app. done.
Qed.

(** The internal tier passes, in every category, exactly for the identities
    of the namespace of the defining identity and for those of the default
    namespace. *)
Theorem internal_rule_passes fuel service definitionType definitionID forType forID
    definitionUri config :
  plain (getNamespace definitionID) -> plain DefaultNamespace ->
  testID (2 + fuel) service
    (Rules (getCacheVisibilities internal definitionType definitionID))
    forType forID definitionUri config
  = Ok (in_namespace (getNamespace definitionID) (toString forID)
        || in_namespace DefaultNamespace (toString forID)) [].
Proof.
  intros Hns Hdefault. cbn [getCacheVisibilities testID Nat.add].
  destruct (decide (getNamespace definitionID <> DefaultNamespace)) as [Hne|Heq].
  - cbn [some]. rewrite !namespace_rule by done. simpl.
    destruct (in_namespace (getNamespace definitionID) (toString forID)); [done |].
    simpl. by destruct (in_namespace DefaultNamespace (toString forID)).
  - apply dec_stable in Heq. rewrite <- Heq. cbn [some].
    rewrite namespace_rule by done. simpl. rewrite orb_diag.
    by destruct (in_namespace (getNamespace definitionID) (toString forID)).
Qed.

(** A position without rules, under a tier as default policy, is tested with
    the rules of that tier for the identity of its own document: under the
    private default it is visible exactly to that identity, in the category
    of the document. *)
Theorem testID_default_private fuel service forType forID definitionUri config
    category id :
  defaultVisibility config = Tier private ->
  getId service definitionUri = Some (category, id) ->
  plain (toString id) ->
  testID (3 + fuel) service (Rules []) forType forID definitionUri config
  = Ok (bool_decide (forType = category /\ toString forID = toString id)) [].
Proof.
  intros Hdefault Hid Hplain.
  change (testID (3 + fuel) service (Rules []) forType forID definitionUri config)
    with (match defaultVisibility config with
          | Structured defaultConfig =>
              testID (2 + fuel) service defaultConfig forType forID definitionUri config
          | Tier defaultConfig =>
              match getId service definitionUri with
              | None => Ok true [NoIDResult definitionUri forType (toString forID)]
              | Some (category, id) =>
                  testID (2 + fuel) service
                    (Rules (getCacheVisibilities defaultConfig category id))
                    forType forID definitionUri config
              end
          end).
  rewrite Hdefault, Hid. by apply private_rule_exact.
Qed.
End Tiers.

Lemma testID_other_category_witness :
  (type {| pattern := "(unclosed"; type := OfType recipe |} = OfType recipe
   /\ recipe <> function)
  /\ testID 1 blank_service
       (OneRule {| pattern := "(unclosed"; type := OfType recipe |}) function
       (sample_id "a" "x") None public_config = Ok false [].
Proof.
  split; [by split |].
  by apply (testID_other_category 0 blank_service _ recipe).
Defined.

Lemma testID_any_rule_witness :
  Forall supported [ {| pattern := "b:*"; type := AnyType |};
                     {| pattern := "a:**"; type := OfType function |} ]
  /\ testID 2 blank_service
       (Rules [ {| pattern := "b:*"; type := AnyType |};
                {| pattern := "a:**"; type := OfType function |} ])
       function (sample_id "a" "x/y") None public_config = Ok true [].
Proof.
  split; [by_evaluation |].
  refine (testID_any_rule 0 blank_service _ _ function (sample_id "a" "x/y") None
            public_config _).
  by_evaluation.
Defined.

Lemma internal_rule_passes_witness :
  (plain (getNamespace (sample_id "a" "x")) /\ plain DefaultNamespace)
  /\ testID 2 blank_service
       (Rules (getCacheVisibilities internal function (sample_id "a" "x")))
       recipe (sample_id "minecraft" "stick") None public_config = Ok true []
  /\ testID 2 blank_service
       (Rules (getCacheVisibilities internal function (sample_id "a" "x")))
       recipe (sample_id "b" "stick") None public_config = Ok false [].
Proof.
  split; [split; by_evaluation |]. split.
  - refine (internal_rule_passes 0 blank_service function (sample_id "a" "x") recipe
              (sample_id "minecraft" "stick") None public_config _ _);
      by_evaluation.
  - reflexivity.
Defined.

Lemma testID_default_private_witness :
  (defaultVisibility {| defaultVisibility := Tier private |} = Tier private
   /\ getId sample_service None = Some (function, sample_id "a" "x")
   /\ plain (toString (sample_id "a" "x")))
  /\ testID 3 sample_service (Rules []) function (sample_id "a" "y") None
       {| defaultVisibility := Tier private |} = Ok false [].
Proof.
  split; [split_and!; [done | done | by_evaluation] |].
  refine (testID_default_private 0 sample_service function (sample_id "a" "y") None
            {| defaultVisibility := Tier private |} function (sample_id "a" "x")
            eq_refl eq_refl _).
  by_evaluation.
Defined.

Lemma testID_empty_default_diverges_witness :
  defaultVisibility {| defaultVisibility := Structured (Rules []) |}
  = Structured (Rules [])
  /\ testID 1000 blank_service (Rules []) function (sample_id "a" "x") None
       {| defaultVisibility := Structured (Rules []) |} = OutOfFuel.
Proof.
  split; [done |].
  by apply (testID_empty_default_diverges 1000 blank_service).
Defined.

(** ** [combineCache] on whole units *)

Section PutFacts.
Context {K V : Type} `{EqDecision K} `{PropertyKey K}.
Implicit Types (o : Obj K V) (k : K) (v : V).

Lemma elem_of_replace_key e k v o : e ∈ replace_key k v o -> e = (k, v) \/ e ∈ o.
Proof.
  induction o as [|[k0 v0] o IH]; simpl; [auto |].
  destruct (decide (k0 = k)); rewrite !elem_of_cons; tauto.
Qed.

Lemma elem_of_insert_index e n k v o : e ∈ insert_index n k v o -> e = (k, v) \/ e ∈ o.
Proof.
  induction o as [|[k0 v0] o IH]; simpl.
  - rewrite elem_of_cons. auto.
  - destruct (array_index k0) as [n'|]; [destruct (n' <? n)%N|];
      rewrite !elem_of_cons; tauto.
Qed.

Lemma elem_of_put e k v o : e ∈ put k v o -> e = (k, v) \/ e ∈ o.
Proof.
  unfold put. destruct (get k o); [apply elem_of_replace_key |].
  destruct (array_index k); [apply elem_of_insert_index |].
  rewrite elem_of_app, elem_of_cons, elem_of_nil. tauto.
Qed.

Lemma NoDup_keys_insert_index n k v o :
  k ∉ keys o -> NoDup (keys o) -> NoDup (keys (insert_index n k v o)).
Proof.
  induction o as [|[k0 v0] o IH]; simpl; intros Hk Hnd.
  - apply NoDup_singleton.
  - apply not_elem_of_cons in Hk as [Hne Hk].
    apply NoDup_cons in Hnd as [Hk0 Hnd].
    assert (Hfront : NoDup (k :: k0 :: keys o)).
    { apply NoDup_cons. split; [|by apply NoDup_cons].
      apply not_elem_of_cons. auto. }
    destruct (array_index k0) as [n'|]; [destruct (n' <? n)%N|]; simpl; try done.
    apply NoDup_cons. split; [|auto].
    intros Hin. apply elem_of_keys in Hin as [v' Hin].
    apply elem_of_insert_index in Hin as [[= -> _]|Hin]; [done |].
    apply Hk0. apply elem_of_keys. eauto.
Qed.

(** Writing keeps the keys distinct. *)
Lemma NoDup_keys_put k v o : NoDup (keys o) -> NoDup (keys (put k v o)).
Proof.
  intros Hnd. unfold put. destruct (get k o) eqn:Hg.
  - by rewrite keys_replace_key.
  - apply get_None in Hg. destruct (array_index k).
    + by apply NoDup_keys_insert_index.
    + rewrite keys_app. simpl. apply NoDup_app. split_and!; [done | | apply NoDup_singleton].
      intros x Hx ->%list_elem_of_singleton. done.
Qed.
End PutFacts.

Lemma unit_at_unit_of {P} (c : ClientCache P) type id :
  unit_at c type id = default emptyUnit (unit_of c type id).
Proof.
  unfold unit_at, unit_of, getSafeCategory. simpl. by destruct (get type c).
Qed.

Lemma unit_of_put {P} type type' id id' (unit : CacheUnit P) (c : ClientCache P) :
  unit_of (put type (put id unit (getSafeCategory (Some c) type)) c) type' id'
  = if decide (type = type' /\ id = id') then Some unit else unit_of c type' id'.
Proof.
  unfold unit_of, getSafeCategory. simpl. rewrite get_put.
  destruct (decide (type = type')) as [<-|Hne]; simpl.
  - rewrite get_put. destruct (decide (id = id')) as [<-|Hne'].
    + by rewrite decide_True.
    + rewrite decide_False by tauto. by destruct (get type c).
  - by rewrite decide_False by tauto.
Qed.

Lemma wf_put_unit {P} type id (unit : CacheUnit P) (c : ClientCache P) :
  wf_cache c -> wf_cache (put type (put id unit (getSafeCategory (Some c) type)) c).
Proof.
  intros [Hnd Hcats]. split; [by apply NoDup_keys_put |].
  apply Forall_forall. intros e [->|He]%elem_of_put.
  - simpl. apply NoDup_keys_put. unfold getSafeCategory. simpl.
    destruct (get type c) as [category|] eqn:Hcat; simpl; [|constructor].
    rewrite Forall_forall in Hcats. apply (Hcats _ (get_Some_elem _ _ _ Hcat)).
  - rewrite Forall_forall in Hcats. auto.
Qed.

Lemma entries_elem {K V} `{EqDecision K} (o : Obj K V) e : e ∈ entries o -> e ∈ o.
Proof.
  unfold entries. rewrite list_elem_of_omap. intros (k & _ & Hk).
  destruct (get k o) as [v|] eqn:Hg; [|done]. injection Hk as <-.
  by apply get_Some_elem.
Qed.

Section CombineMore.
Variable addition : option Addition.

Lemma mergeUnit_mergedUnit overrideUnit ansUnit st :
  (mergeUnit addition overrideUnit ansUnit st).1 = mergedUnit overrideUnit ansUnit.
Proof.
  unfold mergeUnit, mergedUnit. cbn [fold_left CacheUnitPositionTypes].
  rewrite !combine_positions. by destruct (has_doc overrideUnit).
Qed.

Lemma combineUnit_unit_of type id overrideUnit ans st type' id' :
  unit_of (combineUnit addition type id overrideUnit ans st).1 type' id'
  = if decide (participates overrideUnit = true /\ type = type' /\ id = id')
    then Some (mergedUnit overrideUnit (unit_at ans type id))
    else unit_of ans type' id'.
Proof.
  unfold combineUnit. destruct (participates overrideUnit) eqn:Hp.
  - unfold initUnit. fold (unit_at ans type id).
    pose proof (mergeUnit_mergedUnit overrideUnit (unit_at ans type id) st) as Hm.
    destruct (mergeUnit addition overrideUnit (unit_at ans type id) st)
      as [merged st']. simpl in Hm. subst merged. cbn [fst].
    rewrite unit_of_put.
    destruct (decide (type = type' /\ id = id')) as [[<- <-]|Hne].
    + by rewrite decide_True.
    + rewrite decide_False by tauto. rewrite unit_of_put.
      by rewrite decide_False.
  - cbn [fst]. by destruct (decide _) as [[? _]|].
Qed.

Lemma combineUnit_wf type id overrideUnit ans st :
  wf_cache ans -> wf_cache (combineUnit addition type id overrideUnit ans st).1.
Proof.
  intros Hwf. unfold combineUnit. destruct (participates overrideUnit); [|done].
  unfold initUnit.
  destruct (mergeUnit addition overrideUnit _ st) as [merged st']. cbn [fst].
  by apply wf_put_unit, wf_put_unit.
Qed.

Lemma combine_category_units type (l : CacheCategory loc) ans st :
  NoDup (keys l) ->
  let r := fold_left (fun '(ans, st) '(id, overrideUnit) =>
             combineUnit addition type id overrideUnit ans st) l (ans, st) in
  (wf_cache ans -> wf_cache r.1)
  /\ forall type' id',
       unit_of r.1 type' id'
       = merge_into (if decide (type = type') then get id' l else None)
           (unit_of ans type' id').
Proof.
  revert ans st. induction l as [|[id unit] l IH]; intros ans st Hnd; cbn zeta.
  - split; [done |]. intros type' id'. simpl. by case_decide.
  - apply NoDup_cons in Hnd as [Hid Hnd]. apply get_None in Hid. cbn [fst] in Hid.
    cbn [fold_left].
    pose proof (combineUnit_unit_of type id unit ans st) as Hunit.
    pose proof (combineUnit_wf type id unit ans st) as Hwf1.
    destruct (combineUnit addition type id unit ans st) as [ans1 st1].
    cbn [fst] in Hunit, Hwf1. specialize (IH ans1 st1 Hnd). cbn zeta in IH.
    destruct IH as [IHwf IHunit]. split; [auto |].
    intros type' id'. rewrite IHunit, Hunit. cbn [get].
    destruct (decide (type = type')) as [<-|Hne].
    + destruct (decide (id = id')) as [<-|Hne'].
      * rewrite Hid. simpl. unfold merge_into. rewrite <- unit_at_unit_of.
        destruct (participates unit); [by rewrite decide_True |].
        by rewrite decide_False by (intros [? _]; done).
      * rewrite (decide_False (P := _ /\ _ /\ _)) by tauto.
        done.
    + rewrite (decide_False (P := _ /\ _ /\ _)) by tauto. done.
Qed.

Lemma combine_entries_units (l : ClientCache loc) ans st :
  wf_cache l ->
  let r := fold_left (fun '(ans, st) '(type, overrideCategory) =>
             fold_left (fun '(ans, st) '(id, overrideUnit) =>
               combineUnit addition type id overrideUnit ans st)
               (entries overrideCategory) (ans, st)) l (ans, st) in
  (wf_cache ans -> wf_cache r.1)
  /\ forall type' id',
       unit_of r.1 type' id' = merge_into (unit_of l type' id') (unit_of ans type' id').
Proof.
  intros [Hnd Hcats]. revert ans st.
  induction l as [|[type category] l IH]; intros ans st; cbn zeta.
  - split; [done |]. by intros type' id'.
  - apply NoDup_cons in Hnd as [Htype Hnd]. apply get_None in Htype.
    cbn [fst] in Htype.
    apply Forall_cons in Hcats as [Hcat Hcats]. cbn [snd] in Hcat.
    cbn [fold_left]. rewrite entries_NoDup by done.
    pose proof (combine_category_units type category ans st Hcat) as Hc.
    cbn zeta in Hc.
    destruct (fold_left _ category (ans, st)) as [ans1 st1].
    cbn [fst] in Hc. destruct Hc as [Hwf1 Hunit].
    specialize (IH Hnd Hcats ans1 st1). cbn zeta in IH.
    destruct IH as [IHwf IHunit]. split; [auto |].
    intros type' id'. rewrite IHunit, Hunit. unfold unit_of at 1 3. cbn [get].
    destruct (decide (type = type')) as [<-|Hne]; simpl.
    + rewrite Htype. done.
    + done.
Qed.

Lemma combineCache_units base override st :
  wf_cache override ->
  (wf_cache base -> wf_cache (combineCache base override addition st).1)
  /\ forall type id,
       unit_of (combineCache base override addition st).1 type id
       = merge_into (unit_of override type id) (unit_of base type id).
Proof.
  intros Hwf. unfold combineCache. rewrite entries_NoDup by apply Hwf.
  by apply combine_entries_units.
Qed.


(** An override in which no unit takes part (so also the empty override)
    leaves the base and every position object as they are. *)
Theorem combineCache_nothing_to_merge base override st :
  Forall (fun e => Forall (fun u => participates u.2 = false) e.2) override ->
  combineCache base override addition st = (base, st).
Proof.
  intros Hnone. unfold combineCache.
  assert (Hentries : Forall (fun e => Forall (fun u => participates u.2 = false)
                                        (entries e.2)) (entries override)).
  { apply Forall_forall. intros e He%entries_elem. rewrite Forall_forall in Hnone.
    apply Forall_forall. intros u Hu%entries_elem.
    specialize (Hnone e He). rewrite Forall_forall in Hnone. auto. }
  induction Hentries as [|[type category] l Hcat _ IH]; [done |].
  cbn [fold_left]. cbn [snd] in Hcat.
  assert (Hinner : fold_left (fun '(ans, st) '(id, overrideUnit) =>
                      combineUnit addition type id overrideUnit ans st)
                     (entries category) (base, st) = (base, st)).
  { induction Hcat as [|[id unit] l' Hunit _ IHc]; [done |].
    cbn [fold_left]. unfold combineUnit at 2. cbn [snd] in Hunit.
    by rewrite Hunit. }
  by rewrite Hinner.
Qed.
End CombineMore.

(** ** Merging the cache of a document and removing it again *)

Lemma positions_at_unit_of {P} (c : ClientCache P) type id t :
  positions_at c type id t = default [] (unit_of c type id ≫= unit_get t).
Proof.
  unfold positions_at. rewrite unit_at_unit_of.
  destruct (unit_of c type id); [done | by destruct t].
Qed.

Lemma positions_at_map_cache {P Q} (f : P -> Q) (c : ClientCache P) type id t :
  positions_at (map_cache f c) type id t = map f (positions_at c type id t).
Proof.
  rewrite !positions_at_unit_of. unfold map_cache. rewrite unit_of_map_values.
  destruct (unit_of c type id) as [unit|]; [|done]. simpl.
  by destruct t, unit as [d [a|] [b|] [r|]].
Qed.

Lemma positions_at_removeCachePosition c uri_ type id t :
  wf_cache c ->
  positions_at (removeCachePosition c uri_) type id t
  = List.filter (other_document uri_) (positions_at c type id t).
Proof.
  intros Hwf. rewrite removeCachePosition_map_values by done.
  rewrite !positions_at_unit_of, unit_of_map_values.
  destruct (unit_of c type id) as [unit|]; [|done]. simpl.
  rewrite removeUnitPosition_get. by destruct (unit_get t unit).
Qed.

Lemma positions_at_locs {P} (c : ClientCache P) type id t :
  positions_at c type id t ⊆ cache_locs c.
Proof.
  intros p Hp. rewrite positions_at_unit_of in Hp. unfold unit_of in Hp.
  destruct (get type c) as [category|] eqn:Hcat; [|by apply elem_of_nil in Hp].
  simpl in Hp.
  destruct (get id category) as [unit|] eqn:Hunit; [|by apply elem_of_nil in Hp].
  simpl in Hp. apply elem_of_cache_locs. exists type, category.
  split; [by apply get_Some_elem |].
  apply elem_of_category_locs. exists id, unit. split; [by apply get_Some_elem |].
  unfold unit_locs, unit_positions. rewrite !elem_of_app. by destruct t; auto.
Qed.

Lemma filter_none {A} (f : A -> bool) (l : list A) :
  Forall (fun x => f x = false) l -> List.filter f l = [].
Proof. induction 1 as [|x l Hx _ IH]; simpl; [done |]. by rewrite Hx. Qed.

Lemma filter_all {A} (f : A -> bool) (l : list A) :
  Forall (fun x => f x = true) l -> List.filter f l = l.
Proof. induction 1 as [|x l Hx _ IH]; simpl; [done |]. by rewrite Hx, IH. Qed.



Lemma combineCache_nothing_to_merge_witness :
  Forall (fun e => Forall (fun u => participates u.2 = false) e.2) idle_override
  /\ combineCache sample_base idle_override (Some sample_addition) sample_store
     = (sample_base, sample_store).
Proof.
  assert (Hnone : Forall (fun e => Forall (fun u => participates u.2 = false) e.2)
                    idle_override) by (by repeat constructor).
  split; [done |].
  exact (combineCache_nothing_to_merge (Some sample_addition) sample_base
           idle_override sample_store Hnone).
Defined.


(** ** The merge and the members of [Object.prototype] *)

Section MapValuesPut.
Context {K V W : Type} `{EqDecision K} `{PropertyKey K}.
Implicit Types (f : V -> W) (o : Obj K V) (k : K) (v : V).

Lemma map_values_replace_key f k v o :
  map_values f (replace_key k v o) = replace_key k (f v) (map_values f o).
Proof.
  induction o as [|[k0 v0] o IH]; simpl; [done |].
  destruct (decide (k0 = k)); simpl; by rewrite ?IH.
Qed.

Lemma map_values_insert_index f n k v o :
  map_values f (insert_index n k v o) = insert_index n k (f v) (map_values f o).
Proof.
  induction o as [|[k0 v0] o IH]; simpl; [done |].
  destruct (array_index k0) as [n'|]; [destruct (n' <? n)%N|]; simpl;
    by rewrite ?IH.
Qed.

Lemma map_values_put f k v o :
  map_values f (put k v o) = put k (f v) (map_values f o).
Proof.
  unfold put. rewrite get_map_values. destruct (get k o); simpl.
  - apply map_values_replace_key.
  - destruct (array_index k); [apply map_values_insert_index |].
    unfold map_values. by rewrite map_app.
Qed.
End MapValuesPut.

Lemma Host_unit_of_plain host c type id :
  Host.unit_of host (Host.plain c) type id = unit_of c type id.
Proof.
  unfold Host.unit_of, Host.plain, unit_of. rewrite get_map_values.
  destruct (get type c) as [category|]; simpl; [|done].
  rewrite get_map_values. by destruct (get id category).
Qed.

Lemma Host_positions_at_plain host c type id t :
  Host.positions_at host (Host.plain c) type id t = positions_at c type id t.
Proof.
  unfold Host.positions_at. rewrite Host_unit_of_plain.
  unfold positions_at. by rewrite unit_at_unit_of.
Qed.

Lemma Host_plain_put type id unit (ans : ClientCache loc) :
  Host.plain (put type (put id unit (getSafeCategory (Some ans) type)) ans)
  = put type (put id (Host.Plain unit) (default [] (get type (Host.plain ans))))
      (Host.plain ans).
Proof.
  unfold Host.plain. rewrite map_values_put, map_values_put. do 2 f_equal.
  unfold getSafeCategory. simpl. rewrite get_map_values.
  by destruct (get type ans).
Qed.

(** On an identifier the category owns, or that no object inherits,
    [Host.initUnit] is [initUnit]. *)
Lemma Host_initUnit_plain ans type id :
  inherited id = false \/ is_Some (unit_of ans type id) ->
  Host.initUnit (Host.plain ans) type id
  = Ok (Host.plain (initUnit ans type id).1, Host.Plain (initUnit ans type id).2) [].
Proof.
  intros Hsafe. unfold Host.initUnit, initUnit. cbn [fst snd].
  rewrite Host_plain_put.
  assert (Hget : get id (default [] (get type (Host.plain ans)))
                 = Host.Plain <$> get id (getSafeCategory (Some ans) type)).
  { unfold Host.plain, getSafeCategory. simpl. rewrite get_map_values.
    destruct (get type ans) as [category|]; simpl; [|done].
    by rewrite get_map_values. }
  rewrite Hget.
  destruct (get id (getSafeCategory (Some ans) type)) as [unit|] eqn:Hown; simpl.
  - done.
  - destruct Hsafe as [Hnot|[unit Hunit]].
    + unfold inherited in Hnot. apply orb_false_elim in Hnot as [Hf Hp].
      by rewrite Hf, Hp.
    + exfalso. unfold unit_of in Hunit. unfold getSafeCategory in Hown. simpl in Hown.
      destruct (get type ans); simpl in *; congruence.
Qed.

Lemma Res_bind_ret {A B} (a : A) (f : A -> Res B) : Ok a [] ≫= f = f a.
Proof. unfold mbind, Res_bind. by destruct (f a). Qed.

Section HostMerge.
Variable addition : option Addition.
Variable host : Host.Functions.

Lemma Host_combineUnit_plain type id overrideUnit ans st :
  (participates overrideUnit = true ->
   inherited id = false \/ is_Some (unit_of ans type id)) ->
  Host.combineUnit addition type id overrideUnit (Host.plain ans, st, host)
  = Ok (Host.plain (combineUnit addition type id overrideUnit ans st).1,
        (combineUnit addition type id overrideUnit ans st).2, host) [].
Proof.
  intros Hsafe. unfold Host.combineUnit, combineUnit.
  destruct (participates overrideUnit); [|done].
  rewrite (Host_initUnit_plain ans type id) by auto.
  destruct (initUnit ans type id) as [ans1 ansUnit]. cbn [fst snd].
  rewrite Res_bind_ret. cbn [Host.read].
  destruct (mergeUnit addition overrideUnit ansUnit st) as [merged st1].
  cbn [fst snd]. unfold mret, Res_ret. do 3 f_equal.
  symmetry. apply Host_plain_put.
Qed.

Lemma combineUnit_keeps_units type id overrideUnit ans st type' id' :
  is_Some (unit_of ans type' id') ->
  is_Some (unit_of (combineUnit addition type id overrideUnit ans st).1 type' id').
Proof.
  intros Hsome. rewrite combineUnit_unit_of. by destruct (decide _).
Qed.

Lemma Host_combine_category type (l : CacheCategory loc) ans st :
  Forall (fun u => participates u.2 = true ->
                   inherited u.1 = false \/ is_Some (unit_of ans type u.1)) l ->
  let r := fold_left (fun '(ans, st) '(id, overrideUnit) =>
             combineUnit addition type id overrideUnit ans st) l (ans, st) in
  foldRes (fun s '(id, overrideUnit) =>
             Host.combineUnit addition type id overrideUnit s) l
    (Host.plain ans, st, host)
  = Ok (Host.plain r.1, r.2, host) []
  /\ forall type' id', is_Some (unit_of ans type' id') -> is_Some (unit_of r.1 type' id').
Proof.
  revert ans st. induction l as [|[id unit] l IH]; intros ans st Hsafe; cbn zeta.
  - done.
  - apply Forall_cons in Hsafe as [Hunit Hsafe]. cbn [fst snd] in Hunit.
    cbn [foldRes fold_left].
    rewrite (Host_combineUnit_plain type id unit ans st Hunit).
    pose proof (combineUnit_keeps_units type id unit ans st) as Hkeeps.
    destruct (combineUnit addition type id unit ans st) as [ans1 st1].
    cbn [fst snd] in *.
    destruct (IH ans1 st1) as [IHeq IHkeeps].
    { eapply Forall_impl; [exact Hsafe |]. intros [id' unit'] Hu Hp.
      destruct (Hu Hp) as [?|?]; [by left | right; by apply Hkeeps]. }
    cbn zeta in IHeq, IHkeeps.
    rewrite Res_bind_ret, IHeq. split; [done |]. auto.
Qed.

Lemma Host_combine_entries (l : ClientCache loc) ans st :
  Forall (fun e => Forall (fun u => participates u.2 = true ->
                     inherited u.1 = false \/ is_Some (unit_of ans e.1 u.1))
                     (entries e.2)) l ->
  let r := fold_left (fun '(ans, st) '(type, overrideCategory) =>
             fold_left (fun '(ans, st) '(id, overrideUnit) =>
               combineUnit addition type id overrideUnit ans st)
               (entries overrideCategory) (ans, st)) l (ans, st) in
  foldRes (fun s '(type, overrideCategory) =>
             foldRes (fun s '(id, overrideUnit) =>
               Host.combineUnit addition type id overrideUnit s)
               (entries overrideCategory) s) l
    (Host.plain ans, st, host)
  = Ok (Host.plain r.1, r.2, host) [].
Proof.
  revert ans st. induction l as [|[type category] l IH]; intros ans st Hsafe; cbn zeta.
  - done.
  - apply Forall_cons in Hsafe as [Hcat Hsafe]. cbn [fst snd] in Hcat.
    cbn [foldRes fold_left].
    destruct (Host_combine_category type (entries category) ans st Hcat)
      as [Heq Hkeeps]. cbn zeta in Heq, Hkeeps.
    rewrite Heq.
    destruct (fold_left _ (entries category) (ans, st)) as [ans1 st1].
    cbn [fst snd] in *.
    rewrite Res_bind_ret, IH; [done |].
    eapply Forall_impl; [exact Hsafe |]. intros [type' category'] Hc. cbn [fst snd] in *.
    eapply Forall_impl; [exact Hc |]. intros [id' unit'] Hu Hp.
    destruct (Hu Hp) as [?|?]; [by left | right; by apply Hkeeps].
Qed.

(** On a safe merge the read of [initUnit] stays within own keys: the merge
    on the objects of the host is the merge on own keys, and it leaves the
    functions of the host as they are. *)
Lemma Host_combineCache_plain base override st :
  safe_merge base override ->
  Host.combineCache host (Host.plain base) override addition st
  = Ok (Host.plain (combineCache base override addition st).1,
        (combineCache base override addition st).2, host) [].
Proof.
  intros Hsafe. unfold Host.combineCache, combineCache.
  apply Host_combine_entries. unfold safe_merge in Hsafe.
  rewrite Forall_forall in Hsafe. apply Forall_forall.
  intros e He%entries_elem. specialize (Hsafe e He). rewrite Forall_forall in Hsafe.
  apply Forall_forall. intros u Hu%entries_elem. auto.
Qed.
End HostMerge.

(** C3 fails for an identifier that names a member of [Object.prototype]:
    no category owns [constructor] at first, so [initUnit] reads the
    function [Object] of the host and every merge under that name writes on
    this one object.  Within one merge into an empty base, the declaration of
    the team [constructor] lands behind the declaration of the objective
    [constructor], which came before it: two positions where the base had
    none and the override has one.  Over two merges, each into an empty
    base, the second result holds the position, and the documentation, of
    the first. *)
Theorem combineCache_inherited_member :
  (exists ans st host,
     Host.combineCache [] (Host.plain []) constructor_override None sample_store
     = Ok (ans, st, host) []
     /\ unit_of constructor_override (misc_type team) "constructor"
        = Some {| doc := None; dcl := Some [2%nat]; def := None; ref := None |}
     /\ participates {| doc := None; dcl := Some [2%nat]; def := None;
                        ref := None |} = true
     /\ Host.positions_at [] (Host.plain []) (misc_type team) "constructor" Dcl = []
     /\ Host.positions_at host ans (misc_type team) "constructor" Dcl
        = [1%nat; 2%nat])
  /\ (exists ans1 st1 host1 ans2 st2 host2 merged,
        Host.combineCache [] (Host.plain []) constructor_first None sample_store
        = Ok (ans1, st1, host1) []
        /\ Host.combineCache host1 (Host.plain []) constructor_second None st1
           = Ok (ans2, st2, host2) []
        /\ Host.positions_at host1 (Host.plain []) (misc_type objective)
             "constructor" Dcl = []
        /\ positions_at constructor_second (misc_type objective) "constructor" Dcl
           = [2%nat]
        /\ Host.positions_at host2 ans2 (misc_type objective) "constructor" Dcl
           = [1%nat; 2%nat]
        /\ Host.unit_of host2 ans2 (misc_type objective) "constructor" = Some merged
        /\ doc merged = Some "first").
Proof.
  split.
  - do 3 eexists. split; [reflexivity |]. by repeat split.
  - do 7 eexists. split; [reflexivity |]. split; [reflexivity |]. by repeat split.
Qed.

(** On a safe merge, for a unit of the override that takes part,
    [combineCache] appends its positions of each kind after those the base
    had under the same identifier: the base's positions stay in front, in
    order, the length is the sum of the two lengths, and every position
    object of the base that is no object of the override is left as it
    was. *)
Theorem combineCache_appends host base override addition st type id category unit t :
  wf_cache override ->
  safe_merge base override ->
  get type override = Some category ->
  get id category = Some unit ->
  participates unit = true ->
  exists ans st',
    Host.combineCache host (Host.plain base) override addition st
    = Ok (ans, st', host) []
    /\ Host.positions_at host ans type id t
       = positions_at base type id t ++ unit_positions t unit
    /\ length (Host.positions_at host ans type id t)
       = (length (positions_at base type id t) + length (unit_positions t unit))%nat
    /\ positions_at base type id t `prefix_of` Host.positions_at host ans type id t
    /\ forall l, l ∈ positions_at base type id t -> l ∉ cache_locs override ->
                 st' !! l = st !! l.
Proof.
  intros Hwf Hsafe Hcat Hunit _.
  eexists _, _. split; [by apply Host_combineCache_plain |].
  rewrite Host_positions_at_plain.
  assert (Hpos : positions_at (combineCache base override addition st).1 type id t
                 = positions_at base type id t ++ unit_positions t unit).
  { rewrite combineCache_positions by done. f_equal.
    unfold positions_at, unit_at, getSafeCategory. simpl.
    by rewrite Hcat; simpl; rewrite Hunit. }
  rewrite Hpos. split_and!; [done | apply length_app | by apply prefix_app_r |].
  intros l _ Hl. rewrite combineCache_store by done.
  destruct addition as [a|]; [|done].
  rewrite stamp_all_lookup. by rewrite decide_False.
Qed.

(** On a safe merge, for a unit of the override that takes part, the base
    has a unit under the identifier afterwards; its documentation is the
    override's when that is not empty (the last writer wins) and the base's
    otherwise. *)
Theorem combineCache_documentation host base override addition st type id unit :
  wf_cache override ->
  safe_merge base override ->
  unit_of override type id = Some unit ->
  participates unit = true ->
  exists ans st' merged,
    Host.combineCache host (Host.plain base) override addition st
    = Ok (ans, st', host) []
    /\ Host.unit_of host ans type id = Some merged
    /\ doc merged = if has_doc unit then doc unit else doc (unit_at base type id).
Proof.
  intros Hwf Hsafe Hunit Hp.
  destruct (combineCache_units addition base override st Hwf) as [_ Hunits].
  eexists _, _, _. split; [by apply Host_combineCache_plain |].
  rewrite Host_unit_of_plain. split.
  - rewrite Hunits, Hunit. unfold merge_into. by rewrite Hp.
  - rewrite <- unit_at_unit_of.
    rewrite <- (mergeUnit_mergedUnit addition unit (unit_at base type id) st).
    apply mergeUnit_doc.
Qed.

(** The language server merges the cache of a document into the cache of the
    workspace with the document's address as the addition, and removes the
    document's positions before it merges a newer version.  On a safe merge,
    when the base holds no position of the document and shares no position
    object with the override, removing the document's positions after the
    merge gives back, under every identifier and kind, the positions the
    base had. *)
Theorem combineCache_removeCachePosition host base override a st type id t :
  wf_cache base -> wf_cache override ->
  safe_merge base override ->
  Forall (fun l => (l < length st)%nat) (cache_locs override) ->
  Forall (fun l => uri (deref st l) <> Some (addition_uri a)
                   /\ l ∉ cache_locs override) (cache_locs base) ->
  exists ans st',
    Host.combineCache host (Host.plain base) override (Some a) st
    = Ok (Host.plain ans, st', host) []
    /\ positions_at (removeCachePosition (deref_cache st' ans) (addition_uri a))
         type id t
       = positions_at (deref_cache st base) type id t.
Proof.
  intros Hbase Hoverride Hsafe Hlive Hfresh.
  eexists _, _. split; [by apply Host_combineCache_plain |].
  destruct (combineCache_units (Some a) base override st Hoverride) as [Hwf _].
  rewrite positions_at_removeCachePosition
    by (rewrite deref_cache_map_cache; apply wf_map_cache; auto).
  rewrite !deref_cache_map_cache, !positions_at_map_cache.
  rewrite combineCache_positions, combineCache_store by done.
  rewrite map_app, List.filter_app.
  pose proof (positions_at_locs base type id t) as Hb.
  pose proof (positions_at_locs override type id t) as Ho.
  rewrite Forall_forall in Hlive. rewrite Forall_forall in Hfresh.
  rewrite (filter_none _ (map _ (positions_at override type id t))).
  - rewrite app_nil_r.
    assert (Hsame : map (deref (stamp_all (Some a) (cache_locs override) st))
                      (positions_at base type id t)
                    = map (deref st) (positions_at base type id t)).
    { apply map_ext_Forall, Forall_forall. intros l Hl.
      destruct (Hfresh l (Hb l Hl)) as [_ Hnot].
      unfold deref. rewrite !list_lookup_total_alt, stamp_all_lookup.
      by rewrite decide_False. }
    rewrite Hsame. apply filter_all, Forall_map, Forall_forall. intros l Hl.
    destruct (Hfresh l (Hb l Hl)) as [Huri _]. unfold other_document.
    by rewrite bool_decide_eq_false_2.
  - apply Forall_map, Forall_forall. intros l Hl. specialize (Hlive l (Ho l Hl)).
    apply lookup_lt_is_Some in Hlive as [pos Hpos].
    unfold deref. rewrite list_lookup_total_alt, stamp_all_lookup.
    rewrite decide_True by auto. rewrite Hpos. simpl. unfold other_document.
    by rewrite bool_decide_eq_true_2.
Qed.

Lemma combineCache_appends_witness :
  (wf_cache sample_override
   /\ safe_merge sample_base sample_override
   /\ get (file_type function) sample_override = Some [("a:x", sample_override_unit)]
   /\ get "a:x" [("a:x", sample_override_unit)] = Some sample_override_unit
   /\ participates sample_override_unit = true)
  /\ exists ans st',
       Host.combineCache [] (Host.plain sample_base) sample_override
         (Some sample_addition) sample_store = Ok (ans, st', []) []
       /\ Host.positions_at [] ans (file_type function) "a:x" Dcl = [0%nat; 1%nat].
Proof.
  assert (Hwf : wf_cache sample_override) by by_evaluation.
  assert (Hsafe : safe_merge sample_base sample_override) by by_evaluation.
  split; [by split_and! |].
  destruct (combineCache_appends [] sample_base sample_override
              (Some sample_addition) sample_store (file_type function) "a:x"
              [("a:x", sample_override_unit)] sample_override_unit Dcl
              Hwf Hsafe eq_refl eq_refl eq_refl)
    as (ans & st' & Hres & Hpos & _).
  by exists ans, st'.
Defined.

Lemma combineCache_documentation_witness :
  (wf_cache mixed_override
   /\ safe_merge sample_base mixed_override
   /\ unit_of mixed_override (file_type function) "a:z"
      = Some {| doc := Some "new"; dcl := None; def := None; ref := None |}
   /\ participates {| doc := Some "new"; dcl := @None (list loc); def := None;
                      ref := None |} = true)
  /\ exists ans st' merged,
       Host.combineCache [] (Host.plain sample_base) mixed_override None
         sample_store = Ok (ans, st', []) []
       /\ Host.unit_of [] ans (file_type function) "a:z" = Some merged
       /\ doc merged = Some "new".
Proof.
  assert (Hwf : wf_cache mixed_override) by by_evaluation.
  assert (Hsafe : safe_merge sample_base mixed_override) by by_evaluation.
  split; [done |].
  exact (combineCache_documentation [] sample_base mixed_override None sample_store
           (file_type function) "a:z" _ Hwf Hsafe eq_refl eq_refl).
Defined.

Lemma combineCache_removeCachePosition_witness :
  (wf_cache sample_base /\ wf_cache sample_override
   /\ safe_merge sample_base sample_override
   /\ Forall (fun l => (l < length sample_store)%nat) (cache_locs sample_override)
   /\ Forall (fun l => uri (deref sample_store l)
                       <> Some (addition_uri sample_addition)
                       /\ l ∉ cache_locs sample_override) (cache_locs sample_base))
  /\ exists ans st',
       Host.combineCache [] (Host.plain sample_base) sample_override
         (Some sample_addition) sample_store = Ok (Host.plain ans, st', []) []
       /\ positions_at
            (removeCachePosition (deref_cache st' ans)
               (addition_uri sample_addition)) (file_type function) "a:x" Dcl
          = [position 0 3].
Proof.
  assert (Hbase : wf_cache sample_base) by by_evaluation.
  assert (Hoverride : wf_cache sample_override) by by_evaluation.
  assert (Hsafe : safe_merge sample_base sample_override) by by_evaluation.
  assert (Hlive : Forall (fun l => (l < length sample_store)%nat)
                    (cache_locs sample_override)) by by_evaluation.
  assert (Hfresh : Forall (fun l => uri (deref sample_store l)
                                    <> Some (addition_uri sample_addition)
                                    /\ l ∉ cache_locs sample_override)
                     (cache_locs sample_base)) by by_evaluation.
  split; [done |].
  exact (combineCache_removeCachePosition [] sample_base sample_override
           sample_addition sample_store (file_type function) "a:x" Dcl
           Hbase Hoverride Hsafe Hlive Hfresh).
Defined.

(** ** The position objects after a merge, whatever the identifiers *)

Section HostStore.
Variable addition : option Addition.

Lemma Host_initUnit_returns ans type id :
  id <> "__proto__" ->
  exists ans' slot, Host.initUnit ans type id = Ok (ans', slot) [].
Proof.
  intros Hid. unfold Host.initUnit.
  destruct (get id (default [] (get type ans))) as [slot|]; [by eexists _, _ |].
  destruct (bool_decide (id ∈ Object_prototype_functions)); [by eexists _, _ |].
  apply String.eqb_neq in Hid. rewrite Hid. by eexists _, _.
Qed.

Lemma Host_combineUnit_store type id overrideUnit ans st host :
  id <> "__proto__" ->
  exists ans' host',
    Host.combineUnit addition type id overrideUnit (ans, st, host)
    = Ok (ans', stamp_all addition (unit_locs overrideUnit) st, host') [].
Proof.
  intros Hid. unfold Host.combineUnit.
  destruct (participates overrideUnit) eqn:Hp.
  - destruct (Host_initUnit_returns ans type id Hid) as (ans1 & slot & ->).
    rewrite Res_bind_ret.
    pose proof (mergeUnit_store addition overrideUnit (Host.read host slot) st) as Hst.
    destruct (mergeUnit addition overrideUnit (Host.read host slot) st)
      as [merged st1].
    cbn [snd] in Hst. subst st1. destruct slot; by eexists _, _.
  - exists ans, host. unfold unit_locs. rewrite !not_participates_locs by done.
    by destruct addition.
Qed.

Lemma Host_combine_category_store type (l : CacheCategory loc) ans st host :
  Forall (fun u => u.1 <> "__proto__") l ->
  exists ans' host',
    foldRes (fun s '(id, overrideUnit) =>
               Host.combineUnit addition type id overrideUnit s) l (ans, st, host)
    = Ok (ans', stamp_all addition (category_locs l) st, host') [].
Proof.
  revert ans st host. induction l as [|[id unit] l IH]; intros ans st host Hids.
  - exists ans, host. by destruct addition.
  - apply Forall_cons in Hids as [Hid Hids]. cbn [fst] in Hid. cbn [foldRes].
    destruct (Host_combineUnit_store type id unit ans st host Hid)
      as (ans1 & host1 & ->).
    rewrite Res_bind_ret.
    destruct (IH ans1 (stamp_all addition (unit_locs unit) st) host1 Hids)
      as (ans' & host' & ->).
    exists ans', host'. unfold category_locs. cbn [map concat].
    by rewrite stamp_all_app.
Qed.

Lemma Host_combine_entries_store (l : ClientCache loc) ans st host :
  Forall (fun e => NoDup (keys e.2)) l ->
  Forall (fun e => Forall (fun u => u.1 <> "__proto__") e.2) l ->
  exists ans' host',
    foldRes (fun s '(type, overrideCategory) =>
               foldRes (fun s '(id, overrideUnit) =>
                 Host.combineUnit addition type id overrideUnit s)
                 (entries overrideCategory) s) l (ans, st, host)
    = Ok (ans', stamp_all addition (cache_locs l) st, host') [].
Proof.
  revert ans st host.
  induction l as [|[type category] l IH]; intros ans st host Hkeys Hids.
  - exists ans, host. by destruct addition.
  - apply Forall_cons in Hkeys as [Hcat Hkeys].
    apply Forall_cons in Hids as [Hid Hids]. cbn [snd] in Hcat, Hid.
    cbn [foldRes]. rewrite entries_NoDup by done.
    destruct (Host_combine_category_store type category ans st host Hid)
      as (ans1 & host1 & ->).
    rewrite Res_bind_ret.
    destruct (IH ans1 (stamp_all addition (category_locs category) st) host1
                Hkeys Hids) as (ans' & host' & ->).
    exists ans', host'. unfold cache_locs. cbn [map concat].
    by rewrite stamp_all_app.
Qed.
End HostStore.

(** Whatever members of [Object.prototype] the identifiers of the override
    name, [__proto__] apart, and whatever the base and the functions of the
    host hold, the merge returns, and it writes the position objects as the
    merge on own keys does: every position object outside the override is
    left as it was; without a stamp descriptor no object is written; with
    one, every position of the override reads afterwards as its stamped
    version. *)
Theorem combineCache_override_inherited host base override addition st :
  wf_cache override ->
  Forall (fun l => (l < length st)%nat) (cache_locs override) ->
  Forall (fun e => Forall (fun u => u.1 <> "__proto__") e.2) override ->
  exists ans st' host',
    Host.combineCache host base override addition st = Ok (ans, st', host') []
    /\ st' = (combineCache [] override addition st).2
    /\ deref_cache st' override
       = match addition with
         | Some a => map_cache (stamp a) (deref_cache st override)
         | None => deref_cache st override
         end
    /\ (forall l, l ∉ cache_locs override -> st' !! l = st !! l)
    /\ (addition = None -> st' = st).
Proof.
  intros Hwf Hvalid Hids. unfold Host.combineCache.
  rewrite entries_NoDup by apply Hwf.
  destruct (Host_combine_entries_store addition override base st host
              (proj2 Hwf) Hids) as (ans & host' & ->).
  eexists _, _, _. split; [done |].
  split; [by rewrite combineCache_store |].
  destruct addition as [a|]; [|done]. split; [|split; [|done]].
  - rewrite !deref_cache_map_cache, map_cache_compose. apply map_cache_ext.
    intros l Hl. rewrite Forall_forall in Hvalid. specialize (Hvalid l Hl).
    apply lookup_lt_is_Some in Hvalid as [x Hx]. unfold deref.
    rewrite (list_lookup_total_correct st l x) by done.
    apply list_lookup_total_correct.
    rewrite stamp_all_lookup, decide_True by done. by rewrite Hx.
  - intros l Hl. by rewrite stamp_all_lookup, decide_False.
Qed.

Lemma combineCache_override_inherited_witness :
  (wf_cache constructor_override
   /\ Forall (fun l => (l < length sample_store)%nat) (cache_locs constructor_override)
   /\ Forall (fun e => Forall (fun u => u.1 <> "__proto__") e.2) constructor_override)
  /\ exists ans st' host',
       Host.combineCache [] (Host.plain []) constructor_override
         (Some sample_addition) sample_store = Ok (ans, st', host') []
       /\ deref_cache st' constructor_override
          = map_cache (stamp sample_addition)
              (deref_cache sample_store constructor_override).
Proof.
  assert (Hwf : wf_cache constructor_override) by by_evaluation.
  assert (Hvalid : Forall (fun l => (l < length sample_store)%nat)
                     (cache_locs constructor_override)) by by_evaluation.
  assert (Hids : Forall (fun e => Forall (fun u => u.1 <> "__proto__") e.2)
                   constructor_override) by by_evaluation.
  split; [done |].
  destruct (combineCache_override_inherited [] (Host.plain []) constructor_override
              (Some sample_addition) sample_store Hwf Hvalid Hids)
    as (ans & st' & host' & Hres & _ & Hstamp & _).
  by exists ans, st', host'.
Defined.

(** ** Completions from the view of a file *)

Lemma filter_nonempty {A} (f : A -> bool) (l : list A) :
  match List.filter f l with [] => false | _ :: _ => true end = existsb f l.
Proof.
  induction l as [|x l IH]; simpl; [done |]. by destruct (f x).
Qed.

Lemma has_length_viewUnit {P} (pass : P -> bool) (unit : CacheUnit P) :
  has_length Dcl (viewUnit pass unit) = existsb pass (unit_positions Dcl unit)
  /\ has_length Def (viewUnit pass unit) = existsb pass (unit_positions Def unit).
Proof.
  unfold has_length, unit_positions.
  destruct unit as [d [a|] [b|] r]; simpl; rewrite <- ?filter_nonempty;
    split; try done; by destruct (List.filter _ _).
Qed.

Lemma keepUnit_viewUnit {P} (pass : P -> bool) (unit : CacheUnit P) :
  keepUnit (viewUnit pass unit)
  = if offers pass unit then Some (viewUnit pass unit) else None.
Proof.
  unfold keepUnit, offers.
  destruct (has_length_viewUnit pass unit) as [-> ->].
  by destruct (existsb _ _), (existsb _ _).
Qed.

Lemma viewCategory_filter {P} (pass : P -> bool) (category : CacheCategory P) :
  viewCategory pass category
  = map_values (viewUnit pass) (List.filter (fun e => offers pass e.2) category).
Proof.
  unfold viewCategory, map_values.
  induction category as [|[id unit] category IH]; [done |].
  csimpl. rewrite keepUnit_viewUnit, IH. by destruct (offers pass unit).
Qed.

Lemma getCompletions_suggest {P} (c : ClientCache P) type start_ end__ :
  getCompletions c type start_ end__
  = map (suggest start_ end__) (entries (getSafeCategory (Some c) type)).
Proof. unfold getCompletions. apply map_ext. by intros [id unit]. Qed.

Lemma suggest_map_values {P Q} (f : CacheUnit P -> CacheUnit Q) start_ end__
    (category : CacheCategory P) :
  (forall unit, doc (f unit) = doc unit) ->
  map (suggest start_ end__) (map_values f category)
  = map (suggest start_ end__) category.
Proof.
  intros Hdoc. unfold map_values. rewrite map_map. apply map_ext.
  intros [id unit]. unfold suggest, has_doc. simpl. by rewrite Hdoc.
Qed.

Lemma getSafeCategory_map_values {P Q} (f : CacheUnit P -> CacheUnit Q)
    (c : ClientCache P) type :
  getSafeCategory (Some (map_values (map_values f) c)) type
  = map_values f (getSafeCategory (Some c) type).
Proof.
  unfold getSafeCategory. simpl. rewrite get_map_values.
  by destruct (get type c).
Qed.

Lemma wf_getSafeCategory {P} (c : ClientCache P) type :
  wf_cache c -> NoDup (keys (getSafeCategory (Some c) type)).
Proof.
  intros [_ Hcats]. unfold getSafeCategory. simpl.
  destruct (get type c) as [category|] eqn:Hcat; simpl; [|constructor].
  rewrite Forall_forall in Hcats. apply (Hcats _ (get_Some_elem _ _ _ Hcat)).
Qed.

(** [getCompletions] reads identifiers and documentation only: it gives the
    same suggestions for a cache of references as for the cache read through
    any store. *)
Lemma getCompletions_map_cache {P Q} (f : P -> Q) (c : ClientCache P) type
    start_ end__ :
  wf_cache c ->
  getCompletions (map_cache f c) type start_ end__
  = getCompletions c type start_ end__.
Proof.
  intros Hwf. rewrite !getCompletions_suggest. unfold map_cache.
  rewrite getSafeCategory_map_values.
  rewrite !entries_NoDup
    by (rewrite ?keys_map_values; by apply wf_getSafeCategory).
  by apply suggest_map_values.
Qed.

Lemma getSafeCategory_viewCache {P} (pass : P -> bool) (c : ClientCache P) type :
  wf_cache c ->
  getSafeCategory (Some (viewCache pass c)) type
  = viewCategory pass (getSafeCategory (Some c) type).
Proof.
  intros [Hnd _]. unfold getSafeCategory, viewCache. simpl.
  rewrite (get_omap_keep (fun category => keepCategory (viewCategory pass category)))
    by done.
  destruct (get type c) as [category|]; [|done]. simpl.
  unfold keepCategory. destruct (decide _) as [Hlen|]; [|done]. simpl.
  by destruct (viewCategory pass category).
Qed.

Lemma NoDup_keys_filterb {K V} (f : K * V -> bool) (o : Obj K V) :
  NoDup (keys o) -> NoDup (keys (List.filter f o)).
Proof.
  induction o as [|[k v] o IH]; simpl; [done |].
  intros [Hk Hnd]%NoDup_cons. destruct (f (k, v)); simpl; [|auto].
  apply NoDup_cons. split; [|auto]. intros Hin. apply Hk.
  unfold keys in *. apply list_elem_of_fmap in Hin as (e & -> & He).
  apply list_elem_of_fmap. exists e. split; [done |].
  apply list_elem_of_In, filter_In in He as [He _]. by apply list_elem_of_In.
Qed.

Lemma getCompletions_viewCache_eq {P} (pass : P -> bool) (c : ClientCache P)
    type start_ end__ :
  wf_cache c ->
  getCompletions (viewCache pass c) type start_ end__
  = map (suggest start_ end__)
      (List.filter (fun e => offers pass e.2) (getSafeCategory (Some c) type)).
Proof.
  intros Hwf. rewrite getCompletions_suggest, getSafeCategory_viewCache by done.
  rewrite viewCategory_filter.
  rewrite entries_NoDup
    by (rewrite keys_map_values; by apply NoDup_keys_filterb, wf_getSafeCategory).
  by apply suggest_map_values.
Qed.

Lemma NoDup_keys_omap_keep {K V} (h : V -> option V) (o : Obj K V) :
  NoDup (keys o) ->
  NoDup (keys (omap (fun e => (fun v => (e.1, v)) <$> h e.2) o)).
Proof.
  induction o as [|[k v] o IH]; csimpl; [done |].
  intros [Hk Hnd]%NoDup_cons. destruct (h v) as [v'|]; csimpl; [|auto].
  apply NoDup_cons. split; [|auto]. intros Hin. apply Hk.
  unfold keys in *. apply list_elem_of_fmap in Hin as (e & -> & He).
  apply list_elem_of_omap in He as ([k0 v0] & He & Hkeep). simpl in Hkeep.
  destruct (h v0); [|done]. injection Hkeep as <-. simpl.
  apply list_elem_of_fmap. by exists (k0, v0).
Qed.

Lemma wf_viewCache {P} (pass : P -> bool) (c : ClientCache P) :
  wf_cache c -> wf_cache (viewCache pass c).
Proof.
  intros [Hnd Hcats]. split.
  - by apply (NoDup_keys_omap_keep
                (fun category => keepCategory (viewCategory pass category))).
  - apply Forall_forall. intros [type category] Hin.
    apply viewCache_elem in Hin as (category0 & Hin & -> & _). simpl.
    rewrite viewCategory_filter, keys_map_values. apply NoDup_keys_filterb.
    rewrite Forall_forall in Hcats. apply (Hcats _ Hin).
Qed.

Lemma sublist_filter {A} (f : A -> bool) (l : list A) : List.filter f l `sublist_of` l.
Proof.
  induction l as [|x l IH]; simpl; [done |].
  destruct (f x); by constructor.
Qed.

Section CompletionsOfView.
Context {IdentityNode : Type} `{IdentityOps IdentityNode}.
Variable fuel : nat.
Variable service : DatapackLanguageService IdentityNode.
Variable forType : FileType.
Variable forID : IdentityNode.
Variable config : Config.

(** The completions made from the cache [getCacheForID] returns for a file
    are the completions of the shared cache for the identifiers that have a
    declaration or definition visible from the file, in the same order and
    with the same documentation: an identifier of which every declaration
    and definition is hidden, or which is only referenced, is not
    suggested. *)
Theorem getCacheForID_getCompletions st type start_ end__ :
  wf_cache (cache service) ->
  Forall (fun l => (l < length st)%nat) (cache_locs (cache service)) ->
  Forall (fun p => returns (visible fuel service forType forID config p))
    (tested_positions (deref_cache st (cache service))) ->
  exists ans st' log,
    getCacheForID fuel service forType forID config st = Ok (ans, st') log
    /\ getCompletions ans type start_ end__
       = map (suggest start_ end__)
           (List.filter
              (fun e => offers (accepted (visible fuel service forType forID config)) e.2)
              (getSafeCategory (Some (deref_cache st (cache service))) type))
    /\ getCompletions ans type start_ end__
       `sublist_of` getCompletions (cache service) type start_ end__.
Proof.
  intros Hwf Hvalid Htested.
  destruct (getCacheForID_spec fuel service forType forID config st Hwf Hvalid Htested)
    as (ans & st' & log & added & Hres & _ & _ & Hview).
  exists ans, st', log. split; [done |].
  assert (Hwfs : wf_cache (deref_cache st (cache service))).
  { rewrite deref_cache_map_cache. by apply wf_map_cache. }
  assert (Hwfa : wf_cache ans).
  { apply (wf_map_cache (deref st')). rewrite <- deref_cache_map_cache, Hview.
    by apply wf_viewCache. }
  assert (Heq : getCompletions ans type start_ end__
                = map (suggest start_ end__)
                    (List.filter
                       (fun e => offers (accepted (visible fuel service forType forID
                                                     config)) e.2)
                       (getSafeCategory (Some (deref_cache st (cache service))) type))).
  { rewrite <- (getCompletions_map_cache (deref st') ans) by done.
    rewrite <- deref_cache_map_cache, Hview.
    by apply getCompletions_viewCache_eq. }
  split; [done |]. rewrite Heq.
  rewrite <- (getCompletions_map_cache (deref st) (cache service)) by done.
  rewrite <- deref_cache_map_cache, getCompletions_suggest.
  rewrite entries_NoDup by by apply wf_getSafeCategory.
  apply (fmap_sublist (suggest start_ end__)), sublist_filter.
Qed.
End CompletionsOfView.

(** ** Instances *)

Lemma visible_returns_witness :
  (Forall supported (default [] (visibility private_declaration))
   /\ default_supported sample_service (uri private_declaration) public_config)
  /\ returns (visible 3 sample_service function (sample_id "b" "y") public_config
                private_declaration).
Proof.
  assert (Hrules : Forall supported (default [] (visibility private_declaration))).
  { repeat constructor. by eexists. }
  assert (Hdefault : default_supported sample_service (uri private_declaration)
                       public_config).
  { repeat constructor. by eexists. }
  split; [done |].
  exact (visible_returns 0 sample_service function (sample_id "b" "y") public_config
           private_declaration Hrules Hdefault).
Defined.

Lemma getCacheForID_getCompletions_witness :
  (wf_cache (cache sample_service)
   /\ Forall (fun l => (l < length shared_store)%nat) (cache_locs (cache sample_service))
   /\ Forall (fun p => returns (visible 3 sample_service function (sample_id "a" "x")
                               public_config p))
        (tested_positions (deref_cache shared_store (cache sample_service))))
  /\ exists ans st' log,
       getCacheForID 3 sample_service function (sample_id "a" "x") public_config
         shared_store = Ok (ans, st') log
       /\ map label (getCompletions ans (file_type function) 0 0) = ["a:x"].
Proof.
  assert (Hwf : wf_cache (cache sample_service)) by by_evaluation.
  assert (Hvalid : Forall (fun l => (l < length shared_store)%nat)
                     (cache_locs (cache sample_service)))
    by by_evaluation.
  assert (Htested : Forall (fun p => returns (visible 3 sample_service function
                                                (sample_id "a" "x") public_config p))
                      (tested_positions (deref_cache shared_store (cache sample_service))))
    by by_evaluation.
  split; [done |].
  destruct (getCacheForID_getCompletions 3 sample_service function (sample_id "a" "x")
              public_config shared_store (file_type function) 0 0 Hwf Hvalid Htested)
    as (ans & st' & log & Hres & Heq & _).
  exists ans, st', log. split; [done |]. by rewrite Heq.
Defined.

(** * The heap of objects: frames, [rfdc] and [getCacheForID] *)

(** ** The graph of objects *)

Lemma lookup_total_of_lookup {A} `{Inhabited A} (l l' : list A) i :
  l' !! i = l !! i -> l' !!! i = l !!! i.
Proof. intros Heq. by rewrite !list_lookup_total_alt, Heq. Qed.

Section HeapFrame.
Import Heap.
Implicit Types (hp : Heap) (a : Addr) (F : list Addr).


Lemma agree_sub F F' hp hp' : F' ⊆ F -> agree F hp hp' -> agree F' hp hp'.
Proof. intros Hsub Hagree a Ha. apply Hagree, Hsub, Ha. Qed.

Lemma agree_cons a F hp hp' :
  agree (a :: F) hp hp' -> object_at hp' a = object_at hp a /\ agree F hp hp'.
Proof.
  intros Hagree. split; [apply Hagree, list_elem_of_here |].
  intros b Hb. by apply Hagree, list_elem_of_further.
Qed.

Lemma agree_app F1 F2 hp hp' :
  agree (F1 ++ F2) hp hp' -> agree F1 hp hp' /\ agree F2 hp hp'.
Proof.
  intros Hagree. split; intros b Hb; apply Hagree, elem_of_app; auto.
Qed.

Lemma agree_bind {A} (f : A -> list Addr) (l : list A) x hp hp' :
  x ∈ l -> agree (l ≫= f) hp hp' -> agree (f x) hp hp'.
Proof.
  intros Hx Hagree b Hb. apply Hagree, list_elem_of_bind. eauto.
Qed.

Lemma object_at_caches hp hp' i :
  object_at hp' (Caches, i) = object_at hp (Caches, i) ->
  caches hp' !! i = caches hp !! i.
Proof.
  unfold object_at. simpl.
  destruct (caches hp' !! i), (caches hp !! i); simpl; congruence.
Qed.

Lemma object_at_categories hp hp' i :
  object_at hp' (Categories, i) = object_at hp (Categories, i) ->
  categories hp' !! i = categories hp !! i.
Proof.
  unfold object_at. simpl.
  destruct (categories hp' !! i), (categories hp !! i); simpl; congruence.
Qed.

Lemma object_at_units hp hp' i :
  object_at hp' (Units, i) = object_at hp (Units, i) ->
  units hp' !! i = units hp !! i.
Proof.
  unfold object_at. simpl.
  destruct (units hp' !! i), (units hp !! i); simpl; congruence.
Qed.

Lemma object_at_arrays hp hp' i :
  object_at hp' (Arrays, i) = object_at hp (Arrays, i) ->
  arrays hp' !! i = arrays hp !! i.
Proof.
  unfold object_at. simpl.
  destruct (arrays hp' !! i), (arrays hp !! i); simpl; congruence.
Qed.

Lemma object_at_positions hp hp' i :
  object_at hp' (Positions, i) = object_at hp (Positions, i) ->
  positions hp' !! i = positions hp !! i.
Proof.
  unfold object_at. simpl.
  destruct (positions hp' !! i), (positions hp !! i); simpl; congruence.
Qed.

Lemma object_at_rule_arrays hp hp' i :
  object_at hp' (RuleArrays, i) = object_at hp (RuleArrays, i) ->
  rule_arrays hp' !! i = rule_arrays hp !! i.
Proof.
  unfold object_at. simpl.
  destruct (rule_arrays hp' !! i), (rule_arrays hp !! i); simpl; congruence.
Qed.

Lemma object_at_rules hp hp' i :
  object_at hp' (RuleObjects, i) = object_at hp (RuleObjects, i) ->
  rules hp' !! i = rules hp !! i.
Proof.
  unfold object_at. simpl.
  destruct (rules hp' !! i), (rules hp !! i); simpl; congruence.
Qed.

Lemma object_at_scopes hp hp' i :
  object_at hp' (Scopes, i) = object_at hp (Scopes, i) ->
  scopes hp' !! i = scopes hp !! i.
Proof.
  unfold object_at. simpl.
  destruct (scopes hp' !! i), (scopes hp !! i); simpl; congruence.
Qed.


Lemma framed_bind {A} (decode : Heap -> nat -> A) reach (l : list nat) hp hp' :
  framed decode reach ->
  agree (l ≫= reach hp) hp hp' ->
  l ≫= reach hp' = l ≫= reach hp /\ map (decode hp') l = map (decode hp) l.
Proof.
  intros Hframed. induction l as [|r l IH]; csimpl; [done |].
  intros [Hr Hl]%agree_app. destruct (Hframed hp hp' r Hr) as [-> ->].
  destruct (IH Hl) as [-> ->]. done.
Qed.

Lemma framed_rule :
  framed (fun hp v => rules hp !!! v) (fun hp v => [(RuleObjects, v)]).
Proof.
  intros hp hp' v [Hv _]%agree_cons. split; [done |].
  by apply lookup_total_of_lookup, object_at_rules.
Qed.

Lemma bind_singleton {A B} (f : A -> B) (l : list A) : l ≫= (fun x => [f x]) = map f l.
Proof. induction l as [|x l IH]; csimpl; [done |]. by rewrite IH. Qed.

Lemma framed_rules : framed decode_rules reach_rules.
Proof.
  intros hp hp' r. unfold reach_rules, decode_rules.
  intros [Hr Hvs]%agree_cons.
  rewrite (lookup_total_of_lookup _ _ _ (object_at_rule_arrays _ _ _ Hr)).
  split; [done |].
  rewrite <- bind_singleton in Hvs.
  by destruct (framed_bind _ _ _ hp hp' framed_rule Hvs) as [_ ->].
Qed.

Lemma framed_scope :
  framed (fun hp s => scopes hp !!! s) (fun hp s => [(Scopes, s)]).
Proof.
  intros hp hp' v [Hv _]%agree_cons. split; [done |].
  by apply lookup_total_of_lookup, object_at_scopes.
Qed.

Lemma framed_option {A} (decode : Heap -> nat -> A) reach (o : option nat) hp hp' :
  framed decode reach ->
  agree (option_list o ≫= reach hp) hp hp' ->
  option_list o ≫= reach hp' = option_list o ≫= reach hp
  /\ decode hp' <$> o = decode hp <$> o.
Proof.
  intros Hframed Hagree.
  destruct (framed_bind _ _ _ hp hp' Hframed Hagree) as [Hreach Hdecode].
  split; [done |]. destruct o as [r|]; [|done]. simpl in *. congruence.
Qed.

Lemma framed_position : framed decode_position reach_position.
Proof.
  intros hp hp' p. unfold reach_position, decode_position.
  intros [Hp [Hv Hs]%agree_app]%agree_cons.
  rewrite (lookup_total_of_lookup _ _ _ (object_at_positions _ _ _ Hp)).
  destruct (framed_option _ _ _ hp hp' framed_rules Hv) as [-> ->].
  rewrite <- bind_singleton in Hs.
  destruct (framed_option _ _ _ hp hp' framed_scope Hs) as [_ ->]. done.
Qed.

Lemma framed_array : framed decode_array reach_array.
Proof.
  intros hp hp' a. unfold reach_array, decode_array.
  intros [Ha Hps]%agree_cons.
  rewrite (lookup_total_of_lookup _ _ _ (object_at_arrays _ _ _ Ha)).
  by destruct (framed_bind _ _ _ hp hp' framed_position Hps) as [-> ->].
Qed.

Lemma framed_unit : framed decode_unit reach_unit.
Proof.
  intros hp hp' u. unfold reach_unit, decode_unit, unit_arrays.
  intros [Hu Has]%agree_cons.
  rewrite (lookup_total_of_lookup _ _ _ (object_at_units _ _ _ Hu)).
  destruct (framed_bind _ _ _ hp hp' framed_array Has) as [-> Hdecode].
  split; [done |]. rewrite !map_app in Hdecode.
  destruct (unit_dcl (units hp !!! u)), (unit_def (units hp !!! u)),
    (unit_ref (units hp !!! u)); simpl in *; congruence.
Qed.

Lemma map_values_ext_refs {K A} (g g' : nat -> A) (cell : Obj K nat) :
  map g' cell.*2 = map g cell.*2 -> map_values g' cell = map_values g cell.
Proof.
  induction cell as [|[k r] cell IH]; [done |]. csimpl.
  intros [= Hr Hcell]. by rewrite Hr, IH.
Qed.

Lemma framed_category : framed decode_category reach_category.
Proof.
  intros hp hp' c. unfold reach_category, decode_category.
  intros [Hc Hus]%agree_cons.
  rewrite (lookup_total_of_lookup _ _ _ (object_at_categories _ _ _ Hc)).
  destruct (framed_bind _ _ _ hp hp' framed_unit Hus) as [-> Hdecode].
  split; [done |]. by apply map_values_ext_refs.
Qed.

Lemma framed_cache : framed decode_cache reach_cache.
Proof.
  intros hp hp' r. unfold reach_cache, decode_cache.
  intros [Hr Hcs]%agree_cons.
  rewrite (lookup_total_of_lookup _ _ _ (object_at_caches _ _ _ Hr)).
  destruct (framed_bind _ _ _ hp hp' framed_category Hcs) as [-> Hdecode].
  split; [done |]. by apply map_values_ext_refs.
Qed.
End HeapFrame.

Section HeapAlloc.
Import Heap.
Implicit Types (hp : Heap) (a : Addr) (F : list Addr).



Lemma extends_refl hp : extends hp hp.
Proof. by split. Qed.

Lemma extends_trans hp1 hp2 hp3 : extends hp1 hp2 -> extends hp2 hp3 -> extends hp1 hp3.
Proof.
  intros [Hs1 Ho1] [Hs2 Ho2]. split.
  - intros s. specialize (Hs1 s). specialize (Hs2 s). lia.
  - intros a Ha. rewrite Ho2, Ho1; [done | done |].
    unfold live in *. specialize (Hs1 a.1). lia.
Qed.

Lemma extends_agree hp hp' F : extends hp hp' -> Forall (live hp) F -> agree F hp hp'.
Proof.
  intros [_ Ho] Hlive a Ha. rewrite Forall_forall in Hlive. auto.
Qed.

Lemma created_live hp hp' F : created hp hp' F -> Forall (live hp') F.
Proof.
  intros Hcreated. eapply Forall_impl; [exact Hcreated |].
  intros a Ha. unfold live. simpl in Ha. lia.
Qed.

Lemma created_mono hp0 hp1 hp2 hp3 F :
  extends hp0 hp1 -> extends hp2 hp3 -> created hp1 hp2 F -> created hp0 hp3 F.
Proof.
  intros [Hs1 _] [Hs2 _] Hcreated. eapply Forall_impl; [exact Hcreated |].
  intros a Ha. simpl in Ha.
  specialize (Hs1 a.1). specialize (Hs2 a.1). lia.
Qed.

Lemma created_app hp hp' F1 F2 :
  created hp hp' (F1 ++ F2) <-> created hp hp' F1 /\ created hp hp' F2.
Proof. apply Forall_app. Qed.

(** Objects made one after the other are different objects. *)
Lemma created_disjoint hp1 hp2 hp3 F1 F2 a :
  created hp1 hp2 F1 -> created hp2 hp3 F2 -> a ∈ F1 -> a ∉ F2.
Proof.
  unfold created. rewrite !Forall_forall. intros H1 H2 Ha1 Ha2.
  specialize (H1 a Ha1). specialize (H2 a Ha2). lia.
Qed.

Ltac solve_push :=
  split;
  [ intros []; simpl; rewrite ?length_app; simpl; lia
  | intros [[] i]; unfold live, object_at; simpl; intros Hi; try done;
    by rewrite lookup_app_l ].

Lemma extends_push_caches hp o : extends hp (with_caches (caches hp ++ [o]) hp).
Proof. solve_push. Qed.
Lemma extends_push_categories hp o :
  extends hp (with_categories (categories hp ++ [o]) hp).
Proof. solve_push. Qed.
Lemma extends_push_units hp o : extends hp (with_units (units hp ++ [o]) hp).
Proof. solve_push. Qed.
Lemma extends_push_arrays hp o : extends hp (with_arrays (arrays hp ++ [o]) hp).
Proof. solve_push. Qed.
Lemma extends_push_positions hp o :
  extends hp (with_positions (positions hp ++ [o]) hp).
Proof. solve_push. Qed.
Lemma extends_push_rule_arrays hp o :
  extends hp (with_rule_arrays (rule_arrays hp ++ [o]) hp).
Proof. solve_push. Qed.
Lemma extends_push_rules hp o : extends hp (with_rules (rules hp ++ [o]) hp).
Proof. solve_push. Qed.
Lemma extends_push_scopes hp o : extends hp (with_scopes (scopes hp ++ [o]) hp).
Proof. solve_push. Qed.


Lemma framed_extends {A} (decode : Heap -> nat -> A) reach hp hp' hp'' r :
  framed decode reach ->
  created hp hp' (reach hp' r) -> extends hp' hp'' ->
  reach hp'' r = reach hp' r /\ decode hp'' r = decode hp' r.
Proof.
  intros Hframed Hcreated Hext. apply Hframed.
  by eapply extends_agree, created_live.
Qed.

Lemma allocs_spec {A} (alloc : A -> Heap -> nat * Heap) decode reach :
  allocates alloc decode reach -> framed decode reach ->
  forall vs hp,
    extends hp (allocs alloc vs hp).2
    /\ created hp (allocs alloc vs hp).2
         ((allocs alloc vs hp).1 ≫= reach (allocs alloc vs hp).2)
    /\ NoDup ((allocs alloc vs hp).1 ≫= reach (allocs alloc vs hp).2)
    /\ map (decode (allocs alloc vs hp).2) (allocs alloc vs hp).1 = vs.
Proof.
  intros Halloc Hframed vs. induction vs as [|v vs IH]; intros hp.
  - simpl. split_and!; [apply extends_refl | constructor | constructor | done].
  - cbn [allocs]. specialize (Halloc v hp).
    destruct (alloc v hp) as [r hp1]. cbn [fst snd] in Halloc.
    destruct Halloc as (Hext1 & Hcr1 & Hnd1 & Hdec1).
    specialize (IH hp1). destruct (allocs alloc vs hp1) as [rs hp2].
    cbn [fst snd] in *. destruct IH as (Hext2 & Hcr2 & Hnd2 & Hdec2).
    destruct (framed_extends decode reach hp hp1 hp2 r Hframed Hcr1 Hext2)
      as [Hreach Hdecode].
    csimpl. rewrite Hreach, Hdecode, Hdec1, Hdec2.
    split_and!; [by eapply extends_trans | | | done].
    + apply created_app. split.
      * eapply created_mono; [apply extends_refl | exact Hext2 | exact Hcr1].
      * eapply created_mono; [exact Hext1 | apply extends_refl | exact Hcr2].
    + apply NoDup_app. split_and!; [done | | done].
      intros a. by eapply created_disjoint.
Qed.

Lemma alloc_option_spec {A} (alloc : A -> Heap -> nat * Heap) decode reach :
  allocates alloc decode reach ->
  forall o hp,
    extends hp (alloc_option alloc o hp).2
    /\ created hp (alloc_option alloc o hp).2
         (option_list (alloc_option alloc o hp).1
            ≫= reach (alloc_option alloc o hp).2)
    /\ NoDup (option_list (alloc_option alloc o hp).1
                ≫= reach (alloc_option alloc o hp).2)
    /\ decode (alloc_option alloc o hp).2 <$> (alloc_option alloc o hp).1 = o.
Proof.
  intros Halloc [v|] hp; simpl.
  - specialize (Halloc v hp). destruct (alloc v hp) as [r hp1].
    cbn [fst snd] in *. destruct Halloc as (Hext & Hcr & Hnd & Hdec).
    csimpl. rewrite app_nil_r, Hdec. done.
  - split_and!; [apply extends_refl | constructor | constructor | done].
Qed.
End HeapAlloc.

Section HeapAllocLevels.
Import Heap.
Implicit Types (hp : Heap) (a : Addr) (F : list Addr).

Lemma framed_extends_bind {A} (decode : Heap -> nat -> A) reach hp hp1 hp2 rs :
  framed decode reach ->
  created hp hp1 (rs ≫= reach hp1) -> extends hp1 hp2 ->
  rs ≫= reach hp2 = rs ≫= reach hp1 /\ map (decode hp2) rs = map (decode hp1) rs.
Proof.
  intros Hframed Hcreated Hext. apply framed_bind; [done |].
  by eapply extends_agree, created_live.
Qed.

Lemma framed_extends_option {A} (decode : Heap -> nat -> A) reach hp hp1 hp2 o :
  framed decode reach ->
  created hp hp1 (option_list o ≫= reach hp1) -> extends hp1 hp2 ->
  option_list o ≫= reach hp2 = option_list o ≫= reach hp1
  /\ decode hp2 <$> o = decode hp1 <$> o.
Proof.
  intros Hframed Hcreated Hext. apply framed_option; [done |].
  by eapply extends_agree, created_live.
Qed.

(** The object made after the objects [F] is none of them. *)
Lemma node_created hp hp1 hp2 s F :
  extends hp hp1 -> created hp hp1 F -> extends hp1 hp2 ->
  size s hp2 = S (size s hp1) ->
  created hp hp2 ((s, size s hp1) :: F) /\ (s, size s hp1) ∉ F.
Proof.
  intros [Hs1 _] Hcreated Hext Hsize. split.
  - apply Forall_cons. split.
    + simpl. specialize (Hs1 s). lia.
    + eapply created_mono; [apply extends_refl | exact Hext | exact Hcreated].
  - intros Hin. unfold created in Hcreated. rewrite Forall_forall in Hcreated.
    specialize (Hcreated _ Hin). simpl in Hcreated. lia.
Qed.

Lemma allocates_rule :
  allocates alloc_rule (fun hp v => rules hp !!! v) (fun hp v => [(RuleObjects, v)]).
Proof.
  intros v hp. unfold alloc_rule. cbn [fst snd].
  split_and!; [apply extends_push_rules | | apply NoDup_singleton |].
  - apply Forall_singleton. simpl. rewrite length_app. simpl. lia.
  - simpl. by apply list_lookup_total_middle.
Qed.

Lemma allocates_scope :
  allocates alloc_scope (fun hp s => scopes hp !!! s) (fun hp s => [(Scopes, s)]).
Proof.
  intros v hp. unfold alloc_scope. cbn [fst snd].
  split_and!; [apply extends_push_scopes | | apply NoDup_singleton |].
  - apply Forall_singleton. simpl. rewrite length_app. simpl. lia.
  - simpl. by apply list_lookup_total_middle.
Qed.

Lemma allocates_rules : allocates alloc_rules decode_rules reach_rules.
Proof.
  intros vs hp. unfold alloc_rules.
  destruct (allocs_spec _ _ _ allocates_rule framed_rule vs hp)
    as (Hext & Hcr & Hnd & Hdec).
  destruct (allocs alloc_rule vs hp) as [rs hp1]. cbn [fst snd] in *.
  set (hp2 := with_rule_arrays (rule_arrays hp1 ++ [rs]) hp1).
  assert (Hext2 : extends hp1 hp2) by apply extends_push_rule_arrays.
  assert (Hcell : rule_arrays hp2 !!! length (rule_arrays hp1) = rs)
    by (by apply list_lookup_total_middle).
  unfold reach_rules, decode_rules. rewrite Hcell.
  rewrite bind_singleton in Hcr, Hnd.
  destruct (node_created hp hp1 hp2 RuleArrays _ Hext Hcr Hext2) as [Hcr2 Hnotin].
  { simpl. rewrite length_app. simpl. lia. }
  split_and!; [by eapply extends_trans | done | by apply NoDup_cons | done].
Qed.

Lemma allocates_position : allocates alloc_position decode_position reach_position.
Proof.
  intros p hp. unfold alloc_position.
  destruct (alloc_option_spec _ _ _ allocates_rules (visibility p) hp)
    as (Hext1 & Hcr1 & Hnd1 & Hdec1).
  destruct (alloc_option alloc_rules (visibility p) hp) as [v hp1].
  cbn [fst snd] in *.
  destruct (alloc_option_spec _ _ _ allocates_scope (scope p) hp1)
    as (Hext2 & Hcr2 & Hnd2 & Hdec2).
  destruct (alloc_option alloc_scope (scope p) hp1) as [s hp2].
  cbn [fst snd] in *.
  match goal with |- context [positions hp2 ++ [?o]] => set (obj := o) in * end.
  set (hp3 := with_positions (positions hp2 ++ [obj]) hp2).
  assert (Hext3 : extends hp2 hp3) by apply extends_push_positions.
  assert (Hcell : positions hp3 !!! length (positions hp2) = obj)
    by (by apply list_lookup_total_middle).
  destruct (framed_extends_option _ _ hp hp1 hp2 v framed_rules Hcr1 Hext2)
    as [Hreach12 Hdec12].
  assert (Hcr12 : created hp hp2 (option_list v ≫= reach_rules hp2)).
  { rewrite Hreach12.
    eapply created_mono; [apply extends_refl | exact Hext2 | exact Hcr1]. }
  assert (Hcr22 : created hp hp2 (option_list s ≫= fun s => [(Scopes, s)])).
  { eapply created_mono; [exact Hext1 | apply extends_refl | exact Hcr2]. }
  assert (Hchildren : created hp hp2
            ((option_list v ≫= reach_rules hp2)
             ++ map (pair Scopes) (option_list s))).
  { apply created_app. split; [done |]. by rewrite <- bind_singleton. }
  destruct (framed_extends_option _ _ hp hp2 hp3 v framed_rules Hcr12 Hext3)
    as [Hreach23 Hdec23].
  destruct (framed_extends_option _ _ hp hp2 hp3 s framed_scope Hcr22 Hext3)
    as [_ Hsc23].
  destruct (node_created hp hp2 hp3 Positions _
              (extends_trans _ _ _ Hext1 Hext2) Hchildren Hext3) as [Hcr3 Hnotin].
  { simpl. rewrite length_app. simpl. lia. }
  unfold reach_position, decode_position. rewrite Hcell. subst obj. cbn [
    position_start position_end position_uri position_visibility position_scope
    position_startLine position_startChar position_endLine position_endChar].
  rewrite Hreach23, Hdec23, Hdec12, Hdec1, Hsc23, Hdec2.
  split_and!.
  - eapply extends_trans; [|exact Hext3]. by eapply extends_trans.
  - done.
  - apply NoDup_cons. split; [done |]. apply NoDup_app. split_and!.
    + by rewrite Hreach12.
    + intros a Ha. rewrite Hreach12 in Ha. rewrite <- bind_singleton.
      exact (created_disjoint hp hp1 hp2 _ _ a Hcr1 Hcr2 Ha).
    + by rewrite <- bind_singleton.
  - by destruct p.
Qed.

Lemma allocates_array : allocates alloc_array decode_array reach_array.
Proof.
  intros ps hp. unfold alloc_array.
  destruct (allocs_spec _ _ _ allocates_position framed_position ps hp)
    as (Hext & Hcr & Hnd & Hdec).
  destruct (allocs alloc_position ps hp) as [l hp1]. cbn [fst snd] in *.
  set (hp2 := with_arrays (arrays hp1 ++ [l]) hp1).
  assert (Hext2 : extends hp1 hp2) by apply extends_push_arrays.
  assert (Hcell : arrays hp2 !!! length (arrays hp1) = l)
    by (by apply list_lookup_total_middle).
  destruct (framed_extends_bind _ _ hp hp1 hp2 l framed_position Hcr Hext2)
    as [Hreach Hdecode].
  destruct (node_created hp hp1 hp2 Arrays _ Hext Hcr Hext2) as [Hcr2 Hnotin].
  { simpl. rewrite length_app. simpl. lia. }
  unfold reach_array, decode_array. rewrite Hcell, Hreach, Hdecode.
  split_and!; [by eapply extends_trans | done | by apply NoDup_cons | done].
Qed.

Lemma allocates_unit : allocates alloc_unit decode_unit reach_unit.
Proof.
  intros unit hp. unfold alloc_unit.
  destruct (alloc_option_spec _ _ _ allocates_array (dcl unit) hp)
    as (Hext1 & Hcr1 & Hnd1 & Hdec1).
  destruct (alloc_option alloc_array (dcl unit) hp) as [d hp1].
  cbn [fst snd] in *.
  destruct (alloc_option_spec _ _ _ allocates_array (def unit) hp1)
    as (Hext2 & Hcr2 & Hnd2 & Hdec2).
  destruct (alloc_option alloc_array (def unit) hp1) as [f hp2].
  cbn [fst snd] in *.
  destruct (alloc_option_spec _ _ _ allocates_array (ref unit) hp2)
    as (Hext3 & Hcr3 & Hnd3 & Hdec3).
  destruct (alloc_option alloc_array (ref unit) hp2) as [r hp3].
  cbn [fst snd] in *.
  match goal with |- context [units hp3 ++ [?o]] => set (obj := o) in * end.
  set (hp4 := with_units (units hp3 ++ [obj]) hp3).
  assert (Hext4 : extends hp3 hp4) by apply extends_push_units.
  assert (Hcell : units hp4 !!! length (units hp3) = obj)
    by (by apply list_lookup_total_middle).
  assert (Hext13 : extends hp1 hp3) by (by eapply extends_trans).
  assert (Hext03 : extends hp hp3) by (by eapply extends_trans).
  destruct (framed_extends_option _ _ hp hp1 hp3 d framed_array Hcr1 Hext13)
    as [Hreach1 Hdecode1].
  destruct (framed_extends_option _ _ hp1 hp2 hp3 f framed_array Hcr2 Hext3)
    as [Hreach2 Hdecode2].
  assert (Hcrd : created hp hp1 (option_list d ≫= reach_array hp3))
    by (by rewrite Hreach1).
  assert (Hcrf : created hp1 hp2 (option_list f ≫= reach_array hp3))
    by (by rewrite Hreach2).
  assert (Hchildren : created hp hp3 (unit_arrays obj ≫= reach_array hp3)).
  { unfold unit_arrays. subst obj. cbn [unit_dcl unit_def unit_ref].
    rewrite !bind_app. apply created_app. split; [|apply created_app; split].
    - eapply created_mono; [apply extends_refl | exact Hext13 | exact Hcrd].
    - eapply created_mono; [exact Hext1 | exact Hext3 | exact Hcrf].
    - eapply created_mono; [|apply extends_refl | exact Hcr3].
      exact (extends_trans _ _ _ Hext1 Hext2). }
  destruct (framed_extends_bind _ _ hp hp3 hp4 (unit_arrays obj) framed_array
              Hchildren Hext4) as [Hreach4 Hdecode4].
  destruct (node_created hp hp3 hp4 Units _ Hext03 Hchildren Hext4)
    as [Hcr4 Hnotin].
  { simpl. rewrite length_app. simpl. lia. }
  unfold reach_unit, decode_unit. rewrite Hcell, Hreach4.
  split_and!.
  - by eapply extends_trans.
  - done.
  - apply NoDup_cons. split; [done |].
    unfold unit_arrays. subst obj. cbn [unit_dcl unit_def unit_ref].
    rewrite !bind_app. apply NoDup_app. split_and!.
    + by rewrite Hreach1.
    + intros a Ha [Ha'|Ha']%elem_of_app.
      * by eapply (created_disjoint hp hp1 hp2).
      * eapply (created_disjoint hp hp1 hp3); [exact Hcrd | | exact Ha | exact Ha'].
        eapply created_mono; [exact Hext2 | apply extends_refl | exact Hcr3].
    + apply NoDup_app. split_and!; [by rewrite Hreach2 | | done].
      intros a Ha. by eapply (created_disjoint hp1 hp2 hp3).
  - assert (Hd : decode_array hp4 <$> d = dcl unit).
    { rewrite <- Hdec1, <- Hdecode1.
      apply (framed_extends_option _ _ hp hp3 hp4 d framed_array); [|done].
      eapply created_mono; [apply extends_refl | exact Hext13 | exact Hcrd]. }
    assert (Hf : decode_array hp4 <$> f = def unit).
    { rewrite <- Hdec2, <- Hdecode2.
      apply (framed_extends_option _ _ hp1 hp3 hp4 f framed_array); [|done].
      eapply created_mono; [apply extends_refl | exact Hext3 | exact Hcrf]. }
    assert (Hr : decode_array hp4 <$> r = ref unit).
    { rewrite <- Hdec3.
      by apply (framed_extends_option _ _ hp2 hp3 hp4 r framed_array). }
    subst obj. cbn [unit_doc unit_dcl unit_def unit_ref].
    rewrite Hd, Hf, Hr. by destruct unit.
Qed.

Lemma map_values_zip {K A B} (f : A -> B) (ks : list K) (rs : list A) :
  map_values f (zip ks rs) = zip ks (map f rs).
Proof.
  revert rs. induction ks as [|k ks IH]; intros [|r rs]; csimpl; [done.. |].
  by rewrite <- IH.
Qed.

Lemma allocates_category : allocates alloc_category decode_category reach_category.
Proof.
  intros category hp. unfold alloc_category.
  destruct (allocs_spec _ _ _ allocates_unit framed_unit category.*2 hp)
    as (Hext & Hcr & Hnd & Hdec).
  destruct (allocs alloc_unit category.*2 hp) as [us hp1]. cbn [fst snd] in *.
  set (hp2 := with_categories (categories hp1 ++ [zip category.*1 us]) hp1).
  assert (Hext2 : extends hp1 hp2) by apply extends_push_categories.
  assert (Hcell : categories hp2 !!! length (categories hp1) = zip category.*1 us)
    by (by apply list_lookup_total_middle).
  assert (Hlen : length us = length category).
  { apply (f_equal length) in Hdec. by rewrite !length_map in Hdec. }
  destruct (framed_extends_bind _ _ hp hp1 hp2 us framed_unit Hcr Hext2)
    as [Hreach Hdecode].
  destruct (node_created hp hp1 hp2 Categories _ Hext Hcr Hext2) as [Hcr2 Hnotin].
  { simpl. rewrite length_app. simpl. lia. }
  unfold reach_category, decode_category. rewrite Hcell.
  rewrite snd_zip by (rewrite length_fmap; lia). rewrite Hreach.
  split_and!; [by eapply extends_trans | done | by apply NoDup_cons |].
  rewrite map_values_zip, Hdecode, Hdec. apply zip_fst_snd.
Qed.

Lemma allocates_cache : allocates alloc_cache decode_cache reach_cache.
Proof.
  intros c hp. unfold alloc_cache.
  destruct (allocs_spec _ _ _ allocates_category framed_category c.*2 hp)
    as (Hext & Hcr & Hnd & Hdec).
  destruct (allocs alloc_category c.*2 hp) as [cs hp1]. cbn [fst snd] in *.
  set (hp2 := with_caches (caches hp1 ++ [zip c.*1 cs]) hp1).
  assert (Hext2 : extends hp1 hp2) by apply extends_push_caches.
  assert (Hcell : caches hp2 !!! length (caches hp1) = zip c.*1 cs)
    by (by apply list_lookup_total_middle).
  assert (Hlen : length cs = length c).
  { apply (f_equal length) in Hdec. by rewrite !length_map in Hdec. }
  destruct (framed_extends_bind _ _ hp hp1 hp2 cs framed_category Hcr Hext2)
    as [Hreach Hdecode].
  destruct (node_created hp hp1 hp2 Caches _ Hext Hcr Hext2) as [Hcr2 Hnotin].
  { simpl. rewrite length_app. simpl. lia. }
  unfold reach_cache, decode_cache. rewrite Hcell.
  rewrite snd_zip by (rewrite length_fmap; lia). rewrite Hreach.
  split_and!; [by eapply extends_trans | done | by apply NoDup_cons |].
  rewrite map_values_zip, Hdecode, Hdec. apply zip_fst_snd.
Qed.
End HeapAllocLevels.

Section HeapChanges.
Import Heap.
Implicit Types (hp : Heap) (F W : list Addr).



Lemma changes_refl W hp : changes W hp hp.
Proof. by split. Qed.

Lemma changes_trans W1 W2 hp hp1 hp2 :
  changes W1 hp hp1 -> changes W2 hp1 hp2 -> changes (W1 ++ W2) hp hp2.
Proof.
  intros [Hs1 Ho1] [Hs2 Ho2]. split.
  - intros s. specialize (Hs1 s). specialize (Hs2 s). lia.
  - intros b Hb Hnot. apply not_elem_of_app in Hnot as [Hn1 Hn2].
    rewrite Ho2; [by apply Ho1 | | done].
    unfold live in *. specialize (Hs1 b.1). lia.
Qed.

Lemma changes_weaken W W' hp hp' : W ⊆ W' -> changes W hp hp' -> changes W' hp hp'.
Proof. intros Hsub [Hs Ho]. split; [done |]. intros b Hb Hnot. apply Ho; auto. Qed.

Lemma changes_agree W F hp hp' :
  changes W hp hp' -> Forall (live hp) F -> (forall x, x ∈ F -> x ∉ W) ->
  agree F hp hp'.
Proof.
  intros [_ Ho] Hlive Hnot b Hb. rewrite Forall_forall in Hlive. auto.
Qed.

Lemma changes_live W F hp hp' : changes W hp hp' -> Forall (live hp) F -> Forall (live hp') F.
Proof.
  intros [Hs _] Hlive. eapply Forall_impl; [exact Hlive |].
  intros b Hb. unfold live in *. specialize (Hs b.1). lia.
Qed.

Lemma changes_nil_extends hp hp' : changes [] hp hp' <-> extends hp hp'.
Proof.
  split; intros [Hs Ho]; (split; [done |]); intros b Hb; [|intros _]; apply Ho;
    [done | apply not_elem_of_nil | done].
Qed.

Lemma new_array_mono hp0 hp1 hp2 hp3 x :
  (length (arrays hp0) <= length (arrays hp1))%nat ->
  (length (arrays hp2) <= length (arrays hp3))%nat ->
  new_array hp1 hp2 x -> new_array hp0 hp3 x.
Proof. unfold new_array. intros ?? [??]. split; [done | lia]. Qed.

(** *** The kinds of the objects of a graph *)


Lemma reach_position_sorts hp p x : x ∈ reach_position hp p -> below_arrays x.1.
Proof.
  unfold reach_position, below_arrays.
  rewrite elem_of_cons, elem_of_app, list_elem_of_bind, list_elem_of_fmap.
  intros [->|[(r & Hx & _)|(s & -> & _)]]; simpl; [tauto | | tauto].
  unfold reach_rules in Hx. apply elem_of_cons in Hx as [->|Hx]; simpl; [tauto |].
  apply list_elem_of_fmap in Hx as (v & -> & _). simpl. tauto.
Qed.

Lemma reach_array_sorts hp a x :
  x ∈ reach_array hp a -> x = (Arrays, a) \/ below_arrays x.1.
Proof.
  unfold reach_array. rewrite elem_of_cons, list_elem_of_bind.
  intros [->|(p & Hx & _)]; [by left | right]. by eapply reach_position_sorts.
Qed.

Lemma reach_unit_sorts hp u x :
  x ∈ reach_unit hp u -> x = (Units, u) \/ x.1 = Arrays \/ below_arrays x.1.
Proof.
  unfold reach_unit. rewrite elem_of_cons, list_elem_of_bind.
  intros [->|(a & Hx & _)]; [by left | right].
  apply reach_array_sorts in Hx as [->|Hx]; [by left | by right].
Qed.

Lemma reach_unit_units hp u u' : (Units, u') ∈ reach_unit hp u -> u' = u.
Proof.
  intros [[= ->]|[Hx|Hx]]%reach_unit_sorts; [done | done |].
  unfold below_arrays in Hx. simpl in Hx. by destruct Hx as [|[|[|]]].
Qed.

Lemma reach_unit_categories hp u c : (Categories, c) ∉ reach_unit hp u.
Proof.
  intros [[=]|[Hx|Hx]]%reach_unit_sorts; [done |].
  unfold below_arrays in Hx. simpl in Hx. by destruct Hx as [|[|[|]]].
Qed.

Lemma reach_unit_caches hp u r : (Caches, r) ∉ reach_unit hp u.
Proof.
  intros [[=]|[Hx|Hx]]%reach_unit_sorts; [done |].
  unfold below_arrays in Hx. simpl in Hx. by destruct Hx as [|[|[|]]].
Qed.

Lemma reach_category_inv hp c x :
  x ∈ reach_category hp c ->
  x = (Categories, c)
  \/ exists u, u ∈ (categories hp !!! c).*2 /\ x ∈ reach_unit hp u.
Proof.
  unfold reach_category. rewrite elem_of_cons, list_elem_of_bind.
  intros [->|(u & Hx & Hu)]; [by left | right; eauto].
Qed.

Lemma reach_category_units hp c u :
  (Units, u) ∈ reach_category hp c -> u ∈ (categories hp !!! c).*2.
Proof.
  intros [[=]|(u' & Hu' & Hx)]%reach_category_inv.
  by apply reach_unit_units in Hx as ->.
Qed.

Lemma reach_category_categories hp c c' :
  (Categories, c') ∈ reach_category hp c -> c' = c.
Proof.
  intros [[= ->]|(u' & Hu' & Hx)]%reach_category_inv; [done |].
  by apply reach_unit_categories in Hx.
Qed.

Lemma reach_category_caches hp c r : (Caches, r) ∉ reach_category hp c.
Proof.
  intros [[=]|(u' & Hu' & Hx)]%reach_category_inv.
  by apply reach_unit_caches in Hx.
Qed.

(** The positions of a heap read the same when the objects below the arrays
    are the same. *)
Lemma decode_position_stores hp hp' p :
  positions hp' = positions hp -> rule_arrays hp' = rule_arrays hp ->
  rules hp' = rules hp -> scopes hp' = scopes hp ->
  decode_position hp' p = decode_position hp p
  /\ reach_position hp' p = reach_position hp p.
Proof.
  intros Hp Hra Hr Hs.
  unfold decode_position, reach_position, decode_rules, reach_rules.
  by rewrite Hp, Hra, Hr, Hs.
Qed.
End HeapChanges.

(** *** One unit *)

Lemma unit_ext {P} (unit unit' : CacheUnit P) :
  doc unit = doc unit' -> (forall t, unit_get t unit = unit_get t unit') ->
  unit = unit'.
Proof.
  intros Hdoc Hget. destruct unit, unit'. simpl in *.
  pose proof (Hget Dcl). pose proof (Hget Def). pose proof (Hget Ref).
  simpl in *. congruence.
Qed.

Lemma Heap_unit_get_set t t' v o :
  Heap.unit_get t' (Heap.unit_set t v o)
  = if decide (t = t') then v else Heap.unit_get t' o.
Proof. by destruct t, t'. Qed.

Lemma Heap_unit_doc_set t v o : Heap.unit_doc (Heap.unit_set t v o) = Heap.unit_doc o.
Proof. by destruct t. Qed.

Lemma elem_of_unit_arrays o a :
  a ∈ Heap.unit_arrays o <-> exists t, Heap.unit_get t o = Some a.
Proof.
  unfold Heap.unit_arrays. rewrite !elem_of_app. split.
  - intros [Ha|[Ha|Ha]]; [exists Dcl | exists Def | exists Ref]; simpl;
      destruct (Heap.unit_dcl o), (Heap.unit_def o), (Heap.unit_ref o); simpl in *;
      repeat (apply elem_of_cons in Ha as [->|Ha]; [done |]);
      by apply elem_of_nil in Ha.
  - intros [[] Ht]; simpl in Ht; rewrite Ht; simpl;
      [left | right; left | right; right]; apply list_elem_of_here.
Qed.

Lemma decode_unit_get hp u t :
  unit_get t (Heap.decode_unit hp u)
  = Heap.decode_array hp <$> Heap.unit_get t (Heap.units hp !!! u).
Proof. by destruct t. Qed.

Lemma decode_unit_doc hp u :
  doc (Heap.decode_unit hp u) = Heap.unit_doc (Heap.units hp !!! u).
Proof. reflexivity. Qed.

Lemma doc_unit_set {P} t (v : option (list P)) unit : doc (unit_set t v unit) = doc unit.
Proof. by destruct t. Qed.

Lemma has_length_decode hp u t :
  Heap.has_length hp t (Heap.units hp !!! u) = has_length t (Heap.decode_unit hp u).
Proof.
  unfold Heap.has_length, has_length. rewrite decode_unit_get.
  destruct (Heap.unit_get t _) as [a|]; simpl; [|done].
  unfold Heap.decode_array. by destruct (Heap.arrays hp !!! a).
Qed.

Lemma reach_array_in_unit hp u t a x :
  Heap.unit_get t (Heap.units hp !!! u) = Some a ->
  x ∈ Heap.reach_array hp a -> x ∈ Heap.reach_unit hp u.
Proof.
  intros Ht Hx. unfold Heap.reach_unit. apply list_elem_of_further.
  apply list_elem_of_bind. exists a. split; [done |].
  apply elem_of_unit_arrays. eauto.
Qed.

Lemma Res_bind_ret_log {A B} (a : A) (g : A -> B) log :
  Ok a log ≫= (fun x => mret (g x)) = Ok (g a) log.
Proof. unfold mbind, Res_bind, mret, Res_ret. by rewrite app_nil_r. Qed.

Section HeapUnit.
Context {IdentityNode : Type} `{IdentityOps IdentityNode}.
Variable fuel : nat.
Variable service : DatapackLanguageService IdentityNode.
Variable forType : FileType.
Variable forID : IdentityNode.
Variable config : Config.

#[local] Abbreviation visible_ := (visible fuel service forType forID config).
#[local] Abbreviation pass_ := (accepted (visible fuel service forType forID config)).
#[local] Abbreviation trimPositions_ :=
  (Heap.trimPositions fuel service forType forID config).

(** [trimPositions] writes the unit, makes one array, and leaves the unit
    reading as before but for the sequence it filtered. *)
Lemma trimPositions_decode u t hp :
  Forall (Heap.live hp) (Heap.reach_unit hp u) ->
  Forall (fun p => returns (visible_ p)) (unit_positions t (Heap.decode_unit hp u)) ->
  exists hp' log,
    trimPositions_ u t hp = Ok hp' log
    /\ changes [(Heap.Units, u)] hp hp'
    /\ Heap.decode_unit hp' u
       = unit_set t (List.filter pass_ <$> unit_get t (Heap.decode_unit hp u))
           (Heap.decode_unit hp u)
    /\ (forall x, x ∈ Heap.reach_unit hp' u ->
                  x ∈ Heap.reach_unit hp u \/ new_array hp hp' x)
    /\ Forall (Heap.live hp') (Heap.reach_unit hp' u).
Proof.
  intros Hlive Htests. unfold Heap.trimPositions.
  set (o := Heap.units hp !!! u).
  assert (Hu : (u < length (Heap.units hp))%nat).
  { apply Forall_inv in Hlive. exact Hlive. }
  destruct (Heap.unit_get t o) as [a|] eqn:Ht.
  - (* the unit has the sequence *)
    set (l := Heap.arrays hp !!! a).
    assert (Hvalues : unit_positions t (Heap.decode_unit hp u)
                      = map (Heap.decode_position hp) l).
    { unfold unit_positions. rewrite decode_unit_get. fold o. by rewrite Ht. }
    rewrite Hvalues, Forall_map in Htests.
    destruct (returns_Ok _ (filterRes_returns _ _ Htests)) as (l' & log & Hfilter).
    pose proof (filterRes_filter _ _ _ _ Hfilter) as Hl'.
    rewrite Hfilter. rewrite Res_bind_ret_log.
    set (n := length (Heap.arrays hp)).
    set (o' := Heap.unit_set t (Some n) o).
    set (hp' := Heap.with_units (<[u := o']> (Heap.units hp))
                  (Heap.with_arrays (Heap.arrays hp ++ [l']) hp)).
    assert (Hchanges : changes [(Heap.Units, u)] hp hp').
    { split.
      - intros []; simpl; rewrite ?length_insert, ?length_app; simpl; lia.
      - intros [[] i] Hi Hnot; unfold Heap.live, Heap.object_at in *; simpl in *;
          try done.
        + rewrite list_lookup_insert_ne; [done |]. intros ->.
          apply Hnot, list_elem_of_here.
        + by rewrite lookup_app_l. }
    assert (Hcell : Heap.units hp' !!! u = o')
      by (by apply list_lookup_total_insert_eq).
    assert (Hnew : Heap.arrays hp' !!! n = l')
      by (by apply list_lookup_total_middle).
    assert (Hpos : forall p, Heap.decode_position hp' p = Heap.decode_position hp p
                             /\ Heap.reach_position hp' p = Heap.reach_position hp p).
    { intros p. by apply decode_position_stores. }
    assert (Hold : forall t' a', t' <> t -> Heap.unit_get t' o = Some a' ->
              Heap.reach_array hp' a' = Heap.reach_array hp a'
              /\ Heap.decode_array hp' a' = Heap.decode_array hp a').
    { intros t' a' Hne Ht'. apply framed_array.
      eapply changes_agree; [exact Hchanges | |].
      - rewrite Forall_forall in Hlive. apply Forall_forall. intros x Hx.
        apply Hlive. by eapply reach_array_in_unit.
      - intros x Hx ->%list_elem_of_singleton.
        apply reach_array_sorts in Hx as [[=]|Hx].
        unfold below_arrays in Hx. simpl in Hx. by destruct Hx as [|[|[|]]]. }
    assert (Hsub : l' `sublist_of` l).
    { rewrite Hl'. clear. induction l as [|p l IH]; simpl; [done |].
      destruct (accepted _ p); by constructor. }
    assert (Hnewreach : forall x, x ∈ Heap.reach_array hp' n ->
              x = (Heap.Arrays, n) \/ x ∈ Heap.reach_array hp a).
    { intros x. unfold Heap.reach_array. rewrite Hnew, !elem_of_cons.
      intros [->|Hx]; [by left | right; right].
      apply list_elem_of_bind in Hx as (p & Hx & Hp).
      destruct (Hpos p) as [_ Hreach]. rewrite Hreach in Hx.
      apply list_elem_of_bind. exists p. split; [done |].
      by eapply elem_of_sublist. }
    exists hp', log. split_and!; [done | done | | |].
    + apply unit_ext.
      * rewrite doc_unit_set, !decode_unit_doc, Hcell. unfold o'.
        by rewrite Heap_unit_doc_set.
      * intros t'. rewrite decode_unit_get, Hcell. unfold o'.
        rewrite Heap_unit_get_set, unit_get_set.
        destruct (decide (t = t')) as [<-|Hne].
        -- simpl. rewrite decode_unit_get. fold o. rewrite Ht. simpl. f_equal.
           unfold Heap.decode_array. rewrite Hnew. fold l. rewrite Hl'.
           rewrite <- (filter_map_commute pass_ (Heap.decode_position hp) l).
           apply map_ext. intros p. apply Hpos.
        -- rewrite decode_unit_get. fold o.
           destruct (Heap.unit_get t' o) as [a'|] eqn:Ht'; simpl; [|done].
           f_equal. by apply (Hold t' a').
    + intros x. unfold Heap.reach_unit at 1. rewrite Hcell, elem_of_cons.
      intros [->|Hx]; [left; apply list_elem_of_here |].
      apply list_elem_of_bind in Hx as (a2 & Hx & Ha2).
      apply elem_of_unit_arrays in Ha2 as [t' Ht']. unfold o' in Ht'.
      rewrite Heap_unit_get_set in Ht'.
      destruct (decide (t = t')) as [<-|Hne].
      * injection Ht' as <-. apply Hnewreach in Hx as [->|Hx].
        -- right. split; [done |]. simpl. subst hp' n. simpl.
           rewrite length_app. simpl. lia.
        -- left. by eapply reach_array_in_unit.
      * destruct (Hold t' a2) as [Hreach _]; [done.. |]. rewrite Hreach in Hx.
        left. by eapply reach_array_in_unit.
    + apply Forall_forall. intros x. unfold Heap.reach_unit at 1.
      rewrite Hcell, elem_of_cons.
      assert (Hmono : forall y, Heap.live hp y -> Heap.live hp' y).
      { intros y Hy. destruct Hchanges as [Hs _]. unfold Heap.live in *.
        specialize (Hs y.1). lia. }
      rewrite Forall_forall in Hlive.
      intros [->|Hx]; [apply Hmono, Hlive, list_elem_of_here |].
      apply list_elem_of_bind in Hx as (a2 & Hx & Ha2).
      apply elem_of_unit_arrays in Ha2 as [t' Ht']. unfold o' in Ht'.
      rewrite Heap_unit_get_set in Ht'.
      destruct (decide (t = t')) as [<-|Hne].
      * injection Ht' as <-. apply Hnewreach in Hx as [->|Hx].
        -- unfold Heap.live. subst hp' n. simpl. rewrite length_app. simpl. lia.
        -- apply Hmono, Hlive. by eapply reach_array_in_unit.
      * destruct (Hold t' a2) as [Hreach _]; [done.. |]. rewrite Hreach in Hx.
        apply Hmono, Hlive. by eapply reach_array_in_unit.
  - (* the unit has no such sequence *)
    exists hp, []. split_and!; [done | apply changes_refl | | auto | done].
    apply unit_ext; [by destruct t |]. intros t'. rewrite unit_get_set.
    destruct (decide (t = t')) as [<-|]; [|done].
    rewrite decode_unit_get. fold o. by rewrite Ht.
Qed.
End HeapUnit.

Lemma bind_Ok_intro {A B} (m : Res A) (f : A -> Res B) a log b log' :
  m = Ok a log -> f a = Ok b log' -> m ≫= f = Ok b (log ++ log').
Proof. intros -> Hf. unfold mbind, Res_bind. by rewrite Hf. Qed.

Lemma filter_map_values {K A B} (g : A -> B) (q : B -> bool) (o : Obj K A) :
  List.filter (fun e => q e.2) (map_values g o)
  = map_values g (List.filter (fun e => q (g e.2)) o).
Proof.
  induction o as [|[k v] o IH]; simpl; [done |].
  destruct (q (g v)); simpl; by rewrite IH.
Qed.

Section HeapCategory.
Context {IdentityNode : Type} `{IdentityOps IdentityNode}.
Variable fuel : nat.
Variable service : DatapackLanguageService IdentityNode.
Variable forType : FileType.
Variable forID : IdentityNode.
Variable config : Config.

#[local] Abbreviation visible_ := (visible fuel service forType forID config).
#[local] Abbreviation pass_ := (accepted (visible fuel service forType forID config)).
#[local] Abbreviation trimPositions_ :=
  (Heap.trimPositions fuel service forType forID config).
#[local] Abbreviation trimUnits_ :=
  (Heap.trimUnits fuel service forType forID config).

(** The two calls of [trimPositions] on one unit. *)
Lemma trimUnit_spec u hp :
  Forall (Heap.live hp) (Heap.reach_unit hp u) ->
  Forall (fun p => returns (visible_ p))
    (unit_positions Dcl (Heap.decode_unit hp u)
     ++ unit_positions Def (Heap.decode_unit hp u)) ->
  exists hp2 log1 hp1 log2,
    trimPositions_ u Dcl hp = Ok hp1 log1
    /\ trimPositions_ u Def hp1 = Ok hp2 log2
    /\ changes [(Heap.Units, u)] hp hp2
    /\ Heap.decode_unit hp2 u = viewUnit pass_ (Heap.decode_unit hp u)
    /\ (forall x, x ∈ Heap.reach_unit hp2 u ->
                  x ∈ Heap.reach_unit hp u \/ new_array hp hp2 x)
    /\ Forall (Heap.live hp2) (Heap.reach_unit hp2 u).
Proof.
  intros Hlive [Hdcl Hdef]%Forall_app.
  destruct (trimPositions_decode fuel service forType forID config u Dcl hp
              Hlive Hdcl) as (hp1 & log1 & Hres1 & Hch1 & Hdec1 & Hreach1 & Hlive1).
  assert (Hdef1 : Forall (fun p => returns (visible_ p))
                    (unit_positions Def (Heap.decode_unit hp1 u))).
  { rewrite Hdec1. unfold unit_positions. by rewrite unit_get_set. }
  destruct (trimPositions_decode fuel service forType forID config u Def hp1
              Hlive1 Hdef1) as (hp2 & log2 & Hres2 & Hch2 & Hdec2 & Hreach2 & Hlive2).
  exists hp2, log1, hp1, log2. split_and!; [done | done | | | | done].
  - eapply changes_weaken; [|exact (changes_trans _ _ _ _ _ Hch1 Hch2)].
    intros x. rewrite elem_of_app. tauto.
  - rewrite Hdec2, Hdec1. by destruct (Heap.decode_unit hp u).
  - intros x Hx. destruct Hch1 as [Hs1 _], Hch2 as [Hs2 _].
    pose proof (Hs1 Heap.Arrays) as Ha1. pose proof (Hs2 Heap.Arrays) as Ha2.
    simpl in Ha1, Ha2.
    apply Hreach2 in Hx as [Hx|Hx].
    + apply Hreach1 in Hx as [Hx|Hx]; [by left | right].
      eapply new_array_mono; [| |exact Hx]; lia.
    + right. eapply new_array_mono; [| |exact Hx]; lia.
Qed.

Lemma trimUnits_cons c id ids hp :
  trimUnits_ c (id :: ids) hp
  = match get id (Heap.categories hp !!! c) with
    | Some u =>
        hp ← trimPositions_ u Dcl hp;
        hp ← trimPositions_ u Def hp;
        trimUnits_ c ids
          (if negb (Heap.has_length hp Dcl (Heap.units hp !!! u))
              && negb (Heap.has_length hp Def (Heap.units hp !!! u))
           then Heap.with_categories
                  (<[c := delete_key id (Heap.categories hp !!! c)]>
                     (Heap.categories hp)) hp
           else hp)
    | None => trimUnits_ c ids hp
    end.
Proof. reflexivity. Qed.

(** The loop over the identifiers: the category object is [done ++ todo],
    the units of [todo] are as they were in [hpI]. *)
Lemma trimUnits_ind c hpI todo :
  forall done hp,
    Heap.categories hp !!! c = done ++ todo ->
    Heap.live hp (Heap.Categories, c) ->
    NoDup (keys (done ++ todo)) ->
    NoDup (done ++ todo).*2 ->
    (forall s, (Heap.size s hpI <= Heap.size s hp)%nat) ->
    Forall (fun e =>
      agree (Heap.reach_unit hpI e.2) hpI hp
      /\ Forall (Heap.live hpI) (Heap.reach_unit hpI e.2)
      /\ Forall (fun p => returns (visible_ p))
           (unit_positions Dcl (Heap.decode_unit hpI e.2)
            ++ unit_positions Def (Heap.decode_unit hpI e.2))) todo ->
    exists hp' log,
      trimUnits_ c (keys todo) hp = Ok hp' log
      /\ Heap.categories hp' !!! c
         = done ++ List.filter (fun e => offers pass_ (Heap.decode_unit hpI e.2)) todo
      /\ changes ((Heap.Categories, c) :: map (pair Heap.Units) todo.*2) hp hp'
      /\ Forall (fun e =>
           Heap.decode_unit hp' e.2 = viewUnit pass_ (Heap.decode_unit hpI e.2)
           /\ (forall x, x ∈ Heap.reach_unit hp' e.2 ->
                         x ∈ Heap.reach_unit hpI e.2 \/ new_array hpI hp' x)
           /\ Forall (Heap.live hp') (Heap.reach_unit hp' e.2)) todo.
Proof.
  induction todo as [|[id u] rest IH]; intros done hp Hcell Hc Hkeys Hrefs Hsizes Htodo.
  - exists hp, []. rewrite app_nil_r in *. split_and!; [done | done | | done].
    apply changes_refl.
  - apply Forall_cons in Htodo as [(Hagree & HliveI & Htests) Htodo].
    cbn [fst snd] in *.
    destruct (NoDup_keys_middle done id u rest Hkeys) as (Hid_done & Hid_rest & Hkeys' & Hkeys'').
    (* the unit in [hp] *)
    destruct (framed_unit hpI hp u Hagree) as [Hreach_u Hdecode_u].
    assert (Hlive_u : Forall (Heap.live hp) (Heap.reach_unit hp u)).
    { rewrite Hreach_u. eapply Forall_impl; [exact HliveI |].
      intros x Hx. unfold Heap.live in *. specialize (Hsizes x.1). lia. }
    rewrite <- Hdecode_u in Htests.
    destruct (trimUnit_spec u hp Hlive_u Htests)
      as (hp2 & log1 & hp1 & log2 & Hres1 & Hres2 & Hch2 & Hdec2 & Hreach2 & Hlive2).
    rewrite Hdecode_u in Hdec2.
    (* the category object after the two calls *)
    assert (Hcell2 : Heap.categories hp2 !!! c = done ++ (id, u) :: rest).
    { rewrite <- Hcell. apply lookup_total_of_lookup, object_at_categories.
      destruct Hch2 as [_ Ho]. apply Ho; [done |].
      by intros [=]%list_elem_of_singleton. }
    assert (Hc2 : Heap.live hp2 (Heap.Categories, c)).
    { destruct Hch2 as [Hs _]. unfold Heap.live in *. specialize (Hs Heap.Categories).
      simpl in *. lia. }
    assert (Hrefs_u : u ∉ (done ++ rest).*2).
    { rewrite fmap_app in Hrefs |- *. simpl in Hrefs.
      apply NoDup_app in Hrefs as (_ & Hdisj & [Hu _]%NoDup_cons).
      intros [Hin|Hin]%elem_of_app; [|done].
      apply (Hdisj u Hin), list_elem_of_here. }
    assert (Hrefs' : NoDup (done ++ rest).*2).
    { eapply sublist_NoDup; [exact Hrefs |]. apply fmap_sublist.
      apply sublist_app; [done |]. by constructor. }
    (* the decision *)
    assert (Hdecision :
      negb (Heap.has_length hp2 Dcl (Heap.units hp2 !!! u))
      && negb (Heap.has_length hp2 Def (Heap.units hp2 !!! u))
      = negb (offers pass_ (Heap.decode_unit hpI u))).
    { rewrite !has_length_decode, Hdec2.
      pose proof (keepUnit_viewUnit pass_ (Heap.decode_unit hpI u)) as Hkeep.
      unfold keepUnit in Hkeep.
      destruct (negb _ && negb _), (offers pass_ _); done. }
    change (keys ((id, u) :: rest)) with (id :: keys rest).
    rewrite trimUnits_cons, Hcell, get_app_notin by done. cbn [get].
    rewrite decide_True by done.
    (* the rest of the loop *)
    set (hp3 := if negb (Heap.has_length hp2 Dcl (Heap.units hp2 !!! u))
                   && negb (Heap.has_length hp2 Def (Heap.units hp2 !!! u))
                then Heap.with_categories
                       (<[c := delete_key id (Heap.categories hp2 !!! c)]>
                          (Heap.categories hp2)) hp2
                else hp2).
    set (done' := if offers pass_ (Heap.decode_unit hpI u)
                  then done ++ [(id, u)] else done).
    assert (Hch3 : changes [(Heap.Categories, c)] hp2 hp3).
    { unfold hp3. destruct (negb _ && negb _); [|apply changes_refl]. split.
      - intros []; simpl; rewrite ?length_insert; lia.
      - intros [[] i] Hi Hnot; unfold Heap.live, Heap.object_at in *; simpl in *;
          try done.
        rewrite list_lookup_insert_ne; [done |]. intros ->.
        apply Hnot, list_elem_of_here. }
    assert (Hcell3 : Heap.categories hp3 !!! c = done' ++ rest).
    { unfold hp3, done'. rewrite Hdecision.
      destruct (offers pass_ (Heap.decode_unit hpI u)); simpl.
      - by rewrite Hcell2, <- app_assoc.
      - rewrite list_lookup_total_insert_eq by exact Hc2.
        rewrite Hcell2, delete_key_app, (delete_key_notin id done) by done.
        simpl. rewrite decide_True by done. by rewrite delete_key_notin. }
    assert (Hch03 : changes [(Heap.Units, u); (Heap.Categories, c)] hp hp3)
      by exact (changes_trans _ _ _ _ _ Hch2 Hch3).
    assert (Hsizes3 : forall s, (Heap.size s hpI <= Heap.size s hp3)%nat).
    { intros s. destruct Hch03 as [Hs _]. specialize (Hs s).
      specialize (Hsizes s). lia. }
    assert (Hdone' : forall e, e ∈ done' ++ rest -> e ∈ done ++ (id, u) :: rest).
    { intros e. unfold done'. destruct (offers _ _).
      - by rewrite <- app_assoc.
      - rewrite !elem_of_app, elem_of_cons. tauto. }
    destruct (IH done' hp3) as (hp' & log3 & Hres & Hcell' & Hch' & Hall).
    { done. }
    { destruct Hch3 as [Hs _]. unfold Heap.live in *.
      specialize (Hs Heap.Categories). simpl in *. lia. }
    { unfold done'. destruct (offers _ _); [apply Hkeys'' | done]. }
    { unfold done'. destruct (offers _ _); [|done].
      by rewrite <- app_assoc. }
    { done. }
    { apply Forall_forall. intros e He. rewrite Forall_forall in Htodo.
      destruct (Htodo e He) as (Hagree_e & Hlive_e & Htests_e).
      split_and!; [|done | done].
      intros x Hx. rewrite <- (Hagree_e x Hx).
      destruct Hch03 as [_ Ho]. apply Ho.
      - rewrite Forall_forall in Hlive_e. specialize (Hlive_e x Hx).
        unfold Heap.live in *. specialize (Hsizes x.1). lia.
      - intros [->|[->|[]%elem_of_nil]%elem_of_cons]%elem_of_cons.
        + apply reach_unit_units in Hx as ->. apply Hrefs_u.
          rewrite fmap_app, elem_of_app. right.
          apply list_elem_of_fmap. by exists e.
        + by apply reach_unit_categories in Hx. }
    exists hp', (log1 ++ log2 ++ log3). split_and!.
    + eapply bind_Ok_intro; [exact Hres1 |].
      eapply bind_Ok_intro; [exact Hres2 |]. exact Hres.
    + rewrite Hcell'. unfold done'. simpl.
      destruct (offers pass_ (Heap.decode_unit hpI u)); [|done].
      by rewrite <- app_assoc.
    + eapply changes_weaken; [|exact (changes_trans _ _ _ _ _ Hch03 Hch')].
      intros x. cbn [map fmap list_fmap fst snd]. rewrite !elem_of_app, !elem_of_cons.
      rewrite elem_of_nil. tauto.
    + apply Forall_cons. split; [|done]. cbn [fst snd].
      assert (Hframe : agree (Heap.reach_unit hp2 u) hp2 hp').
      { eapply changes_agree; [exact (changes_trans _ _ _ _ _ Hch3 Hch') | done |].
        intros x Hx. cbn [app]. rewrite !not_elem_of_cons.
        split_and!.
        - intros ->. by apply reach_unit_categories in Hx.
        - intros ->. by apply reach_unit_categories in Hx.
        - intros (u' & -> & Hu')%list_elem_of_fmap.
          apply reach_unit_units in Hx as ->. apply Hrefs_u.
          rewrite fmap_app, elem_of_app. by right. }
      destruct (framed_unit hp2 hp' u Hframe) as [Hreach' Hdecode'].
      rewrite Hreach', Hdecode'. split_and!; [done | |].
      * intros x Hx. destruct (Hreach2 x Hx) as [Hx'|Hx'].
        -- left. by rewrite <- Hreach_u.
        -- right. destruct Hch3 as [Hs3 _], Hch' as [Hs' _].
           specialize (Hs3 Heap.Arrays). specialize (Hs' Heap.Arrays).
           specialize (Hsizes Heap.Arrays). simpl in *.
           eapply new_array_mono; [| |exact Hx']; lia.
      * eapply changes_live; [exact (changes_trans _ _ _ _ _ Hch3 Hch') | done].
Qed.
End HeapCategory.

Lemma NoDup_bind_elem {A B} (f : A -> list B) (l : list A) x :
  NoDup (l ≫= f) -> x ∈ l -> NoDup (f x).
Proof.
  induction l as [|y l IH]; csimpl; [by intros _ ?%elem_of_nil |].
  intros (Hy & _ & Hl)%NoDup_app [->|Hx]%elem_of_cons; auto.
Qed.

Lemma NoDup_bind_roots {A B} (f : A -> list B) (g : A -> B) (l : list A) :
  (forall x, g x ∈ f x) -> (forall x y, g x = g y -> x = y) ->
  NoDup (l ≫= f) -> NoDup l.
Proof.
  intros Hroot Hinj. induction l as [|x l IH]; csimpl; [constructor |].
  intros (_ & Hdisj & Hl)%NoDup_app. apply NoDup_cons. split; [|auto].
  intros Hx. apply (Hdisj (g x) (Hroot x)).
  apply list_elem_of_bind. exists x. split; [apply Hroot | done].
Qed.

Lemma sublist_bind {A B} (f g : A -> list B) (l : list A) :
  (forall x, f x `sublist_of` g x) -> l ≫= f `sublist_of` l ≫= g.
Proof.
  intros Hsub. induction l as [|x l IH]; csimpl; [done |]. by apply sublist_app.
Qed.

Lemma bind_sublist {A B} (f : A -> list B) (l l' : list A) :
  l `sublist_of` l' -> l ≫= f `sublist_of` l' ≫= f.
Proof.
  induction 1 as [|x l l' _ IH|x l l' _ IH]; csimpl; [done | |].
  - by apply sublist_app.
  - by apply sublist_inserts_l.
Qed.

Lemma fmap_bind_list {A B C} (g : B -> C) (f : A -> list B) (l : list A) :
  g <$> (l ≫= f) = l ≫= fun x => g <$> f x.
Proof. induction l as [|x l IH]; csimpl; [done |]. by rewrite fmap_app, IH. Qed.

Lemma sublist_filter_bool {A} (q : A -> bool) (l : list A) : List.filter q l `sublist_of` l.
Proof. induction l as [|x l IH]; simpl; [done |]. destruct (q x); by constructor. Qed.

Lemma units_sublist_reach hp (us : list nat) :
  (pair Heap.Units <$> us) `sublist_of` (us ≫= Heap.reach_unit hp).
Proof.
  induction us as [|u us IH]; csimpl; [done |].
  unfold Heap.reach_unit at 1. cbn [app]. constructor. by apply sublist_inserts_l.
Qed.

Lemma category_units_sublist_reach hp c :
  (pair Heap.Units <$> (Heap.categories hp !!! c).*2)
  `sublist_of` Heap.reach_category hp c.
Proof. unfold Heap.reach_category. constructor. apply units_sublist_reach. Qed.

(** In a graph without a shared object, no unit is under two identifiers or
    in two categories. *)
Lemma NoDup_reach_units hp (cs : list nat) :
  NoDup (cs ≫= Heap.reach_category hp) ->
  NoDup (cs ≫= fun c => (Heap.categories hp !!! c).*2).
Proof.
  intros Hnd. apply (NoDup_fmap_1 (pair Heap.Units)). rewrite fmap_bind_list.
  eapply sublist_NoDup; [exact Hnd |]. apply sublist_bind.
  intros c. apply category_units_sublist_reach.
Qed.

Lemma NoDup_reach_categories hp (cs : list nat) :
  NoDup (cs ≫= Heap.reach_category hp) -> NoDup cs.
Proof.
  apply (NoDup_bind_roots _ (pair Heap.Categories)).
  - intros c. apply list_elem_of_here.
  - by intros c c' [=].
Qed.

Lemma keepCategory_nonempty {P} (category : CacheCategory P) :
  keepCategory category = if bool_decide (category = []) then None else Some category.
Proof. unfold keepCategory. by destruct category. Qed.

Lemma viewCache_filter {P} (pass : P -> bool) (c : ClientCache P) :
  viewCache pass c
  = map_values (viewCategory pass)
      (List.filter (fun e => negb (bool_decide (viewCategory pass e.2 = []))) c).
Proof.
  unfold viewCache, map_values.
  induction c as [|[type category] c IH]; [done |].
  csimpl. rewrite keepCategory_nonempty, IH.
  by destruct (bool_decide (viewCategory pass category = [])).
Qed.

Section HeapCache.
Context {IdentityNode : Type} `{IdentityOps IdentityNode}.
Variable fuel : nat.
Variable service : DatapackLanguageService IdentityNode.
Variable forType : FileType.
Variable forID : IdentityNode.
Variable config : Config.

#[local] Abbreviation visible_ := (visible fuel service forType forID config).
#[local] Abbreviation pass_ := (accepted (visible fuel service forType forID config)).
#[local] Abbreviation trimUnits_ :=
  (Heap.trimUnits fuel service forType forID config).
#[local] Abbreviation trimCategories_ :=
  (Heap.trimCategories fuel service forType forID config).

(** The loop over the units of one category object. *)
Lemma trimUnits_spec c hp :
  Forall (Heap.live hp) (Heap.reach_category hp c) ->
  NoDup (keys (Heap.categories hp !!! c)) ->
  NoDup (Heap.categories hp !!! c).*2 ->
  Forall (fun u => Forall (fun p => returns (visible_ p)) (unit_positions Dcl u.2)
                   /\ Forall (fun p => returns (visible_ p)) (unit_positions Def u.2))
    (Heap.decode_category hp c) ->
  exists hp' log,
    trimUnits_ c (keys (Heap.categories hp !!! c)) hp = Ok hp' log
    /\ changes ((Heap.Categories, c)
                :: map (pair Heap.Units) (Heap.categories hp !!! c).*2) hp hp'
    /\ Heap.decode_category hp' c = viewCategory pass_ (Heap.decode_category hp c)
    /\ (Heap.categories hp' !!! c) `sublist_of` (Heap.categories hp !!! c)
    /\ (forall x, x ∈ Heap.reach_category hp' c ->
                  x ∈ Heap.reach_category hp c \/ new_array hp hp' x)
    /\ Forall (Heap.live hp') (Heap.reach_category hp' c).
Proof.
  intros Hlive Hkeys Hrefs Htests.
  set (cell := Heap.categories hp !!! c) in *.
  assert (Hc : Heap.live hp (Heap.Categories, c)) by exact (Forall_inv Hlive).
  destruct (trimUnits_ind fuel service forType forID config c hp cell [] hp)
    as (hp' & log & Hres & Hcell' & Hch & Hall); [done.. | |].
  { apply Forall_forall. intros [id u] He. cbn [snd].
    assert (Hu : u ∈ cell.*2) by (apply list_elem_of_fmap; by exists (id, u)).
    split_and!; [done | |].
    - rewrite Forall_forall in Hlive. apply Forall_forall. intros x Hx.
      apply Hlive. unfold Heap.reach_category. fold cell.
      apply list_elem_of_further, list_elem_of_bind. eauto.
    - unfold Heap.decode_category in Htests. fold cell in Htests.
      unfold map_values in Htests. rewrite Forall_map, Forall_forall in Htests.
      specialize (Htests _ He). cbn [snd] in Htests. by apply Forall_app. }
  cbn [app] in Hcell'. set (keep := fun e : string * nat => offers pass_ (Heap.decode_unit hp e.2)) in *.
  assert (Hsub : List.filter keep cell `sublist_of` cell) by apply sublist_filter_bool.
  rewrite Forall_forall in Hall.
  assert (Hkept : forall e, e ∈ List.filter keep cell -> e ∈ cell).
  { intros e He. by eapply elem_of_sublist. }
  exists hp', log. split_and!; [done | done | | by rewrite Hcell' | |].
  - unfold Heap.decode_category. rewrite Hcell'. fold cell.
    rewrite viewCategory_filter, (filter_map_values (Heap.decode_unit hp)).
    fold keep. unfold map_values. rewrite map_map. apply map_ext_Forall.
    apply Forall_forall. intros e He%list_elem_of_In. cbn [fst snd].
    f_equal. rewrite <- list_elem_of_In in He. by apply Hall, Hkept.
  - intros x [->|(u & Hu & Hx)]%reach_category_inv.
    + left. apply list_elem_of_here.
    + rewrite Hcell' in Hu. apply list_elem_of_fmap in Hu as (e & -> & He).
      destruct (Hall e (Hkept e He)) as (_ & Hreach & _).
      destruct (Hreach x Hx) as [Hx'|Hx']; [left | by right].
      unfold Heap.reach_category. fold cell.
      apply list_elem_of_further, list_elem_of_bind. exists e.2.
      split; [done |]. apply list_elem_of_fmap. exists e. auto.
  - apply Forall_forall. intros x [->|(u & Hu & Hx)]%reach_category_inv.
    + destruct Hch as [Hs _]. unfold Heap.live in *.
      specialize (Hs Heap.Categories). simpl in *. lia.
    + rewrite Hcell' in Hu. apply list_elem_of_fmap in Hu as (e & -> & He).
      destruct (Hall e (Hkept e He)) as (_ & _ & Hl).
      rewrite Forall_forall in Hl. auto.
Qed.
End HeapCache.

Lemma NoDup_bind_disjoint {A B} (f : A -> list B) (d r : list A) x y u :
  NoDup ((d ++ x :: r) ≫= f) -> y ∈ d ++ r -> u ∈ f x -> u ∉ f y.
Proof.
  rewrite bind_app. csimpl.
  intros (_ & Hd & (_ & Hr & _)%NoDup_app)%NoDup_app [Hy|Hy]%elem_of_app Hx Hu.
  - apply (Hd u).
    + apply list_elem_of_bind. eauto.
    + apply elem_of_app. by left.
  - apply (Hr u Hx). apply list_elem_of_bind; eauto.
Qed.

Lemma NoDup_middle_notin {A} (d r : list A) x :
  NoDup (d ++ x :: r) -> (x ∉ d ++ r) /\ NoDup (d ++ r).
Proof.
  intros (Hd & Hdisj & [Hx Hr]%NoDup_cons)%NoDup_app. split.
  - intros [Hin|Hin]%elem_of_app; [|done]. apply (Hdisj x Hin), list_elem_of_here.
  - apply NoDup_app. split_and!; [done | | done].
    intros y Hy Hy'. apply (Hdisj y Hy). by apply list_elem_of_further.
Qed.


Lemma trimCategories_cons {IdentityNode : Type} `{IdentityOps IdentityNode}
    fuel (service : DatapackLanguageService IdentityNode) forType forID config
    ans type types hp :
  Heap.trimCategories fuel service forType forID config ans (type :: types) hp
  = match get type (Heap.caches hp !!! ans) with
    | Some c =>
        hp ← Heap.trimUnits fuel service forType forID config c
               (keys (Heap.categories hp !!! c)) hp;
        Heap.trimCategories fuel service forType forID config ans types
          (if decide (length (keys (Heap.categories hp !!! c)) = 0%nat)
           then Heap.with_caches
                  (<[ans := delete_key type (Heap.caches hp !!! ans)]> (Heap.caches hp))
                  hp
           else hp)
    | None => Heap.trimCategories fuel service forType forID config ans types hp
    end.
Proof. reflexivity. Qed.

Section HeapCacheLoop.
Context {IdentityNode : Type} `{IdentityOps IdentityNode}.
Variable fuel : nat.
Variable service : DatapackLanguageService IdentityNode.
Variable forType : FileType.
Variable forID : IdentityNode.
Variable config : Config.

#[local] Abbreviation visible_ := (visible fuel service forType forID config).
#[local] Abbreviation pass_ := (accepted (visible fuel service forType forID config)).
#[local] Abbreviation trimCategories_ :=
  (Heap.trimCategories fuel service forType forID config).

(** The loop over the categories of the cache object [ans]: [hpI] is the
    heap the loop starts from, [done] the entries behind it, [todo] the ones
    ahead. *)
Lemma trimCategories_ind ans hpI todo :
  forall done hp,
    Heap.caches hp !!! ans = done ++ todo ->
    Heap.live hp (Heap.Caches, ans) ->
    NoDup (keys (done ++ todo)) ->
    NoDup (done ++ todo).*2 ->
    NoDup ((done ++ todo).*2 ≫= fun c => (Heap.categories hpI !!! c).*2) ->
    (forall s, (Heap.size s hpI <= Heap.size s hp)%nat) ->
    Forall (fun e =>
      agree (Heap.reach_category hpI e.2) hpI hp
      /\ Forall (Heap.live hpI) (Heap.reach_category hpI e.2)
      /\ NoDup (keys (Heap.categories hpI !!! e.2))
      /\ Forall (fun u =>
           Forall (fun p => returns (visible_ p)) (unit_positions Dcl u.2)
           /\ Forall (fun p => returns (visible_ p)) (unit_positions Def u.2))
           (Heap.decode_category hpI e.2)) todo ->
    exists hp' log,
      trimCategories_ ans (keys todo) hp = Ok hp' log
      /\ Heap.caches hp' !!! ans
         = done ++ List.filter
                     (fun e => negb (bool_decide
                        (viewCategory pass_ (Heap.decode_category hpI e.2) = [])))
                     todo
      /\ changes ((Heap.Caches, ans) :: (todo.*2 ≫= category_writes hpI)) hp hp'
      /\ Forall (fun e =>
           Heap.decode_category hp' e.2
           = viewCategory pass_ (Heap.decode_category hpI e.2)
           /\ (forall x, x ∈ Heap.reach_category hp' e.2 ->
                         x ∈ Heap.reach_category hpI e.2 \/ new_array hpI hp' x)
           /\ Forall (Heap.live hp') (Heap.reach_category hp' e.2)) todo.
Proof.
  induction todo as [|[type c] rest IH];
    intros done hp Hcell Hans Hkeys Hrefs Hunits Hsizes Htodo.
  - exists hp, []. rewrite app_nil_r in *. split_and!; [done | done | | done].
    apply changes_refl.
  - apply Forall_cons in Htodo as [(Hagree & HliveI & HkeysI & Htests) Htodo].
    cbn [fst snd] in *.
    destruct (NoDup_keys_middle done type c rest Hkeys)
      as (Hty_done & Hty_rest & Hkeys' & Hkeys'').
    rewrite fmap_app in Hrefs, Hunits. cbn [fmap list_fmap snd] in Hrefs, Hunits.
    change (list_fmap _ _ snd rest) with (rest.*2) in Hrefs, Hunits.
    destruct (NoDup_middle_notin _ _ _ Hrefs) as [Hc_other Hrefs'].
    rewrite <- fmap_app in Hc_other, Hrefs'.
    (* the category in [hp] *)
    destruct (framed_category hpI hp c Hagree) as [Hreach_c Hdecode_c].
    assert (Hcell_c : Heap.categories hp !!! c = Heap.categories hpI !!! c).
    { apply lookup_total_of_lookup, object_at_categories, Hagree.
      apply list_elem_of_here. }
    assert (Hlive_c : Forall (Heap.live hp) (Heap.reach_category hp c)).
    { rewrite Hreach_c. eapply Forall_impl; [exact HliveI |].
      intros x Hx. unfold Heap.live in *. specialize (Hsizes x.1). lia. }
    assert (HrefsI : NoDup (Heap.categories hpI !!! c).*2).
    { apply (NoDup_bind_elem _ _ c) in Hunits; [done |].
      apply elem_of_app. right. apply list_elem_of_here. }
    destruct (trimUnits_spec fuel service forType forID config c hp)
      as (hp2 & log1 & Hres1 & Hch2 & Hdec2 & Hsub2 & Hreach2 & Hlive2).
    { done. } { by rewrite Hcell_c. } { by rewrite Hcell_c. }
    { by rewrite Hdecode_c. }
    rewrite Hdecode_c in Hdec2. rewrite Hcell_c in Hch2, Hsub2.
    fold (category_writes hpI c) in Hch2.
    (* the cache object after the pass *)
    assert (Hcell2 : Heap.caches hp2 !!! ans = done ++ (type, c) :: rest).
    { rewrite <- Hcell. apply lookup_total_of_lookup, object_at_caches.
      destruct Hch2 as [_ Ho]. apply Ho; [done |].
      unfold category_writes. rewrite not_elem_of_cons. split; [done |].
      by intros (? & [=] & _)%list_elem_of_fmap. }
    assert (Hans2 : Heap.live hp2 (Heap.Caches, ans)).
    { destruct Hch2 as [Hs _]. unfold Heap.live in *. specialize (Hs Heap.Caches).
      simpl in *. lia. }
    (* the decision *)
    set (empty := bool_decide (viewCategory pass_ (Heap.decode_category hpI c) = [])).
    assert (Hdecision :
      (if decide (length (keys (Heap.categories hp2 !!! c)) = 0%nat) then true else false)
      = empty).
    { unfold empty. rewrite <- Hdec2. unfold Heap.decode_category, map_values.
      by destruct (Heap.categories hp2 !!! c). }
    change (keys ((type, c) :: rest)) with (type :: keys rest).
    rewrite trimCategories_cons, Hcell, get_app_notin by done. cbn [get].
    rewrite decide_True by done.
    set (hp3 := if decide (length (keys (Heap.categories hp2 !!! c)) = 0%nat)
                then Heap.with_caches
                       (<[ans := delete_key type (Heap.caches hp2 !!! ans)]>
                          (Heap.caches hp2)) hp2
                else hp2).
    set (done' := if empty then done else done ++ [(type, c)]).
    assert (Hch3 : changes [(Heap.Caches, ans)] hp2 hp3).
    { unfold hp3. destruct (decide _); [|apply changes_refl]. split.
      - intros []; simpl; rewrite ?length_insert; lia.
      - intros [[] i] Hi Hnot; unfold Heap.live, Heap.object_at in *; simpl in *;
          try done.
        rewrite list_lookup_insert_ne; [done |]. intros ->.
        apply Hnot, list_elem_of_here. }
    assert (Hcell3 : Heap.caches hp3 !!! ans = done' ++ rest).
    { unfold hp3, done'. rewrite <- Hdecision.
      destruct (decide _); simpl.
      - rewrite list_lookup_total_insert_eq by exact Hans2.
        rewrite Hcell2, delete_key_app, (delete_key_notin type done) by done.
        simpl. rewrite decide_True by done. by rewrite delete_key_notin.
      - by rewrite Hcell2, <- app_assoc. }
    assert (Hch03 : changes (category_writes hpI c ++ [(Heap.Caches, ans)]) hp hp3)
      by exact (changes_trans _ _ _ _ _ Hch2 Hch3).
    assert (Hsizes3 : forall s, (Heap.size s hpI <= Heap.size s hp3)%nat).
    { intros s. destruct Hch03 as [Hs _]. specialize (Hs s).
      specialize (Hsizes s). lia. }
    assert (Hsub_done : (done' ++ rest) `sublist_of` (done ++ (type, c) :: rest)).
    { unfold done'. destruct empty.
      - apply sublist_app; [done |]. by constructor.
      - by rewrite <- app_assoc. }
    destruct (IH done' hp3) as (hp' & log3 & Hres & Hcell' & Hch' & Hall).
    { done. }
    { destruct Hch3 as [Hs _]. unfold Heap.live in *.
      specialize (Hs Heap.Caches). simpl in *. lia. }
    { unfold done'. destruct empty; [done | apply Hkeys'']. }
    { eapply sublist_NoDup; [|by apply fmap_sublist, Hsub_done].
      rewrite fmap_app. exact Hrefs. }
    { eapply sublist_NoDup; [|by apply bind_sublist, fmap_sublist, Hsub_done].
      rewrite fmap_app. exact Hunits. }
    { done. }
    { apply Forall_forall. intros e He. rewrite Forall_forall in Htodo.
      destruct (Htodo e He) as (Hagree_e & Hlive_e & Hkeys_e & Htests_e).
      split_and!; [|done..].
      assert (He' : e.2 ∈ done.*2 ++ rest.*2).
      { apply elem_of_app. right. apply list_elem_of_fmap. by exists e. }
      intros x Hx. rewrite <- (Hagree_e x Hx).
      destruct Hch03 as [_ Ho]. apply Ho.
      - rewrite Forall_forall in Hlive_e. specialize (Hlive_e x Hx).
        unfold Heap.live in *. specialize (Hsizes x.1). lia.
      - unfold category_writes. cbn [app].
        rewrite not_elem_of_cons, not_elem_of_app. split_and!.
        + intros ->. apply reach_category_categories in Hx as ->.
          apply Hc_other. by rewrite fmap_app.
        + intros (u & -> & Hu)%list_elem_of_fmap.
          apply reach_category_units in Hx.
          by apply (NoDup_bind_disjoint _ _ _ c e.2 u Hunits He' Hu).
        + intros ->%list_elem_of_singleton. by apply reach_category_caches in Hx. }
    exists hp', (log1 ++ log3). split_and!.
    + eapply bind_Ok_intro; [exact Hres1 |]. exact Hres.
    + rewrite Hcell'. unfold done'. simpl. fold empty.
      destruct empty; [done |]. by rewrite <- app_assoc.
    + eapply changes_weaken; [|exact (changes_trans _ _ _ _ _ Hch03 Hch')].
      intros x. csimpl.
      repeat (rewrite elem_of_cons || rewrite elem_of_app).
      rewrite elem_of_nil. tauto.
    + apply Forall_cons. split; [|done]. cbn [fst snd].
      assert (Hframe : agree (Heap.reach_category hp2 c) hp2 hp').
      { eapply changes_agree; [exact (changes_trans _ _ _ _ _ Hch3 Hch') | done |].
        intros x Hx. cbn [app]. rewrite !not_elem_of_cons.
        split_and!.
        - intros ->. by apply reach_category_caches in Hx.
        - intros ->. by apply reach_category_caches in Hx.
        - intros (c' & Hw & Hc')%list_elem_of_bind.
          assert (Hc'' : c' ∈ done.*2 ++ rest.*2) by (apply elem_of_app; by right).
          unfold category_writes in Hw.
          apply elem_of_cons in Hw as [->|(u & -> & Hu)%list_elem_of_fmap].
          + apply reach_category_categories in Hx as ->.
            apply Hc_other. by rewrite fmap_app.
          + apply reach_category_units in Hx.
            assert (Hu' : u ∈ (Heap.categories hpI !!! c).*2).
            { eapply elem_of_sublist; [exact Hx |]. by apply fmap_sublist. }
            by apply (NoDup_bind_disjoint _ _ _ c c' u Hunits Hc'' Hu'). }
      destruct (framed_category hp2 hp' c Hframe) as [Hreach' Hdecode'].
      rewrite Hreach', Hdecode'. split_and!; [done | |].
      * intros x Hx. destruct (Hreach2 x Hx) as [Hx'|Hx'].
        -- left. by rewrite <- Hreach_c.
        -- right. destruct Hch3 as [Hs3 _], Hch' as [Hs' _].
           specialize (Hs3 Heap.Arrays). specialize (Hs' Heap.Arrays).
           specialize (Hsizes Heap.Arrays). simpl in *.
           eapply new_array_mono; [| |exact Hx']; lia.
      * eapply changes_live; [exact (changes_trans _ _ _ _ _ Hch3 Hch') | done].
Qed.
End HeapCacheLoop.

Lemma category_writes_reach hp c x :
  x ∈ category_writes hp c -> x ∈ Heap.reach_category hp c.
Proof.
  unfold category_writes. intros Hx.
  eapply elem_of_sublist; [exact Hx |].
  unfold Heap.reach_category. constructor. apply units_sublist_reach.
Qed.

Lemma created_not_live hp hp' F a : created hp hp' F -> Heap.live hp a -> a ∉ F.
Proof.
  unfold created, Heap.live. rewrite Forall_forall. intros Hcr Ha Hin.
  specialize (Hcr a Hin). simpl in Hcr. lia.
Qed.

Section HeapView.
Context {IdentityNode : Type} `{IdentityOps IdentityNode}.
Variable fuel : nat.
Variable service : DatapackLanguageService IdentityNode.
Variable forType : FileType.
Variable forID : IdentityNode.
Variable config : Config.

#[local] Abbreviation visible_ := (visible fuel service forType forID config).
#[local] Abbreviation pass_ := (accepted (visible fuel service forType forID config)).

(** C9: on the heap of objects, [getCacheForID] returns; no object that
    existed before the call is written, so the shared cache at [root] is the
    same graph and reads the same; the result reads as the view of the shared
    cache, with the units, declarations and definitions the tests kept; every
    object of the result, from the cache object down to the scopes of the
    rules, is made by the call and is no object of the shared cache; and
    after any writes to objects of the result the shared cache still reads
    the same. *)
Theorem getCacheForID_pure root hp :
  Forall (Heap.live hp) (Heap.reach_cache hp root) ->
  wf_cache (Heap.decode_cache hp root) ->
  Forall (fun p => returns (visible_ p)) (tested_positions (Heap.decode_cache hp root)) ->
  exists ans hp' log,
    Heap.getCacheForID fuel service forType forID config root hp = Ok (ans, hp') log
    /\ extends hp hp'
    /\ Heap.reach_cache hp' root = Heap.reach_cache hp root
    /\ Heap.decode_cache hp' root = Heap.decode_cache hp root
    /\ Heap.decode_cache hp' ans = viewCache pass_ (Heap.decode_cache hp root)
    /\ created hp hp' (Heap.reach_cache hp' ans)
    /\ (forall x, x ∈ Heap.reach_cache hp' ans -> x ∉ Heap.reach_cache hp' root)
    /\ forall hp'',
         (forall b, b ∉ Heap.reach_cache hp' ans ->
                    Heap.object_at hp'' b = Heap.object_at hp' b) ->
         Heap.reach_cache hp'' root = Heap.reach_cache hp root
         /\ Heap.decode_cache hp'' root = Heap.decode_cache hp root.
Proof.
  intros Hlive Hwf Htests.
  unfold Heap.getCacheForID, Heap.rfdc.
  set (shared := Heap.decode_cache hp root) in *.
  destruct (allocates_cache shared hp) as (Hext1 & Hcr1 & Hnd1 & Hdec1).
  destruct (Heap.alloc_cache shared hp) as [ans hp1]. cbn [fst snd] in *.
  set (cell := Heap.caches hp1 !!! ans) in *.
  assert (Hreach1 : Heap.reach_cache hp1 ans
                    = (Heap.Caches, ans) :: (cell.*2 ≫= Heap.reach_category hp1))
    by done.
  assert (Hshared : shared = map_values (Heap.decode_category hp1) cell) by done.
  rewrite Hreach1 in Hcr1, Hnd1.
  apply NoDup_cons in Hnd1 as [_ Hnd1].
  pose proof (created_live _ _ _ Hcr1) as Hlive1.
  apply Forall_cons in Hlive1 as [Hans1 Hlive1].
  destruct Hwf as [Hkeys Hkeys_in].
  apply Forall_tested_positions in Htests.
  destruct (trimCategories_ind fuel service forType forID config ans hp1 cell [] hp1)
    as (hp' & log & Hres & Hcell' & Hch & Hall).
  { done. } { done. }
  { cbn [app]. by rewrite Hshared, keys_map_values in Hkeys. }
  { cbn [app]. by apply (NoDup_reach_categories hp1). }
  { cbn [app]. by apply NoDup_reach_units. }
  { done. }
  { rewrite Hshared in Hkeys_in, Htests. unfold map_values in Hkeys_in, Htests.
    rewrite Forall_map in Hkeys_in, Htests.
    rewrite Forall_forall in Hkeys_in, Htests.
    apply Forall_forall. intros e He. split_and!.
    - by intros x Hx.
    - rewrite Forall_forall in Hlive1. apply Forall_forall. intros x Hx.
      apply Hlive1, list_elem_of_bind. exists e.2. split; [done |].
      apply list_elem_of_fmap. by exists e.
    - specialize (Hkeys_in e He). cbn [snd] in Hkeys_in.
      unfold Heap.decode_category in Hkeys_in.
      by rewrite keys_map_values in Hkeys_in.
    - exact (Htests e He). }
  cbn [app] in Hcell'.
  set (keep := fun e : CacheType * nat =>
         negb (bool_decide (viewCategory pass_ (Heap.decode_category hp1 e.2) = [])))
    in *.
  assert (Hkept : forall e, e ∈ List.filter keep cell -> e ∈ cell).
  { intros e He. eapply elem_of_sublist; [exact He | apply sublist_filter_bool]. }
  rewrite Forall_forall in Hall.
  (* what the loop may write was made by the copy *)
  assert (Hwrites : forall x,
            x ∈ (Heap.Caches, ans) :: (cell.*2 ≫= category_writes hp1) ->
            x ∈ (Heap.Caches, ans) :: (cell.*2 ≫= Heap.reach_category hp1)).
  { intros x [->|(c & Hx & Hc)%list_elem_of_bind]%elem_of_cons;
      [apply list_elem_of_here |].
    apply list_elem_of_further, list_elem_of_bind. exists c.
    split; [by apply category_writes_reach | done]. }
  assert (Hext : extends hp hp').
  { destruct Hext1 as [Hs1 Ho1]. destruct Hch as [Hs Ho]. split.
    - intros s. specialize (Hs1 s). specialize (Hs s). lia.
    - intros b Hb. rewrite Ho; [by apply Ho1 | |].
      + unfold Heap.live in *. specialize (Hs1 b.1). lia.
      + intros Hin%Hwrites. by apply (created_not_live _ _ _ b Hcr1 Hb). }
  assert (Hsizes : forall s, (Heap.size s hp1 <= Heap.size s hp')%nat)
    by (by destruct Hch).
  assert (Hcreated : created hp hp' (Heap.reach_cache hp' ans)).
  { unfold created in *. rewrite Forall_forall in Hcr1. apply Forall_forall.
    assert (Hold : forall x,
              x ∈ (Heap.Caches, ans) :: (cell.*2 ≫= Heap.reach_category hp1) ->
              (Heap.size x.1 hp <= x.2 < Heap.size x.1 hp')%nat).
    { intros x Hx. specialize (Hcr1 x Hx). specialize (Hsizes x.1). lia. }
    unfold Heap.reach_cache. rewrite Hcell'.
    intros x [->|(c & Hx & Hc)%list_elem_of_bind]%elem_of_cons.
    - apply Hold, list_elem_of_here.
    - apply list_elem_of_fmap in Hc as (e & -> & He).
      destruct (Hall e (Hkept e He)) as (_ & Hreach & _).
      destruct (Hreach x Hx) as [Hx'|[Hsort Hx']].
      + apply Hold, list_elem_of_further, list_elem_of_bind. exists e.2.
        split; [done |]. apply list_elem_of_fmap. exists e. auto.
      + destruct Hext1 as [Hs1 _]. specialize (Hs1 Heap.Arrays).
        destruct x as [s i]. simpl in *. subst s. simpl in *. lia. }
  assert (Hframe : forall hp'',
            (forall b, b ∉ Heap.reach_cache hp' ans ->
                       Heap.object_at hp'' b = Heap.object_at hp' b) ->
            Heap.reach_cache hp'' root = Heap.reach_cache hp root
            /\ Heap.decode_cache hp'' root = Heap.decode_cache hp root).
  { intros hp'' Hsame. apply framed_cache. intros b Hb.
    rewrite Forall_forall in Hlive. specialize (Hlive b Hb).
    rewrite Hsame by (by apply (created_not_live _ _ _ b Hcreated)).
    destruct Hext as [_ Ho]. by apply Ho. }
  exists ans, hp', (log ++ []). split_and!.
  - eapply bind_Ok_intro; [exact Hres | done].
  - done.
  - by apply (Hframe hp').
  - by apply (Hframe hp').
  - unfold Heap.decode_cache at 1. rewrite Hcell'.
    rewrite viewCache_filter, Hshared.
    pose proof (filter_map_values (Heap.decode_category hp1)
                  (fun category => negb (bool_decide (viewCategory pass_ category = [])))
                  cell) as Hfilter.
    cbv beta in Hfilter. rewrite Hfilter. fold keep. unfold map_values. rewrite map_map. apply map_ext_Forall.
    apply Forall_forall. intros e He. cbn [fst snd]. f_equal.
    by apply Hall, Hkept.
  - done.
  - intros x Hx Hroot. destruct (Hframe hp') as [Hreach' _]; [done |].
    rewrite Hreach' in Hroot. rewrite Forall_forall in Hlive.
    by apply (created_not_live _ _ _ x Hcreated (Hlive x Hroot)).
  - exact Hframe.
Qed.
End HeapView.

Lemma getCacheForID_pure_witness :
  (Forall (Heap.live shared_heap.2) (Heap.reach_cache shared_heap.2 shared_heap.1)
   /\ wf_cache (Heap.decode_cache shared_heap.2 shared_heap.1)
   /\ Forall (fun p => returns (visible 3 sample_service function (sample_id "a" "x")
                               public_config p))
        (tested_positions (Heap.decode_cache shared_heap.2 shared_heap.1)))
  /\ exists ans hp' log,
       Heap.getCacheForID 3 sample_service function (sample_id "a" "x") public_config
         shared_heap.1 shared_heap.2 = Ok (ans, hp') log
       /\ Heap.decode_cache hp' ans
          = [ (file_type function,
                [ ("a:x", {| doc := Some "doc of x"; dcl := Some [private_declaration];
                             def := None; ref := Some [position 10 13] |}) ]) ]
       /\ Heap.decode_cache hp' shared_heap.1
          = Heap.decode_cache shared_heap.2 shared_heap.1
       /\ created shared_heap.2 hp' (Heap.reach_cache hp' ans)
       /\ forall hp'',
            (forall b, b ∉ Heap.reach_cache hp' ans ->
                       Heap.object_at hp'' b = Heap.object_at hp' b) ->
            Heap.decode_cache hp'' shared_heap.1
            = Heap.decode_cache shared_heap.2 shared_heap.1.
Proof.
  assert (Hlive : Forall (Heap.live shared_heap.2)
                    (Heap.reach_cache shared_heap.2 shared_heap.1)).
  { unfold Heap.live. by_evaluation. }
  assert (Hwf : wf_cache (Heap.decode_cache shared_heap.2 shared_heap.1))
    by by_evaluation.
  assert (Htested : Forall (fun p => returns (visible 3 sample_service function
                                                (sample_id "a" "x") public_config p))
                      (tested_positions
                         (Heap.decode_cache shared_heap.2 shared_heap.1)))
    by by_evaluation.
  split; [done |].
  destruct (getCacheForID_pure 3 sample_service function (sample_id "a" "x")
              public_config shared_heap.1 shared_heap.2 Hlive Hwf Htested)
    as (ans & hp' & log & Hres & _ & _ & Hsame & Hview & Hcreated & _ & Hwrite).
  exists ans, hp', log. split_and!; [done | | done | done |].
  - rewrite Hview. reflexivity.
  - intros hp'' Hsame''. by apply Hwrite.
Defined.
